(** * ROUGE scores: a shallow embedding of
      [torchmetrics/functional/text/rouge.py]

    The module computes ROUGE-N, ROUGE-L and ROUGE-Lsum between predicted
    and reference texts.  Every function of the Python module is rendered
    below under its own name.

    Modelling conventions.
    - Python [int] is [Z]; Python [str] is [string], read as ASCII text.
    - Python floats and the scalar tensors built from them are rationals
      ([Q]); [nan] is added for the mean of an empty tensor.  How a real
      number is rounded to a float is a parameter of the embedding
      ([Arith]): [ieee_arith] rounds as the program does (binary64 for
      Python floats, float32 for tensors), [exact_arith] does not round.
      Statements on which reference is chosen are proved for every
      arithmetic.  A statement that names no arithmetic is made in
      [exact_arith], the instance in force: there a score holds the values
      that the floats of the program round.  The mean of a tensor is the
      exact mean of its values.
    - A Python [dict] is an insertion-ordered association list with unique
      keys ([dict_set] overwrites in place or appends).
    - Exceptions are values of [exn]; a computation is a pair of its outcome
      and of the scoring calls it made ([M]), so that "raised before any
      scoring" is a statement on the second component.
    - [preds] and [target] are a string or Python lists (of strings, or of
      lists of strings), as in the docstring of [rouge_score].
    - The [nltk] package is a parameter: [None] when [_NLTK_AVAILABLE] is
      false, otherwise its sentence splitter and Porter stemmer. *)

From Stdlib Require Import ZArith QArith Qminmax Qround Qabs Qpower.
From Stdlib Require Import Lia Lqa List Bool Ascii String.
From Stdlib Require Import DecimalString Permutation.
Import ListNotations.

Local Open Scope string_scope.
Local Open Scope list_scope.
Local Open Scope Z_scope.

(** ** Exceptions and the computation monad *)

Inductive exn : Type :=
| ModuleNotFoundError (msg : string)
| ValueError (msg : string)
| ZeroDivisionError
| OverflowError
| KeyError
| IndexError
| RuntimeError
| UnboundLocalError.

Inductive res (A : Type) : Type :=
| Ok (a : A)
| Raise (e : exn).
Arguments Ok {A} a.
Arguments Raise {A} e.

(** The keys handed to [_rouge_score_update]: [Union[int, str]]. *)
Inductive RougeKey : Type :=
| KInt (n : Z)
| KStr (s : string).

(** One event per call of [_rouge_n_score] or [_rouge_l_score]. *)
Inductive event : Type :=
| Scored (rouge_key : RougeKey).

Definition M (A : Type) : Type := (res A * list event)%type.

Definition ret {A} (a : A) : M A := (Ok a, []).
Definition raise {A} (e : exn) : M A := (Raise e, []).
Definition tick (ev : event) : M unit := (Ok tt, [ev]).

Definition bind {A B} (m : M A) (f : A -> M B) : M B :=
  match m with
  | (Ok a, t1) => let (r, t2) := f a in (r, t1 ++ t2)
  | (Raise e, t1) => (Raise e, t1)
  end.

Declare Scope monad_scope.
Delimit Scope monad_scope with monad.
Notation "x <- m ;; k" := (bind m (fun x => k))
  (at level 61, m at next level, right associativity) : monad_scope.
Notation "m ;;; k" := (bind m (fun _ => k))
  (at level 61, right associativity) : monad_scope.
Local Open Scope monad_scope.

Definition value {A} (m : M A) : res A := fst m.

(** [for x in l: s = f(s, x)] *)
Fixpoint foldM {S X} (f : S -> X -> M S) (l : list X) (s : S) : M S :=
  match l with
  | [] => ret s
  | x :: l' => s' <- f s x ;; foldM f l' s'
  end.

(** [[f(x) for x in l]] *)
Fixpoint mapM {X Y} (f : X -> M Y) (l : list X) : M (list Y) :=
  match l with
  | [] => ret []
  | x :: l' => y <- f x ;; ys <- mapM f l' ;; ret (y :: ys)
  end.

(** ** Keys with decidable equality, and dictionaries *)

Class EqKey (K : Type) : Type := { keqb : K -> K -> bool }.

(** [keqb] decides equality. *)
Class EqKeyLaws (K : Type) `{EqKey K} : Prop :=
  keqb_eq : forall a b : K, keqb a b = true <-> a = b.

#[export] Instance EqKey_string : EqKey string := {| keqb := String.eqb |}.

#[export] Instance EqKey_Z : EqKey Z := {| keqb := Z.eqb |}.

Fixpoint list_eqb {A} `{EqKey A} (l1 l2 : list A) : bool :=
  match l1, l2 with
  | [], [] => true
  | a :: l1', b :: l2' => keqb a b && list_eqb l1' l2'
  | _, _ => false
  end.

(** Tuples of tokens, the keys of a [Counter] of n-grams. *)
#[export] Instance EqKey_list {A} `{EqKey A} : EqKey (list A) :=
  {| keqb := list_eqb |}.

Definition RougeKey_eqb (a b : RougeKey) : bool :=
  match a, b with
  | KInt n, KInt m => Z.eqb n m
  | KStr s, KStr t => String.eqb s t
  | _, _ => false
  end.

#[export] Instance EqKey_RougeKey : EqKey RougeKey :=
  {| keqb := RougeKey_eqb |}.

Abbreviation dict K V := (list (K * V)) (only parsing).

Section Dict.
Context {K V : Type} `{EqKey K}.

Fixpoint dict_get (d : dict K V) (k : K) : option V :=
  match d with
  | [] => None
  | (k', v) :: d' => if keqb k' k then Some v else dict_get d' k
  end.

(** [d[k] = v] *)
Fixpoint dict_set (d : dict K V) (k : K) (v : V) : dict K V :=
  match d with
  | [] => [(k, v)]
  | (k', v') :: d' =>
      if keqb k' k then (k', v) :: d' else (k', v') :: dict_set d' k v
  end.

(** [k in d] *)
Definition dict_mem (d : dict K V) (k : K) : bool :=
  match dict_get d k with Some _ => true | None => false end.

(** [d[k]] as an expression: [KeyError] on a missing key. *)
Definition dict_item (d : dict K V) (k : K) : M V :=
  match dict_get d k with
  | Some v => ret v
  | None => raise KeyError
  end.

(** [{k: v0 for k in keys}] *)
Definition dict_fromkeys (keys : list K) (v0 : V) : dict K V :=
  fold_left (fun d k => dict_set d k v0) keys [].

Definition dict_keys (d : dict K V) : list K := map fst d.
Definition dict_values (d : dict K V) : list V := map snd d.
End Dict.

(** [d[k].append(x)] for a dictionary of lists. *)
Definition dict_append {K X} `{EqKey K} (d : dict K (list X)) (k : K) (x : X)
  : M (dict K (list X)) :=
  l <- dict_item d k ;; ret (dict_set d k (l ++ [x])).

(** [l[i]] for [0 <= i]; [IndexError] out of range. *)
Definition list_item {X} (l : list X) (i : nat) : M X :=
  match nth_error l i with
  | Some x => ret x
  | None => raise IndexError
  end.

(** ** Scalar tensors *)

Inductive Tensor : Type :=
| tensor (x : Q)
| nan.

Definition Qsum (l : list Q) : Q := fold_right Qplus 0%Q l.

Definition Qmean (l : list Q) : Q :=
  (Qsum l / inject_Z (Z.of_nat (List.length l)))%Q.

Fixpoint tensor_values (l : list Tensor) : option (list Q) :=
  match l with
  | [] => Some []
  | tensor x :: l' =>
      match tensor_values l' with Some xs => Some (x :: xs) | None => None end
  | nan :: _ => None
  end.

(** [torch.tensor(l).mean()]: the mean of no element is [nan]. *)
Definition tensor_mean (l : list Tensor) : Tensor :=
  match l with
  | [] => nan
  | _ :: _ =>
      match tensor_values l with
      | Some xs => tensor (Qmean xs)
      | None => nan
      end
  end.

(** [x] beats the current maximum [best]; [nan] counts as the largest
    value, as in [torch.argmax]. *)
Definition tensor_gtb (x best : Tensor) : bool :=
  match best, x with
  | nan, _ => false
  | tensor _, nan => true
  | tensor b, tensor a => negb (Qle_bool a b)
  end.

Fixpoint argmax_from (best_i : nat) (best : Tensor) (i : nat)
  (l : list Tensor) : nat :=
  match l with
  | [] => best_i
  | x :: l' =>
      if tensor_gtb x best then argmax_from i x (S i) l'
      else argmax_from best_i best (S i) l'
  end.

(** [int(torch.argmax(torch.tensor(l)).item())]: the first index of a
    maximal element; an empty tensor has no argmax. *)
Definition argmax (l : list Tensor) : M nat :=
  match l with
  | [] => raise RuntimeError
  | x :: l' => ret (argmax_from 0%nat x 1%nat l')
  end.

(** ** Text: the regular expressions of [_normalize_and_tokenize_text] *)

Definition in_range (lo hi : nat) (c : ascii) : bool :=
  (lo <=? nat_of_ascii c)%nat && (nat_of_ascii c <=? hi)%nat.

(** [[a-z0-9]] *)
Definition is_alnum (c : ascii) : bool := in_range 97 122 c || in_range 48 57 c.

(** [\s] on ASCII text *)
Definition is_space (c : ascii) : bool :=
  in_range 9 13 c || in_range 28 32 c.

Definition newline : ascii := ascii_of_nat 10.

Definition lower_ascii (c : ascii) : ascii :=
  if in_range 65 90 c then ascii_of_nat (nat_of_ascii c + 32) else c.

(** [text.lower()] *)
Fixpoint lower (s : string) : string :=
  match s with
  | EmptyString => EmptyString
  | String c s' => String (lower_ascii c) (lower s')
  end.

(** [re.sub(r"[^a-z0-9]+", " ", s)]; [in_run] holds inside a run that has
    already been replaced. *)
Fixpoint sub_non_alnum (in_run : bool) (s : string) : string :=
  match s with
  | EmptyString => EmptyString
  | String c s' =>
      if is_alnum c then String c (sub_non_alnum false s')
      else if in_run then sub_non_alnum true s'
      else String " " (sub_non_alnum true s')
  end.

(** [re.split(r"\s+", s)]; [cur] is the piece being read and [in_ws] holds
    inside a separator. *)
Fixpoint split_ws (cur : string) (in_ws : bool) (s : string) : list string :=
  match s with
  | EmptyString => [cur]
  | String c s' =>
      if is_space c then
        if in_ws then split_ws cur true s'
        else cur :: split_ws EmptyString true s'
      else split_ws (cur ++ String c EmptyString)%string false s'
  end.

(** The rest of a match of [[a-z0-9]+$]: [$] also matches just before a
    final newline. *)
Fixpoint alnum_to_end (s : string) : bool :=
  match s with
  | EmptyString => true
  | String c s' =>
      match s' with
      | EmptyString => is_alnum c || Ascii.eqb c newline
      | String _ _ => is_alnum c && alnum_to_end s'
      end
  end.

(** [re.match(r"^[a-z0-9]+$", x)] *)
Definition match_token (x : string) : bool :=
  match x with
  | EmptyString => false
  | String c s' => is_alnum c && alnum_to_end s'
  end.

Definition _normalize_and_tokenize_text (text : string)
  (stemmer : option (string -> string)) : list string :=
  let text := sub_non_alnum false (lower text) in
  let tokens := split_ws EmptyString false text in
  let tokens :=
    match stemmer with
    | Some stem =>
        map (fun x => if (3 <? String.length x)%nat then stem x else x) tokens
    | None => tokens
    end in
  filter match_token tokens.

(** ** Metric derivation *)

(** A score is the dictionary
    [dict(precision=..., recall=..., fmeasure=...)]. *)
Abbreviation Score := (dict string Tensor) (only parsing).

Definition mk_score (precision recall fmeasure : Q) : Score :=
  [("precision", tensor precision); ("recall", tensor recall);
   ("fmeasure", tensor fmeasure)].

Definition zero_score : Score := mk_score 0 0 0.

(** *** Floating-point arithmetic

    [_compute_metrics] divides ints, computes with the Python floats it
    gets and stores the results in tensors.  The three roundings involved
    are the parameter [Arith]. *)
Class Arith : Type := {
  (** the Python float nearest to a real number *)
  double : Q -> Q;
  (** the real number is too large in magnitude for a Python float *)
  double_overflow : Q -> bool;
  (** the float32 value nearest to a Python float, as [tensor(x)] stores it *)
  single : Q -> Q
}.

(** [a / b] on ints: the float nearest to the quotient. *)
Definition int_truediv {ar : Arith} (a b : Z) : M Q :=
  if b =? 0 then raise ZeroDivisionError
  else
    let q := (inject_Z a / inject_Z b)%Q in
    if double_overflow q then raise OverflowError else ret (double q).

(** [x * y], [x + y] and [x / y] on floats. *)
Definition float_mul {ar : Arith} (x y : Q) : Q := double (x * y).

Definition float_add {ar : Arith} (x y : Q) : Q := double (x + y).

Definition float_truediv {ar : Arith} (x y : Q) : M Q :=
  if Qeq_bool y 0 then raise ZeroDivisionError else ret (double (x / y)).

(** No rounding: floats and tensors hold the real numbers themselves. *)
#[export] Instance exact_arith : Arith :=
  {| double := fun q => q;
     double_overflow := fun _ => false;
     single := fun q => q |}.

(** The integer nearest to [x], ties to the even one. *)
Definition rint (x : Q) : Z :=
  let f := Qfloor x in
  match (x - inject_Z f ?= 1 # 2)%Q with
  | Lt => f
  | Gt => f + 1
  | Eq => if Z.even f then f else f + 1
  end.

(** [floor (log2 x)] for [x > 0]. *)
Definition Qlog2 (x : Q) : Z :=
  let k := Z.log2 (Qnum x) - Z.log2 (Zpos (Qden x)) in
  if Qle_bool (2 ^ k) x then k else k - 1.

(** Rounding to the nearest binary float with [prec] digits, ties to even;
    [emin] is the exponent of the least positive float, so that small
    numbers are rounded as subnormals. *)
Definition round_float (prec emin : Z) (x : Q) : Q :=
  if Qeq_bool x 0 then 0%Q
  else
    let e := Z.max (Qlog2 (Qabs x) - prec + 1) emin in
    (inject_Z (rint (x / 2 ^ e)) * 2 ^ e)%Q.

(** The arithmetic of the program: Python floats are binary64 and a
    quotient of ints that rounds beyond the largest float raises
    [OverflowError]; tensors are float32.  Infinities are not represented:
    a float operation or a tensor whose result exceeds the largest finite
    value keeps its rounded value here.  The callers of [_compute_metrics]
    pass [0 <= hits_or_lcs <= pred_len, target_len], for which every value
    involved lies between 0 and 2. *)
Definition ieee_arith : Arith :=
  {| double := round_float 53 (-1074);
     double_overflow := fun q => Qle_bool (2 ^ 1024 - 2 ^ 970) (Qabs q);
     single := round_float 24 (-149) |}.

(** What the statements that hold for every arithmetic use of it. *)
Class ArithLaws (ar : Arith) : Prop := {
  (** a quotient between 0 and 1 is not too large for a float *)
  double_unit_fits :
    forall q : Q, (0 <= q)%Q -> (q <= 1)%Q -> double_overflow q = false;
  (** the sum of two floats that are not negative and not both zero is not
      zero *)
  double_sum_nonzero :
    forall x y : Q, (0 <= x)%Q -> (0 <= y)%Q ->
      ~ (double x == 0 /\ double y == 0)%Q ->
      ~ (double (double x + double y) == 0)%Q
}.

Definition _compute_metrics {ar : Arith} (hits_or_lcs pred_len target_len : Z)
  : M Score :=
  precision <- int_truediv hits_or_lcs pred_len ;;
  recall <- int_truediv hits_or_lcs target_len ;;
  if Qeq_bool precision recall && Qeq_bool recall 0 then ret zero_score
  else
    fmeasure <-
      float_truediv (float_mul (float_mul 2 precision) recall)
        (float_add precision recall) ;;
    ret (mk_score (single precision) (single recall) (single fmeasure)).

(** ** Longest common subsequence *)

(** [LCS[i][j]] *)
Definition table_get (LCS : list (list Z)) (i j : nat) : Z :=
  nth j (nth i LCS []) 0.

Fixpoint list_update {X} (l : list X) (i : nat) (x : X) : list X :=
  match l, i with
  | [], _ => []
  | _ :: l', O => x :: l'
  | y :: l', S i' => y :: list_update l' i' x
  end.

(** [LCS[i][j] = v] *)
Definition table_set (LCS : list (list Z)) (i j : nat) (v : Z)
  : list (list Z) :=
  list_update LCS i (list_update (nth i LCS []) j v).

Definition _lcs (pred_tokens target_tokens : list string) : Z :=
  let P := List.length pred_tokens in
  let T := List.length target_tokens in
  let LCS0 := repeat (repeat 0 (P + 1)) (T + 1) in
  let LCS :=
    fold_left (fun LCS i =>
      fold_left (fun LCS j =>
        if String.eqb (nth (i - 1) target_tokens EmptyString)
                      (nth (j - 1) pred_tokens EmptyString)
        then table_set LCS i j (table_get LCS (i - 1) (j - 1) + 1)
        else table_set LCS i j
               (Z.max (table_get LCS (i - 1) j) (table_get LCS i (j - 1))))
        (seq 1 P) LCS)
      (seq 1 T) LCS0 in
  table_get LCS T P.

(** ** ROUGE-N *)

(** [tokens[i:j]] for [0 <= i]; a negative [j] counts from the end. *)
Definition py_slice {X} (tokens : list X) (i j : Z) : list X :=
  let len := Z.of_nat (List.length tokens) in
  let j' := if j <? 0 then Z.max 0 (j + len) else Z.min j len in
  let i' := Z.min i len in
  firstn (Z.to_nat (j' - i')) (skipn (Z.to_nat i') tokens).

(** [range(n)] *)
Definition range (n : Z) : list Z :=
  map Z.of_nat (seq 0 (Z.to_nat n)).

(** A [Counter]: missing keys count 0. *)
Abbreviation Counter := (dict (list string) Z) (only parsing).

Definition counter_get (c : Counter) (w : list string) : Z :=
  match dict_get c w with Some n => n | None => 0 end.

(** The local function of [_rouge_n_score]. *)
Definition _create_ngrams (tokens : list string) (n : Z) : Counter :=
  fold_left (fun ngrams i =>
               let ngram := py_slice tokens i (i + n) in
               dict_set ngrams ngram (counter_get ngrams ngram + 1))
    (range (Z.of_nat (List.length tokens) - n + 1)) [].

(** [sum(l)] *)
Definition Zsum (l : list Z) : Z := fold_right Z.add 0 l.

Definition _rouge_n_score {ar : Arith} (pred target : list string)
  (n_gram : Z) : M Score :=
  let pred_ngrams := _create_ngrams pred n_gram in
  let target_ngrams := _create_ngrams target n_gram in
  let pred_len := Zsum (dict_values pred_ngrams) in
  let target_len := Zsum (dict_values target_ngrams) in
  if (pred_len =? 0) || (target_len =? 0) then ret zero_score
  else
    let hits :=
      Zsum (map (fun w => Z.min (counter_get pred_ngrams w)
                                (counter_get target_ngrams w))
              (dict_keys pred_ngrams)) in
    _compute_metrics hits (Z.max pred_len 1) (Z.max target_len 1).

(** ** ROUGE-L *)

Definition _rouge_l_score {ar : Arith} (pred target : list string) : M Score :=
  let pred_len := Z.of_nat (List.length pred) in
  let target_len := Z.of_nat (List.length target) in
  if (pred_len =? 0) || (target_len =? 0) then ret zero_score
  else
    let lcs := _lcs pred target in
    _compute_metrics lcs pred_len target_len.

(** ** The [nltk] collaborators *)

Record NLTK : Type := {
  sent_tokenize : string -> list string;   (* [nltk.sent_tokenize] *)
  porter_stem : string -> string           (* [PorterStemmer().stem] *)
}.

Definition ALLOWED_ROUGE_KEYS : dict string RougeKey :=
  [("rouge1", KInt 1); ("rouge2", KInt 2); ("rouge3", KInt 3);
   ("rouge4", KInt 4); ("rouge5", KInt 5); ("rouge6", KInt 6);
   ("rouge7", KInt 7); ("rouge8", KInt 8); ("rouge9", KInt 9);
   ("rougeL", KStr "L"); ("rougeLsum", KStr "Lsum")].

Definition ALLOWED_ACCUMULATE_VALUES : list string := ["avg"; "best"].

(** [key in l] *)
Definition key_in {K} `{EqKey K} (k : K) (l : list K) : bool :=
  existsb (keqb k) l.

(** The per-reference state of [_rouge_score_update]:
    [result_inner], [result_avg] and [list_results]. *)
Record RefState : Type := {
  result_inner : dict RougeKey Score;
  result_avg : dict RougeKey (list Score);
  list_results : list (dict RougeKey Score)
}.

Abbreviation Results := (dict RougeKey (list Score)) (only parsing).

(** The arguments of [rouge_score]. *)
Inductive Preds : Type :=
| PredStr (s : string)
| PredList (l : list string).

Inductive Target : Type :=
| TargetStr (s : string)
| TargetList (l : list string)
| TargetNested (l : list (list string)).

Inductive RougeKeys : Type :=
| KeysStr (s : string)
| KeysTuple (l : list string).

(** Lines 353-354: a single key is wrapped into a tuple. *)
Definition rouge_keys_tuple (rouge_keys : RougeKeys) : list string :=
  match rouge_keys with KeysStr s => [s] | KeysTuple l => l end.

(** [isinstance(preds, str)] *)
Definition preds_is_str (preds : Preds) : bool :=
  match preds with PredStr _ => true | PredList _ => false end.

(** [isinstance(target, list) and all(isinstance(tgt, str) for tgt in target)];
    the empty list passes whatever its intended element type. *)
Definition is_list_of_str (target : Target) : bool :=
  match target with
  | TargetList _ => true
  | TargetNested [] => true
  | _ => false
  end.

(** The elements of a target that passed [is_list_of_str]. *)
Definition target_items (target : Target) : list string :=
  match target with TargetList l => l | _ => [] end.

(** Iterating over a string yields its characters. *)
Fixpoint chars (s : string) : list string :=
  match s with
  | EmptyString => []
  | String c s' => String c EmptyString :: chars s'
  end.

(** [str(k)] inside an f-string. *)
Definition key_str (k : RougeKey) : string :=
  match k with
  | KInt n => NilZero.string_of_int (Z.to_int n)
  | KStr s => s
  end.

(** [repr] of a list of plain strings. *)
Definition repr_list (l : list string) : string :=
  ("[" ++ String.concat ", " (map (fun s => "'" ++ s ++ "'") l) ++ "]")%string.

Definition lsum_error : exn :=
  ModuleNotFoundError
    "ROUGE-Lsum calculation requires that `nltk` is installed. Use `pip install nltk`.".

Section Rouge.
Context {ar : Arith}.
(** [Some lib] when [_NLTK_AVAILABLE], [None] otherwise. *)
Variable nltk : option NLTK.

Definition _add_newline_to_end_of_each_sentence (x : string) : M string :=
  match nltk with
  | None => raise lsum_error
  | Some lib =>
      (* [nltk.download] fetches data once; the result of
         [re.sub("<n>", "", x)] is discarded *)
      ret (String.concat (String newline EmptyString) (sent_tokenize lib x))
  end.

Section Update.
Variable rouge_keys_values : list RougeKey.
Variable accumulate : string.
Variable stemmer : option (string -> string).

(** Lines 230-236: the score of one reference for one key; the call of the
    scorer is recorded. *)
Definition score_key (pred pred_Lsum tgt : list string)
  (target_Lsum : option (list string)) (rouge_key : RougeKey) : M Score :=
  tick (Scored rouge_key) ;;;
  match rouge_key with
  | KInt n => _rouge_n_score pred tgt n
  | KStr s =>
      if negb (String.eqb s "Lsum") then _rouge_l_score pred tgt
      else
        match target_Lsum with
        | Some target_Lsum => _rouge_l_score pred_Lsum target_Lsum
        | None => raise UnboundLocalError
        end
  end.

(** Lines 229-238: the loop over the keys for one reference. *)
Definition score_keys (pred pred_Lsum tgt : list string)
  (target_Lsum : option (list string)) (st : RefState) : M RefState :=
  foldM (fun st rouge_key =>
           score <- score_key pred pred_Lsum tgt target_Lsum rouge_key ;;
           let inner := dict_set (result_inner st) rouge_key score in
           avg <- dict_append (result_avg st) rouge_key score ;;
           ret {| result_inner := inner; result_avg := avg;
                  list_results := list_results st |})
    rouge_keys_values st.

(** Lines 220-239: the body of the loop over the references. *)
Definition score_reference (pred pred_Lsum : list string) (st : RefState)
  (target_raw_inner : string) : M RefState :=
  let tgt := _normalize_and_tokenize_text target_raw_inner stemmer in
  target_Lsum <-
    (if key_in (KStr "Lsum") rouge_keys_values then
       x <- _add_newline_to_end_of_each_sentence target_raw_inner ;;
       ret (Some (_normalize_and_tokenize_text x stemmer))
     else ret None) ;;
  st <- score_keys pred pred_Lsum tgt target_Lsum st ;;
  ret {| result_inner := result_inner st; result_avg := result_avg st;
         list_results := list_results st ++ [result_inner st] |}.

(** Lines 241-247. *)
Definition accumulate_best (st : RefState) (results : Results) : M Results :=
  key_curr <- list_item rouge_keys_values 0 ;;
  all_fmeasure <-
    mapM (fun v => s <- dict_item v key_curr ;; dict_item s "fmeasure")
      (list_results st) ;;
  highest_idx <- argmax all_fmeasure ;;
  foldM (fun results rouge_key =>
           l <- dict_item results rouge_key ;;
           v <- list_item (list_results st) highest_idx ;;
           s <- dict_item v rouge_key ;;
           ret (dict_set results rouge_key (l ++ [s])))
    rouge_keys_values results.

(** Lines 254-259: the values of every field, over the scores of one
    key; a field is entered with the empty list when first met. *)
Definition metric_score_batch (metrics : list Score)
  : dict string (list Tensor) :=
  fold_left (fun batch metric =>
    fold_left (fun batch tv =>
                 let l := match dict_get batch (fst tv) with
                          | Some l => l
                          | None => []
                          end in
                 dict_set batch (fst tv) (l ++ [snd tv]))
      metric batch)
    metrics [].

(** Lines 261-263: the mean of every field met. *)
Definition mean_scores (metrics : list Score) : Score :=
  map (fun tl => (fst tl, tensor_mean (snd tl))) (metric_score_batch metrics).

(** Lines 249-266. *)
Definition accumulate_avg (st : RefState) (results : Results) : M Results :=
  let new_result_avg : dict RougeKey Score :=
    fold_left (fun new_result_avg km =>
                 dict_set new_result_avg (fst km) (mean_scores (snd km)))
      (result_avg st) (dict_fromkeys rouge_keys_values []) in
  foldM (fun results rouge_key =>
           l <- dict_item results rouge_key ;;
           s <- dict_item new_result_avg rouge_key ;;
           ret (dict_set results rouge_key (l ++ [s])))
    rouge_keys_values results.

(** Lines 213-266: the body of the loop over the examples. *)
Definition update_example (results : Results)
  (example : string * list string) : M Results :=
  let (pred_raw, target_raw) := example in
  let st0 := {| result_inner := dict_fromkeys rouge_keys_values [];
                result_avg := dict_fromkeys rouge_keys_values [];
                list_results := [] |} in
  let pred := _normalize_and_tokenize_text pred_raw stemmer in
  x <- _add_newline_to_end_of_each_sentence pred_raw ;;
  let pred_Lsum := _normalize_and_tokenize_text x stemmer in
  st <- foldM (score_reference pred pred_Lsum) target_raw st0 ;;
  if String.eqb accumulate "best" then accumulate_best st results
  else if String.eqb accumulate "avg" then accumulate_avg st results
  else ret results.

Definition _rouge_score_update (preds : list string)
  (target : list (list string)) : M Results :=
  let results : Results := dict_fromkeys rouge_keys_values [] in
  foldM update_example (combine preds target) results.
End Update.

(** [_rouge_score_compute] *)
Definition _rouge_score_compute (sentence_results : dict string (list Tensor))
  : dict string Tensor :=
  match sentence_results with
  | [] => []
  | _ :: _ =>
      fold_left (fun results ks => dict_set results (fst ks) (tensor_mean (snd ks)))
        sentence_results []
  end.

Definition stemmer_error : exn :=
  ModuleNotFoundError
    "Stemmer requires that `nltk` is installed. Use `pip install nltk`.".

Definition unknown_key_error (key : string) : exn :=
  ValueError ("Got unknown rouge key " ++ key ++ ". Expected to be one of "
              ++ repr_list (dict_keys ALLOWED_ROUGE_KEYS))%string.

(** Lines 360-367: afterwards [preds] is a list and [target] a list of
    reference groups. *)
Definition normalize_shape (preds : Preds) (target : Target)
  : list string * list (list string) :=
  let target :=
    if is_list_of_str target then
      if preds_is_str preds then TargetNested [target_items target]
      else TargetNested (map (fun tgt => [tgt]) (target_items target))
    else target in
  let preds :=
    match preds with PredStr s => [s] | PredList l => l end in
  let target :=
    match target with
    | TargetStr s => [[s]]
    | TargetNested groups => groups
    | TargetList l => map chars l   (* not reached: regrouped above *)
    end in
  (preds, target).

(** [f"rouge{rouge_key}_{type}"] *)
Definition output_key (rouge_key : RougeKey) (type : string) : string :=
  ("rouge" ++ key_str rouge_key ++ "_" ++ type)%string.

(** Lines 346-351. *)
Definition get_stemmer (use_stemmer : bool) : M (option (string -> string)) :=
  if use_stemmer then
    match nltk with
    | None => raise stemmer_error
    | Some lib => ret (Some (porter_stem lib))
    end
  else ret None.

(** Lines 353-358. *)
Definition get_rouge_keys_values (rouge_keys : RougeKeys)
  : M (list RougeKey) :=
  let rouge_keys := rouge_keys_tuple rouge_keys in
  foldM (fun _ key =>
           if negb (dict_mem ALLOWED_ROUGE_KEYS key)
           then raise (unknown_key_error key) else ret tt)
    rouge_keys tt ;;;
  mapM (dict_item ALLOWED_ROUGE_KEYS) rouge_keys.

(** Lines 373-376. *)
Definition init_output (rouge_keys_values : list RougeKey)
  : dict string (list Tensor) :=
  fold_left (fun output rouge_key =>
               fold_left (fun output type =>
                            dict_set output (output_key rouge_key type) [])
                 ["fmeasure"; "precision"; "recall"] output)
    rouge_keys_values [].

(** Lines 378-381. *)
Definition collect_output (sentence_results : Results)
  (output : dict string (list Tensor)) : M (dict string (list Tensor)) :=
  foldM (fun output km =>
           foldM (fun output metric =>
                    foldM (fun output tv =>
                             dict_append output
                               (output_key (fst km) (fst tv)) (snd tv))
                      metric output)
             (snd km) output)
    sentence_results output.

Definition rouge_score (preds : Preds) (target : Target)
  (accumulate : string) (use_stemmer : bool) (rouge_keys : RougeKeys)
  : M (dict string Tensor) :=
  stemmer <- get_stemmer use_stemmer ;;
  rouge_keys_values <- get_rouge_keys_values rouge_keys ;;
  let (preds, target) := normalize_shape preds target in
  sentence_results <-
    _rouge_score_update rouge_keys_values accumulate stemmer preds target ;;
  output <- collect_output sentence_results (init_output rouge_keys_values) ;;
  ret (_rouge_score_compute output).
End Rouge.

(** ** Notions used in the statements *)

(** The pairs the loop of [_rouge_score_update] visits:
    [zip(preds, target)] after the shapes are normalized. *)
Definition examples (preds : Preds) (target : Target)
  : list (string * list string) :=
  let (preds, target) := normalize_shape preds target in combine preds target.

(** The first requested key outside [ALLOWED_ROUGE_KEYS], if any. *)
Definition first_unknown_key (rouge_keys : RougeKeys) : option string :=
  find (fun key => negb (dict_mem ALLOWED_ROUGE_KEYS key))
    (rouge_keys_tuple rouge_keys).

(** The value of an allowed key. *)
Definition allowed_value (key : string) : RougeKey :=
  match dict_get ALLOWED_ROUGE_KEYS key with
  | Some v => v
  | None => KStr key
  end.

(** The texts handed to the sentence splitter for a batch. *)
Definition texts_of (batch : list (string * list string)) : list string :=
  flat_map (fun ex => fst ex :: snd ex) batch.

(** A scalar tensor holds the value [q]. *)
Definition tensor_eq (t : Tensor) (q : Q) : Prop :=
  match t with tensor x => (x == q)%Q | nan => False end.

(** A final result holds exactly the given values, key by key. *)
Definition same_scores (out : dict string Tensor) (expected : list (string * Q))
  : Prop :=
  Forall2 (fun kv kq => fst kv = fst kq /\ tensor_eq (snd kv) (snd kq))
    out expected.

(** The fields of a score. *)
Definition field_of (name : string) (s : Score) : Q :=
  match dict_get s name with
  | Some (tensor x) => x
  | _ => 0%Q
  end.

Definition precision_of : Score -> Q := field_of "precision".
Definition recall_of : Score -> Q := field_of "recall".
Definition fmeasure_of : Score -> Q := field_of "fmeasure".

(** A score with exactly the three fields, in the order of the source. *)
Definition well_formed_score (s : Score) : Prop :=
  s = mk_score (precision_of s) (recall_of s) (fmeasure_of s).

(** The score of one reference for one key, as the loops of
    [_rouge_score_update] compute it for the prediction [pred_raw]
    (lines 217-236), with [nltk] available. *)
Definition reference_score {ar : Arith} (lib : NLTK)
  (stemmer : option (string -> string))
  (rouge_keys_values : list RougeKey) (pred_raw target_raw_inner : string)
  (rouge_key : RougeKey) : M Score :=
  let join := String.concat (String newline EmptyString) in
  let pred := _normalize_and_tokenize_text pred_raw stemmer in
  let pred_Lsum :=
    _normalize_and_tokenize_text (join (sent_tokenize lib pred_raw)) stemmer in
  let tgt := _normalize_and_tokenize_text target_raw_inner stemmer in
  let target_Lsum :=
    if key_in (KStr "Lsum") rouge_keys_values then
      Some (_normalize_and_tokenize_text
              (join (sent_tokenize lib target_raw_inner)) stemmer)
    else None in
  score_key pred pred_Lsum tgt target_Lsum rouge_key.

(** The score a computation returns. *)
Definition score_of (m : M Score) : Score :=
  match value m with Ok s => s | Raise _ => [] end.

(** [i] is the first index at which the list is maximal. *)
Definition first_maximum (l : list Q) (i : nat) : Prop :=
  exists x, nth_error l i = Some x /\
    (forall j y, nth_error l j = Some y -> (y <= x)%Q) /\
    (forall j y, (j < i)%nat -> nth_error l j = Some y -> (y < x)%Q).

(** How many times a key is requested. *)
Definition occurrences {K} `{EqKey K} (key : K) (keys : list K) : nat :=
  List.length (filter (keqb key) keys).

(** [results] has an entry for every requested key, as it has all along the
    loop of [_rouge_score_update]. *)
Definition keys_present (keys : list RougeKey) (results : Results) : Prop :=
  forall key, In key keys -> dict_get results key <> None.

(** [results'] is [results] after [for key in keys:
    results[key].append(score(key))]. *)
Definition appended (keys : list RougeKey) (score : RougeKey -> Score)
  (results results' : Results) : Prop :=
  dict_keys results' = dict_keys results /\
  forall key, dict_get results' key =
              option_map
                (fun l => l ++ repeat (score key) (occurrences key keys))
                (dict_get results key).

(** [s] is a subsequence of [l]: [l] with some elements left out. *)
Inductive Subseq {A : Type} : list A -> list A -> Prop :=
| Subseq_nil : Subseq [] []
| Subseq_skip (s : list A) (x : A) (l : list A) :
    Subseq s l -> Subseq s (x :: l)
| Subseq_take (s : list A) (x : A) (l : list A) :
    Subseq s l -> Subseq (x :: s) (x :: l).

(** The recurrence that the table of [_lcs] tabulates, on whole lists. *)
Fixpoint lcs_rec (xs ys : list string) : nat :=
  match xs with
  | [] => 0%nat
  | x :: xs' =>
      (fix inner (ys : list string) : nat :=
         match ys with
         | [] => 0%nat
         | y :: ys' =>
             if String.eqb x y then S (lcs_rec xs' ys')
             else Nat.max (lcs_rec xs' (y :: ys')) (inner ys')
         end) ys
  end.

(** One cell of the table of [_lcs] (lines 87-90). *)
Definition lcs_cell (pred_tokens target_tokens : list string) (i : nat)
  (LCS : list (list Z)) (j : nat) : list (list Z) :=
  if String.eqb (nth (i - 1) target_tokens EmptyString)
                (nth (j - 1) pred_tokens EmptyString)
  then table_set LCS i j (table_get LCS (i - 1) (j - 1) + 1)
  else table_set LCS i j
         (Z.max (table_get LCS (i - 1) j) (table_get LCS i (j - 1))).

(** The value the finished table of [_lcs] holds in row [r], column [c]:
    the recurrence on the first [r] target tokens and the first [c]
    predicted tokens, read from their last element backwards. *)
Definition table_entry (pred_tokens target_tokens : list string) (r c : nat)
  : nat :=
  lcs_rec (rev (firstn r target_tokens)) (rev (firstn c pred_tokens)).

(** The loop invariant of [_lcs]: the table has its dimensions, and row 0,
    column 0 and the cells before [(i, j)], row by row, hold their final
    value. *)
Definition table_filled (pred_tokens target_tokens : list string)
  (LCS : list (list Z)) (i j : nat) : Prop :=
  List.length LCS = (List.length target_tokens + 1)%nat /\
  (forall r, (r <= List.length target_tokens)%nat ->
             List.length (nth r LCS []) = (List.length pred_tokens + 1)%nat) /\
  forall r c,
    (r <= List.length target_tokens)%nat ->
    (c <= List.length pred_tokens)%nat ->
    r = 0%nat \/ c = 0%nat \/ (r < i)%nat \/ (r = i /\ (c < j)%nat) ->
    table_get LCS r c = Z.of_nat (table_entry pred_tokens target_tokens r c).

(** The windows [_create_ngrams] visits, in order:
    [tuple(tokens[i : i + n]) for i in range(len(tokens) - n + 1)]. *)
Definition windows (tokens : list string) (n : Z) : list (list string) :=
  map (fun i => py_slice tokens i (i + n))
    (range (Z.of_nat (List.length tokens) - n + 1)).

(** The contiguous runs of [n] tokens, from left to right. *)
Definition ngrams_of (tokens : list string) (n : nat) : list (list string) :=
  map (fun i => firstn n (skipn i tokens))
    (seq 0 (List.length tokens + 1 - n)).

(** The overlap count of [_rouge_n_score] (line 143). *)
Definition ngram_hits (pred_ngrams target_ngrams : Counter) : Z :=
  Zsum (map (fun w => Z.min (counter_get pred_ngrams w)
                            (counter_get target_ngrams w))
          (dict_keys pred_ngrams)).

(** Every character is in [[a-z0-9]]. *)
Fixpoint all_alnum (s : string) : bool :=
  match s with
  | EmptyString => true
  | String c s' => is_alnum c && all_alnum s'
  end.

(** A token: a non-empty string of lowercase letters and digits. *)
Definition is_token (s : string) : Prop :=
  s <> EmptyString /\ all_alnum s = true.

(** The maximal runs of characters of [[a-z0-9]] in [s], from left to right;
    [cur] is the run being read. *)
Fixpoint alnum_runs (cur : string) (s : string) : list string :=
  match s with
  | EmptyString =>
      match cur with EmptyString => [] | String _ _ => [cur] end
  | String c s' =>
      if is_alnum c then alnum_runs (cur ++ String c EmptyString)%string s'
      else
        match cur with
        | EmptyString => alnum_runs EmptyString s'
        | String _ _ => cur :: alnum_runs EmptyString s'
        end
  end.

(** What the stemmer option does to one token (line 111). *)
Definition stem_long (stemmer : option (string -> string)) (x : string)
  : string :=
  match stemmer with
  | Some stem => if (3 <? String.length x)%nat then stem x else x
  | None => x
  end.

(** No character of [s] is in [[a-z0-9]]. *)
Fixpoint no_alnum (s : string) : bool :=
  match s with
  | EmptyString => true
  | String c s' => negb (is_alnum c) && no_alnum s'
  end.

(** The three fields, in the order [rouge_score] prepares them (line 375). *)
Definition FIELDS : list string := ["fmeasure"; "precision"; "recall"].

(** The (output key, value) pairs that lines 378-381 append, in order. *)
Definition output_items (sentence_results : Results)
  : list (string * Tensor) :=
  flat_map (fun km =>
    flat_map (fun metric =>
                map (fun tv => (output_key (fst km) (fst tv), snd tv)) metric)
      (snd km))
    sentence_results.

(** The values of one field over a list of scores; a score without the
    field contributes nothing. *)
Definition field_values (type : string) (metrics : list Score) : list Tensor :=
  flat_map (fun m => match dict_get m type with
                     | Some x => [x]
                     | None => []
                     end) metrics.

(** A list of strings has no repetition. *)
Fixpoint nodupb (l : list string) : bool :=
  match l with
  | [] => true
  | x :: l' => negb (existsb (String.eqb x) l') && nodupb l'
  end.

(** The example has at least one reference. *)
Definition has_reference (example : string * list string) : bool :=
  match snd example with
  | [] => false
  | _ :: _ => true
  end.

(** A stand-in for [nltk] on single-sentence texts: every text is one
    sentence and stemming changes nothing. *)
Definition plain_nltk : NLTK :=
  {| sent_tokenize := fun x => [x]; porter_stem := fun x => x |}.

(** * Properties *)

(** ** Key equality is sound *)

Lemma keqb_spec {K} `{EqKeyLaws K} (a b : K) : reflect (a = b) (keqb a b).
Proof. apply iff_reflect. symmetry. apply keqb_eq. Qed.

#[export] Instance EqKeyLaws_string : EqKeyLaws string.
Proof. exact String.eqb_eq. Qed.

#[export] Instance EqKeyLaws_Z : EqKeyLaws Z.
Proof. exact Z.eqb_eq. Qed.

#[export] Instance EqKeyLaws_list {A} `{EqKeyLaws A} : EqKeyLaws (list A).
Proof.
  intros l1; induction l1 as [|a l1 IH]; intros [|b l2]; simpl;
    try (split; congruence).
  rewrite andb_true_iff, keqb_eq, (IH l2). split.
  - intros [-> ->]; reflexivity.
  - intros E; injection E; auto.
Qed.

#[export] Instance EqKeyLaws_RougeKey : EqKeyLaws RougeKey.
Proof.
  intros [n|s] [m|t]; simpl; try (split; congruence).
  - rewrite Z.eqb_eq. split; congruence.
  - rewrite String.eqb_eq. split; congruence.
Qed.

Lemma keqb_refl {K} `{EqKeyLaws K} (k : K) : keqb k k = true.
Proof. destruct (keqb_spec k k); congruence. Qed.

Lemma keqb_neq {K} `{EqKeyLaws K} (a b : K) : a <> b -> keqb a b = false.
Proof. destruct (keqb_spec a b); congruence. Qed.

(** ** The monad *)

Lemma bind_ret_l {A B} (a : A) (f : A -> M B) : bind (ret a) f = f a.
Proof. unfold bind, ret. destruct (f a). reflexivity. Qed.


Lemma value_bind {A B} (m : M A) (f : A -> M B) :
  value (bind m f) =
  match value m with Ok a => value (f a) | Raise e => Raise e end.
Proof.
  destruct m as [[a|e] t]; simpl; [destruct (f a)|]; reflexivity.
Qed.

Lemma value_bind_ok {A B} (m : M A) (f : A -> M B) (a : A) :
  value m = Ok a -> value (bind m f) = value (f a).
Proof. intros E. rewrite value_bind, E. reflexivity. Qed.


Lemma foldM_ext {S X} (f g : S -> X -> M S) (l : list X) (s : S) :
  (forall s x, In x l -> f s x = g s x) -> foldM f l s = foldM g l s.
Proof.
  revert s; induction l as [|x l IH]; intros s Hfg; simpl; [reflexivity|].
  rewrite (Hfg s x) by (left; reflexivity).
  destruct (g s x) as [[s'|e] t]; simpl; [|reflexivity].
  rewrite IH; [reflexivity|]. intros; apply Hfg; right; assumption.
Qed.


(** ** Dictionaries *)

Section DictFacts.
Context {K V : Type} `{EqKeyLaws K}.
Implicit Types (d : dict K V) (k : K) (v : V).

Lemma dict_get_set_same d k v : dict_get (dict_set d k v) k = Some v.
Proof.
  induction d as [|[k' v'] d IH]; simpl.
  - rewrite keqb_refl; reflexivity.
  - destruct (keqb k' k) eqn:E; simpl; rewrite E; auto.
Qed.

Lemma dict_get_set_other d k k' v :
  k <> k' -> dict_get (dict_set d k v) k' = dict_get d k'.
Proof.
  intros Hne. induction d as [|[k0 v0] d IH]; simpl.
  - rewrite keqb_neq by assumption; reflexivity.
  - destruct (keqb_spec k0 k) as [->|Hk]; simpl.
    + rewrite keqb_neq by assumption; reflexivity.
    + destruct (keqb k0 k'); auto.
Qed.

Lemma dict_get_set d k k' v :
  dict_get (dict_set d k v) k' =
  if keqb k k' then Some v else dict_get d k'.
Proof.
  destruct (keqb_spec k k') as [->|Hne].
  - apply dict_get_set_same.
  - apply dict_get_set_other; assumption.
Qed.

Lemma dict_keys_set_present d k v :
  dict_get d k <> None -> dict_keys (dict_set d k v) = dict_keys d.
Proof.
  induction d as [|[k0 v0] d IH]; simpl; [congruence|].
  destruct (keqb k0 k); intros Hg; [reflexivity|].
  unfold dict_keys in *; simpl. f_equal. apply IH, Hg.
Qed.

Lemma dict_keys_set_absent d k v :
  dict_get d k = None -> dict_keys (dict_set d k v) = dict_keys d ++ [k].
Proof.
  induction d as [|[k0 v0] d IH]; simpl; [reflexivity|].
  destruct (keqb k0 k); intros Hg; [discriminate|].
  unfold dict_keys in *; simpl. f_equal. apply IH, Hg.
Qed.

Lemma dict_get_None_keys d k : dict_get d k = None <-> ~ In k (dict_keys d).
Proof.
  induction d as [|[k0 v0] d IH]; simpl; [tauto|].
  destruct (keqb_spec k0 k) as [->|Hne].
  - split; [discriminate|]. intros Hn; exfalso; apply Hn; left; reflexivity.
  - rewrite IH. tauto.
Qed.

Lemma dict_keys_set_NoDup d k v :
  NoDup (dict_keys d) -> NoDup (dict_keys (dict_set d k v)).
Proof.
  intros Hnd. destruct (dict_get d k) eqn:E.
  - rewrite dict_keys_set_present by congruence. assumption.
  - rewrite dict_keys_set_absent by assumption.
    apply NoDup_app_remove_l with (l := []); simpl.
    apply dict_get_None_keys in E.
    clear -Hnd E. induction (dict_keys d) as [|a l IH]; simpl.
    + constructor; [tauto|constructor].
    + inversion Hnd; subst. constructor.
      * rewrite in_app_iff; simpl. intros [Hin|[->|[]]]; [tauto|].
        apply E; left; reflexivity.
      * apply IH; [assumption|]. intros Hin; apply E; right; assumption.
Qed.

(** [{k: v0 for k in keys}] holds [v0] exactly at [keys]. *)
Lemma dict_get_fold_set (g : K -> V) (keys : list K) d k :
  dict_get (fold_left (fun d k => dict_set d k (g k)) keys d) k =
  if key_in k keys then Some (g k) else dict_get d k.
Proof.
  revert d; induction keys as [|k0 keys IH]; intros d; simpl; [reflexivity|].
  rewrite IH. unfold key_in in *; simpl.
  destruct (existsb (keqb k) keys) eqn:E.
  - rewrite orb_true_r; reflexivity.
  - rewrite orb_false_r, dict_get_set.
    destruct (keqb_spec k0 k) as [->|Hne].
    + rewrite keqb_refl; reflexivity.
    + rewrite keqb_neq by congruence; reflexivity.
Qed.

Lemma dict_keys_fold_set_NoDup (g : K -> V) (keys : list K) d :
  NoDup (dict_keys d) ->
  NoDup (dict_keys (fold_left (fun d k => dict_set d k (g k)) keys d)).
Proof.
  revert d; induction keys as [|k0 keys IH]; intros d Hd; simpl; auto.
  apply IH, dict_keys_set_NoDup, Hd.
Qed.


End DictFacts.

Lemma dict_get_fold_items {K V W} `{EqKeyLaws K} (h : V -> W) (d : dict K V) :
  NoDup (dict_keys d) ->
  forall (r0 : dict K W) (k : K),
    dict_get (fold_left (fun r kv => dict_set r (fst kv) (h (snd kv))) d r0) k =
    match dict_get d k with
    | Some v => Some (h v)
    | None => dict_get r0 k
    end.
Proof.
  induction d as [|[k0 v0] d IH]; intros Hnd r0 k; [reflexivity|].
  inversion Hnd as [|? ? Hnotin Hnd']; subst.
  cbn [fold_left fst snd dict_get]. rewrite (IH Hnd').
  destruct (keqb_spec k0 k) as [->|Hne].
  - apply dict_get_None_keys in Hnotin. rewrite Hnotin.
    apply dict_get_set_same.
  - rewrite dict_get_set_other by assumption. reflexivity.
Qed.

Lemma key_in_In {K} `{EqKeyLaws K} (k : K) (l : list K) :
  key_in k l = true <-> In k l.
Proof.
  unfold key_in. rewrite existsb_exists. split.
  - intros [x [Hin E]]. destruct (keqb_spec k x); congruence.
  - intros Hin. exists k; split; [assumption|apply keqb_refl].
Qed.

(** ** Metric derivation *)

Lemma inject_Z_pos (z : Z) : (1 <= z)%Z -> (0 < inject_Z z)%Q.
Proof. intros Hz. change 0%Q with (inject_Z 0). rewrite <- Zlt_Qlt. lia. Qed.

Lemma inject_Z_nonneg (z : Z) : (0 <= z)%Z -> (0 <= inject_Z z)%Q.
Proof. intros Hz. change 0%Q with (inject_Z 0). rewrite <- Zle_Qle. lia. Qed.

(** Without rounding, [_compute_metrics] is the formula of its body. *)
Lemma compute_metrics_exact (hits_or_lcs pred_len target_len : Z) :
  _compute_metrics (ar := exact_arith) hits_or_lcs pred_len target_len =
  if (pred_len =? 0) || (target_len =? 0) then raise ZeroDivisionError
  else
    let precision := (inject_Z hits_or_lcs / inject_Z pred_len)%Q in
    let recall := (inject_Z hits_or_lcs / inject_Z target_len)%Q in
    if Qeq_bool precision recall && Qeq_bool recall 0 then ret zero_score
    else if Qeq_bool (precision + recall) 0 then raise ZeroDivisionError
    else
      let fmeasure := (2 * precision * recall / (precision + recall))%Q in
      ret (mk_score precision recall fmeasure).
Proof.
  unfold _compute_metrics, int_truediv, float_truediv, float_mul, float_add.
  cbn [double double_overflow single exact_arith].
  destruct (pred_len =? 0); [reflexivity|].
  destruct (target_len =? 0); [reflexivity|].
  cbn [orb]. rewrite !bind_ret_l.
  destruct (Qeq_bool _ _ && Qeq_bool _ 0); [reflexivity|].
  destruct (Qeq_bool (_ + _) 0); reflexivity.
Qed.

(** Without rounding, [_compute_metrics] returns whenever both lengths are
    positive, and its three fields obey the harmonic-mean law. *)
Lemma compute_metrics_returns (count pred_len target_len : Z) :
  (1 <= pred_len)%Z -> (1 <= target_len)%Z ->
  exists p r f : Q,
    _compute_metrics count pred_len target_len = ret (mk_score p r f) /\
    (p == inject_Z count / inject_Z pred_len)%Q /\
    (r == inject_Z count / inject_Z target_len)%Q /\
    ((p == 0 /\ r == 0)%Q -> f = 0%Q) /\
    (~ (p == 0 /\ r == 0)%Q -> (f == 2 * p * r / (p + r))%Q) /\
    ((0 <= count)%Z -> (0 <= f)%Q /\ (f <= Qmax p r)%Q).
Proof.
  intros Hp Ht. rewrite compute_metrics_exact.
  replace (pred_len =? 0)%Z with false by (symmetry; apply Z.eqb_neq; lia).
  replace (target_len =? 0)%Z with false by (symmetry; apply Z.eqb_neq; lia).
  cbn [orb].
  pose proof (inject_Z_pos _ Hp) as Ha. pose proof (inject_Z_pos _ Ht) as Hb.
  set (a := inject_Z pred_len) in *. set (b := inject_Z target_len) in *.
  set (x := inject_Z count).
  assert (Hpa : (x / a * a == x)%Q) by (field; lra).
  assert (Hrb : (x / b * b == x)%Q) by (field; lra).
  set (p := (x / a)%Q) in *. set (r := (x / b)%Q) in *.
  destruct (Qeq_bool p r && Qeq_bool r 0) eqn:Ez.
  - apply andb_true_iff in Ez as [Epr Er0].
    apply Qeq_bool_iff in Epr, Er0.
    exists 0%Q, 0%Q, 0%Q.
    refine (conj eq_refl (conj _ (conj _ (conj _ (conj _ _))))).
    + fold p. lra.
    + fold r. lra.
    + reflexivity.
    + intros H0. exfalso; apply H0; split; reflexivity.
    + intros _. split; [lra|]. apply Q.max_le_iff; left; lra.
  - assert (Hnz : ~ (p == 0 /\ r == 0)%Q).
    { intros [Hp0 Hr0]. apply andb_false_iff in Ez as [E|E];
        apply Qeq_bool_neq in E; apply E; lra. }
    assert (Hsum : ~ (p + r == 0)%Q).
    { intros Hs. apply Hnz.
      assert (Hr0 : (r == 0)%Q) by nra. split; lra. }
    destruct (Qeq_bool (p + r) 0) eqn:Es.
    { apply Qeq_bool_iff in Es. contradiction. }
    exists p, r, (2 * p * r / (p + r))%Q.
    refine (conj eq_refl (conj _ (conj _ (conj _ (conj _ _)))));
      try reflexivity; try tauto.
    intros Hc. pose proof (inject_Z_nonneg _ Hc) as Hx. fold x in Hx.
    assert (H0p : (0 <= p)%Q) by nra. assert (H0r : (0 <= r)%Q) by nra.
    assert (Hpos : (0 < p + r)%Q) by lra.
    split.
    + apply Qle_shift_div_l; [assumption|nra].
    + apply Qle_shift_div_r; [assumption|].
      destruct (Q.max_spec p r) as [[Hlt ->]|[Hle ->]]; nra.
Qed.

(** Exact arithmetic has the two properties asked of an arithmetic. *)
#[export] Instance exact_laws : ArithLaws exact_arith.
Proof.
  split; cbn [double double_overflow exact_arith].
  - reflexivity.
  - intros x y Hx Hy Hn Hs. apply Hn. split; lra.
Qed.

(** ** The arithmetic of the program *)

Lemma rint_floor (x : Q) : (Qfloor x <= rint x)%Z.
Proof.
  unfold rint. destruct (_ ?= _)%Q; [destruct (Z.even _)| |]; lia.
Qed.

Lemma rint_nonneg (x : Q) : (0 <= x)%Q -> (0 <= rint x)%Z.
Proof.
  intros Hx. pose proof (rint_floor x).
  pose proof (Qfloor_resp_le 0 x Hx) as H0. change (Qfloor 0) with 0%Z in H0. lia.
Qed.

Lemma rint_pos (x : Q) : (1 <= x)%Q -> (1 <= rint x)%Z.
Proof.
  intros Hx. pose proof (rint_floor x).
  pose proof (Qfloor_resp_le 1 x Hx) as H1. change (Qfloor 1) with 1%Z in H1. lia.
Qed.

Lemma Qlog2_le (x : Q) : (0 < x)%Q -> (2 ^ Qlog2 x <= x)%Q.
Proof.
  intros Hx. unfold Qlog2.
  set (a := Z.log2 (Qnum x)). set (b := Z.log2 (Zpos (Qden x))).
  destruct (Qle_bool (2 ^ (a - b)) x) eqn:E; [apply Qle_bool_iff, E|].
  clear E. destruct x as [n d]. cbn [Qnum Qden] in *.
  assert (Hn : (0 < n)%Z) by (unfold Qlt in Hx; simpl in Hx; lia).
  destruct (Z.log2_spec n Hn) as [Ha _]. fold a in Ha.
  destruct (Z.log2_spec (Zpos d) (Pos2Z.is_pos d)) as [_ Hb]. fold b in Hb.
  assert (Ha0 : (0 <= a)%Z) by apply Z.log2_nonneg.
  assert (Hb0 : (0 <= b)%Z) by apply Z.log2_nonneg.
  replace (a - b - 1)%Z with (a - (b + 1))%Z by lia.
  rewrite (Qpower_minus_pos 2 1 a (b + 1)), Qinv_power_n.
  change (Z.pos 2 # 1)%Q with (inject_Z 2).
  rewrite <- !Zpower_Qpower by lia.
  rewrite (Qmake_Qdiv n d).
  assert (HB : (0 < inject_Z (2 ^ Z.succ b))%Q).
  { change 0%Q with (inject_Z 0). rewrite <- Zlt_Qlt. lia. }
  assert (HD : (0 < inject_Z (Zpos d))%Q).
  { change 0%Q with (inject_Z 0). rewrite <- Zlt_Qlt. lia. }
  replace (b + 1)%Z with (Z.succ b) by lia.
  apply Qle_shift_div_l; [exact HD|].
  setoid_replace (inject_Z (2 ^ a) * / inject_Z (2 ^ Z.succ b) * inject_Z (Zpos d))%Q
    with (inject_Z (2 ^ a) * inject_Z (Zpos d) / inject_Z (2 ^ Z.succ b))%Q
    by (field; lra).
  apply Qle_shift_div_r; [exact HB|].
  rewrite <- !inject_Z_mult, <- Zle_Qle. nia.
Qed.

Section RoundFloat.
Variables prec emin : Z.
Hypothesis prec_pos : (1 <= prec)%Z.

Lemma round_float_nonneg (x : Q) : (0 <= x)%Q -> (0 <= round_float prec emin x)%Q.
Proof.
  intros Hx. unfold round_float. destruct (Qeq_bool x 0); [lra|].
  set (e := Z.max _ emin).
  assert (He : (0 < 2 ^ e)%Q) by (apply Qpower_0_lt; reflexivity).
  apply Qmult_le_0_compat; [|lra].
  apply inject_Z_nonneg, rint_nonneg. apply Qle_shift_div_l; lra.
Qed.

(** A float that is not zero is at least the least positive float. *)
Lemma round_float_least (x : Q) :
  (0 <= x)%Q -> ~ (round_float prec emin x == 0)%Q ->
  (2 ^ emin <= round_float prec emin x)%Q.
Proof.
  intros Hx. unfold round_float. destruct (Qeq_bool x 0); [intros H; exfalso; apply H; reflexivity|].
  set (e := Z.max _ emin). intros Hn.
  assert (He : (0 < 2 ^ e)%Q) by (apply Qpower_0_lt; reflexivity).
  assert (Hm : (0 <= rint (x / 2 ^ e))%Z).
  { apply rint_nonneg. apply Qle_shift_div_l; lra. }
  assert (Hm1 : (1 <= rint (x / 2 ^ e))%Z).
  { destruct (Z.eq_dec (rint (x / 2 ^ e)) 0) as [E|E]; [|lia].
    exfalso. apply Hn. rewrite E. change (inject_Z 0) with 0%Q. lra. }
  assert (Hq : (1 <= inject_Z (rint (x / 2 ^ e)))%Q).
  { change 1%Q with (inject_Z 1). rewrite <- Zle_Qle. exact Hm1. }
  assert (Hee : (2 ^ emin <= 2 ^ e)%Q).
  { apply Qpower_le_compat_l; [unfold e; lia|discriminate]. }
  nra.
Qed.

(** A number that is at least the least positive float is not rounded to
    zero. *)
Lemma round_float_pos (x : Q) :
  (2 ^ emin <= x)%Q -> (0 < round_float prec emin x)%Q.
Proof.
  intros Hx.
  assert (Hmin : (0 < 2 ^ emin)%Q) by (apply Qpower_0_lt; reflexivity).
  assert (Hx0 : (0 < x)%Q) by lra.
  unfold round_float.
  replace (Qeq_bool x 0) with false
    by (symmetry; apply not_true_iff_false; rewrite Qeq_bool_iff; lra).
  assert (Eabs : Qabs x = x).
  { destruct x as [n d]. unfold Qabs. f_equal. apply Z.abs_eq.
    unfold Qlt in Hx0. simpl in Hx0. lia. }
  rewrite Eabs. set (e := Z.max _ emin).
  assert (He : (0 < 2 ^ e)%Q) by (apply Qpower_0_lt; reflexivity).
  assert (Hex : (2 ^ e <= x)%Q).
  { unfold e. destruct (Z.max_spec (Qlog2 x - prec + 1) emin) as [[_ ->]|[_ ->]];
      [exact Hx|].
    apply Qle_trans with (2 ^ Qlog2 x)%Q; [|apply Qlog2_le, Hx0].
    apply Qpower_le_compat_l; [lia|discriminate]. }
  assert (Hm1 : (1 <= rint (x / 2 ^ e))%Z).
  { apply rint_pos. apply Qle_shift_div_l; lra. }
  assert (Hq : (1 <= inject_Z (rint (x / 2 ^ e)))%Q).
  { change 1%Q with (inject_Z 1). rewrite <- Zle_Qle. exact Hm1. }
  nra.
Qed.
End RoundFloat.

(** The arithmetic of the program has the two properties asked of an
    arithmetic. *)
#[export] Instance ieee_laws : ArithLaws ieee_arith.
Proof.
  split; cbn [double double_overflow ieee_arith].
  - intros q H0 H1. apply not_true_iff_false. rewrite Qle_bool_iff.
    rewrite Qabs_pos by exact H0. apply Qlt_not_le.
    apply Qle_lt_trans with 1%Q; [exact H1|]. reflexivity.
  - intros x y Hx Hy Hn.
    pose proof (round_float_nonneg 53 (-1074) x Hx) as Hdx.
    pose proof (round_float_nonneg 53 (-1074) y Hy) as Hdy.
    assert (Hmin : (0 < 2 ^ (-1074))%Q) by (apply Qpower_0_lt; reflexivity).
    assert (Hs : (2 ^ (-1074) <= round_float 53 (-1074) x + round_float 53 (-1074) y)%Q).
    { destruct (Qeq_dec (round_float 53 (-1074) x) 0) as [Ex|Ex].
      - destruct (Qeq_dec (round_float 53 (-1074) y) 0) as [Ey|Ey]; [tauto|].
        pose proof (round_float_least 53 (-1074) y Hy Ey). lra.
      - pose proof (round_float_least 53 (-1074) x Hx Ex). lra. }
    pose proof (round_float_pos 53 (-1074) ltac:(lia) _ Hs). lra.
Qed.

(** In any arithmetic, [_compute_metrics] returns a score on the triples
    its callers pass: a count that is at most both lengths. *)
Lemma compute_metrics_score {ar : Arith} {arl : ArithLaws ar}
  (count pred_len target_len : Z) :
  (0 <= count)%Z -> (count <= pred_len)%Z -> (count <= target_len)%Z ->
  (1 <= pred_len)%Z -> (1 <= target_len)%Z ->
  exists p r f,
    _compute_metrics count pred_len target_len = ret (mk_score p r f).
Proof.
  intros H0 Hcp Hct Hp Ht. unfold _compute_metrics, int_truediv.
  replace (pred_len =? 0)%Z with false by (symmetry; apply Z.eqb_neq; lia).
  replace (target_len =? 0)%Z with false by (symmetry; apply Z.eqb_neq; lia).
  pose proof (inject_Z_pos _ Hp) as Ha. pose proof (inject_Z_pos _ Ht) as Hb.
  pose proof (inject_Z_nonneg _ H0) as Hc.
  assert (Hca : (inject_Z count <= inject_Z pred_len)%Q)
    by (rewrite <- Zle_Qle; assumption).
  assert (Hcb : (inject_Z count <= inject_Z target_len)%Q)
    by (rewrite <- Zle_Qle; assumption).
  set (x := (inject_Z count / inject_Z pred_len)%Q).
  set (y := (inject_Z count / inject_Z target_len)%Q).
  assert (Hx : (0 <= x <= 1)%Q).
  { unfold x. split; [apply Qle_shift_div_l; lra|apply Qle_shift_div_r; lra]. }
  assert (Hy : (0 <= y <= 1)%Q).
  { unfold y. split; [apply Qle_shift_div_l; lra|apply Qle_shift_div_r; lra]. }
  rewrite (double_unit_fits x), (double_unit_fits y) by tauto.
  rewrite !bind_ret_l.
  destruct (Qeq_bool (double x) (double y) && Qeq_bool (double y) 0) eqn:Ez.
  - exists 0%Q, 0%Q, 0%Q. reflexivity.
  - assert (Hs : ~ (double (double x + double y) == 0)%Q).
    { apply double_sum_nonzero; try tauto. intros [Ex Ey].
      apply andb_false_iff in Ez as [E|E]; apply Qeq_bool_neq in E; apply E;
        [rewrite Ex, Ey; reflexivity|exact Ey]. }
    unfold float_truediv, float_add.
    replace (Qeq_bool (double (double x + double y)) 0) with false
      by (symmetry; apply not_true_iff_false; rewrite Qeq_bool_iff; exact Hs).
    rewrite bind_ret_l. eexists _, _, _. reflexivity.
Qed.




(** Beyond these triples the floats of the program can overflow: a
    quotient too large for a float raises [OverflowError]. *)
Example compute_metrics_overflow :
  _compute_metrics (ar := ieee_arith) (10 ^ 400) 1 1 = raise OverflowError.
Proof. vm_compute. reflexivity. Qed.

(** ** The scorers on short inputs *)

Lemma create_ngrams_short (tokens : list string) (n : Z) :
  (Z.of_nat (List.length tokens) < n)%Z -> _create_ngrams tokens n = [].
Proof.
  intros Hn. unfold _create_ngrams, range.
  replace (Z.to_nat (Z.of_nat (List.length tokens) - n + 1)) with 0%nat by lia.
  reflexivity.
Qed.

(** C5.  If either token sequence is shorter than the window size [n],
    or if either is empty and [n >= 1], [_rouge_n_score] returns the
    all-zero score; if either sequence is empty, [_rouge_l_score] returns the
    all-zero score. *)
Theorem zero_length_invariant (pred target : list string) (n : Z) :
  ((Z.of_nat (List.length pred) < n)%Z \/
   (Z.of_nat (List.length target) < n)%Z ->
   _rouge_n_score pred target n = ret zero_score) /\
  ((1 <= n)%Z -> pred = [] \/ target = [] ->
   _rouge_n_score pred target n = ret zero_score) /\
  (pred = [] \/ target = [] -> _rouge_l_score pred target = ret zero_score).
Proof.
  assert (Hshort : (Z.of_nat (List.length pred) < n)%Z \/
                   (Z.of_nat (List.length target) < n)%Z ->
                   _rouge_n_score pred target n = ret zero_score).
  { unfold _rouge_n_score. intros [H|H].
    - rewrite (create_ngrams_short pred n H). reflexivity.
    - rewrite (create_ngrams_short target n H). simpl.
      rewrite orb_true_r. reflexivity. }
  split; [exact Hshort|]. split.
  - intros Hn [-> | ->]; apply Hshort; simpl; [left|right]; lia.
  - intros [-> | ->]; unfold _rouge_l_score; simpl; [reflexivity|].
    rewrite orb_true_r. reflexivity.
Qed.

Lemma zero_length_invariant_witness :
  _rouge_n_score ["a"] ["a"; "b"] 2 = ret zero_score /\
  _rouge_n_score ["a"] [] 1 = ret zero_score /\
  _rouge_l_score [] ["a"; "b"] = ret zero_score.
Proof.
  split; [|split].
  - apply (proj1 (zero_length_invariant ["a"] ["a"; "b"] 2)).
    left. simpl. lia.
  - apply (proj1 (proj2 (zero_length_invariant ["a"] [] 1))); [lia|].
    right. reflexivity.
  - apply (proj2 (proj2 (zero_length_invariant [] ["a"; "b"] 2))).
    left. reflexivity.
Defined.

(** A window of size 0 is not a ROUGE-N window: the empty sequence then
    has one (empty) n-gram and scores 1 against itself. *)
Example window_size_zero :
  _rouge_n_score [] [] 0 = ret (mk_score 1 1 (2 # 2)).
Proof. reflexivity. Qed.

(** ** Validation at the entry point *)

Lemma get_stemmer_cases (nltk : option NLTK) (use_stemmer : bool) :
  get_stemmer nltk use_stemmer =
  match nltk, use_stemmer with
  | None, true => raise stemmer_error
  | Some lib, true => ret (Some (porter_stem lib))
  | _, false => ret None
  end.
Proof. destruct nltk, use_stemmer; reflexivity. Qed.

Lemma validate_keys_find (keys : list string) :
  foldM (fun _ key =>
           if negb (dict_mem ALLOWED_ROUGE_KEYS key)
           then raise (unknown_key_error key) else ret tt) keys tt =
  match find (fun key => negb (dict_mem ALLOWED_ROUGE_KEYS key)) keys with
  | Some key => raise (unknown_key_error key)
  | None => ret tt
  end.
Proof.
  induction keys as [|key keys IH]; cbn [foldM find]; [reflexivity|].
  destruct (negb (dict_mem ALLOWED_ROUGE_KEYS key)); [reflexivity|].
  rewrite bind_ret_l. exact IH.
Qed.

Lemma allowed_values_map (keys : list string) :
  find (fun key => negb (dict_mem ALLOWED_ROUGE_KEYS key)) keys = None ->
  mapM (dict_item ALLOWED_ROUGE_KEYS) keys = ret (map allowed_value keys).
Proof.
  induction keys as [|key keys IH]; cbn [mapM find map]; [reflexivity|].
  unfold dict_mem at 1, dict_item at 1, allowed_value at 1.
  destruct (dict_get ALLOWED_ROUGE_KEYS key) as [v|]; cbn [negb];
    [|discriminate].
  intros Hf. rewrite bind_ret_l, (IH Hf), !bind_ret_l. reflexivity.
Qed.

Lemma get_rouge_keys_values_cases (rouge_keys : RougeKeys) :
  get_rouge_keys_values rouge_keys =
  match first_unknown_key rouge_keys with
  | Some key => raise (unknown_key_error key)
  | None => ret (map allowed_value (rouge_keys_tuple rouge_keys))
  end.
Proof.
  unfold get_rouge_keys_values, first_unknown_key.
  rewrite validate_keys_find.
  destruct (find _ (rouge_keys_tuple rouge_keys)) eqn:Ef; [reflexivity|].
  rewrite bind_ret_l. apply allowed_values_map, Ef.
Qed.

Lemma first_unknown_key_exists (rouge_keys : RougeKeys) :
  (exists key, In key (rouge_keys_tuple rouge_keys) /\
               dict_get ALLOWED_ROUGE_KEYS key = None) ->
  exists key, first_unknown_key rouge_keys = Some key /\
              In key (rouge_keys_tuple rouge_keys) /\
              dict_get ALLOWED_ROUGE_KEYS key = None.
Proof.
  intros [key [Hin Hk]]. unfold first_unknown_key.
  destruct (find _ (rouge_keys_tuple rouge_keys)) as [key'|] eqn:Ef.
  - exists key'. apply find_some in Ef as [Hin' Hk'].
    repeat split; try assumption.
    unfold dict_mem in Hk'.
    destruct (dict_get ALLOWED_ROUGE_KEYS key'); [discriminate|reflexivity].
  - exfalso. apply (find_none _ _ Ef) in Hin.
    unfold dict_mem in Hin. rewrite Hk in Hin. discriminate.
Qed.

(** The outcome of [rouge_score] when validation fails: nothing is scored. *)
Lemma rouge_score_invalid (nltk : option NLTK) (preds : Preds)
  (target : Target) (accumulate : string) (use_stemmer : bool)
  (rouge_keys : RougeKeys) (key : string) :
  first_unknown_key rouge_keys = Some key ->
  rouge_score nltk preds target accumulate use_stemmer rouge_keys =
  match nltk, use_stemmer with
  | None, true => raise stemmer_error
  | _, _ => raise (unknown_key_error key)
  end.
Proof.
  intros Hk. unfold rouge_score.
  rewrite get_stemmer_cases, get_rouge_keys_values_cases, Hk.
  destruct nltk, use_stemmer; reflexivity.
Qed.

(** C6, as amended.  When [rouge_keys] contains a key outside
    [{rouge1..rouge9, rougeL, rougeLsum}], [rouge_score] raises before any
    scoring and returns no output: a [ValueError] that names the first
    unknown key and lists the allowed set, unless stemming was requested
    while [nltk] is unavailable, in which case the [ModuleNotFoundError] of
    the stemmer check comes first. *)
Theorem unknown_key_rejected (nltk : option NLTK) (preds : Preds)
  (target : Target) (accumulate : string) (use_stemmer : bool)
  (rouge_keys : RougeKeys) :
  (exists key, In key (rouge_keys_tuple rouge_keys) /\
               dict_get ALLOWED_ROUGE_KEYS key = None) ->
  exists key,
    In key (rouge_keys_tuple rouge_keys) /\
    dict_get ALLOWED_ROUGE_KEYS key = None /\
    first_unknown_key rouge_keys = Some key /\
    rouge_score nltk preds target accumulate use_stemmer rouge_keys =
    match nltk, use_stemmer with
    | None, true =>
        (Raise (ModuleNotFoundError
           "Stemmer requires that `nltk` is installed. Use `pip install nltk`."),
         [])
    | _, _ =>
        (Raise (ValueError
           ("Got unknown rouge key " ++ key ++ ". Expected to be one of "
            ++ "['rouge1', 'rouge2', 'rouge3', 'rouge4', 'rouge5', 'rouge6', "
            ++ "'rouge7', 'rouge8', 'rouge9', 'rougeL', 'rougeLsum']")%string),
         [])
    end.
Proof.
  intros Hex. destruct (first_unknown_key_exists _ Hex) as [key [Hf [Hin Hk]]].
  exists key. repeat split; try assumption.
  rewrite (rouge_score_invalid _ _ _ _ _ _ _ Hf).
  destruct nltk, use_stemmer; reflexivity.
Qed.

Lemma unknown_key_rejected_witness :
  exists key,
    In key ["rouge10"] /\
    dict_get ALLOWED_ROUGE_KEYS key = None /\
    first_unknown_key (KeysTuple ["rouge10"]) = Some key /\
    rouge_score (Some plain_nltk) (PredStr "My name is John")
      (TargetStr "Is your name John") "best" false (KeysTuple ["rouge10"]) =
    (Raise (ValueError
       ("Got unknown rouge key " ++ key ++ ". Expected to be one of "
        ++ "['rouge1', 'rouge2', 'rouge3', 'rouge4', 'rouge5', 'rouge6', "
        ++ "'rouge7', 'rouge8', 'rouge9', 'rougeL', 'rougeLsum']")%string),
     []).
Proof.
  apply (unknown_key_rejected (Some plain_nltk) (PredStr "My name is John")
           (TargetStr "Is your name John") "best" false
           (KeysTuple ["rouge10"])).
  exists "rouge10". split; [left; reflexivity|reflexivity].
Defined.

(** C6 as stated fails when stemming is requested without [nltk]: the
    error raised for [rouge_keys = ("rouge10",)] is then the stemmer's
    [ModuleNotFoundError], which does not name the allowed keys. *)
Lemma unknown_key_after_stemmer_check :
  dict_get ALLOWED_ROUGE_KEYS "rouge10" = None /\
  rouge_score None (PredStr "My name is John") (TargetStr "Is your name John")
    "best" true (KeysTuple ["rouge10"]) =
  (Raise (ModuleNotFoundError
     "Stemmer requires that `nltk` is installed. Use `pip install nltk`."),
   []).
Proof. split; reflexivity. Qed.

(** ** Shapes and the examples visited *)

Lemma normalize_shape_lists (ps : list string) (gs : list (list string)) :
  normalize_shape (PredList ps) (TargetNested gs) = (ps, gs).
Proof. destruct gs; reflexivity. Qed.

Lemma rouge_score_shape (nltk : option NLTK) (preds preds' : Preds)
  (target target' : Target) (accumulate : string) (use_stemmer : bool)
  (rouge_keys : RougeKeys) :
  normalize_shape preds target = normalize_shape preds' target' ->
  rouge_score nltk preds target accumulate use_stemmer rouge_keys =
  rouge_score nltk preds' target' accumulate use_stemmer rouge_keys.
Proof. intros E. unfold rouge_score. rewrite E. reflexivity. Qed.

Lemma rouge_score_examples (nltk : option NLTK) (preds preds' : Preds)
  (target target' : Target) (accumulate : string) (use_stemmer : bool)
  (rouge_keys : RougeKeys) :
  examples preds target = examples preds' target' ->
  rouge_score nltk preds target accumulate use_stemmer rouge_keys =
  rouge_score nltk preds' target' accumulate use_stemmer rouge_keys.
Proof.
  unfold examples, rouge_score, _rouge_score_update.
  destruct (normalize_shape preds target) as [ps gs].
  destruct (normalize_shape preds' target') as [ps' gs'].
  intros ->. reflexivity.
Qed.

Lemma combine_truncate {A B} (l : list A) (l' : list B) :
  let m := Nat.min (List.length l) (List.length l') in
  combine (firstn m l) (firstn m l') = combine l l'.
Proof.
  intros m. rewrite <- combine_firstn. apply firstn_all2.
  rewrite length_combine. apply Nat.le_refl.
Qed.

(** C10.  At the entry of [rouge_score], a single prediction string with a
    list of target strings is one example whose references are the whole
    list; a list of predictions with a list of target strings pairs every
    prediction with the one-element reference group made of the target at the
    same position. *)
Theorem shape_normalization :
  (forall (p : string) (refs : list string),
      normalize_shape (PredStr p) (TargetList refs) = ([p], [refs]) /\
      examples (PredStr p) (TargetList refs) = [(p, refs)] /\
      forall nltk accumulate use_stemmer rouge_keys,
        rouge_score nltk (PredStr p) (TargetList refs)
          accumulate use_stemmer rouge_keys =
        rouge_score nltk (PredList [p]) (TargetNested [refs])
          accumulate use_stemmer rouge_keys) /\
  (forall (ps ts : list string),
      normalize_shape (PredList ps) (TargetList ts) =
        (ps, map (fun tgt => [tgt]) ts) /\
      (forall (i : nat) (p t : string),
          nth_error ps i = Some p -> nth_error ts i = Some t ->
          nth_error (examples (PredList ps) (TargetList ts)) i =
            Some (p, [t])) /\
      forall nltk accumulate use_stemmer rouge_keys,
        rouge_score nltk (PredList ps) (TargetList ts)
          accumulate use_stemmer rouge_keys =
        rouge_score nltk (PredList ps) (TargetNested (map (fun tgt => [tgt]) ts))
          accumulate use_stemmer rouge_keys).
Proof.
  split.
  - intros p refs. split; [reflexivity|split; [reflexivity|]].
    intros. apply rouge_score_shape. reflexivity.
  - intros ps ts. split; [reflexivity|]. split.
    + unfold examples. cbn [normalize_shape is_list_of_str preds_is_str target_items].
      revert ts; induction ps as [|p0 ps IH]; intros ts [|i] p t Hp Ht;
        destruct ts as [|t0 ts]; simpl in *; try discriminate.
      * congruence.
      * apply IH; assumption.
    + intros. apply rouge_score_shape.
      rewrite normalize_shape_lists. reflexivity.
Qed.

(** C8, as amended.  A difference between the number of predictions and
    the number of reference groups raises no error: predictions and groups
    are paired by position up to the shorter of the two lengths, the surplus
    is ignored, and the result is that of the truncated batch. *)
Theorem count_mismatch_truncates (nltk : option NLTK) (preds : Preds)
  (target : Target) (accumulate : string) (use_stemmer : bool)
  (rouge_keys : RougeKeys) :
  let ps := fst (normalize_shape preds target) in
  let gs := snd (normalize_shape preds target) in
  let m := Nat.min (List.length ps) (List.length gs) in
  examples preds target = combine (firstn m ps) (firstn m gs) /\
  List.length (examples preds target) = m /\
  rouge_score nltk preds target accumulate use_stemmer rouge_keys =
  rouge_score nltk (PredList (firstn m ps)) (TargetNested (firstn m gs))
    accumulate use_stemmer rouge_keys.
Proof.
  intros ps gs m.
  assert (E : examples preds target = combine ps gs).
  { unfold examples, ps, gs. destruct (normalize_shape preds target); reflexivity. }
  split; [|split].
  - rewrite E. symmetry. apply combine_truncate.
  - rewrite E. apply length_combine.
  - apply rouge_score_examples. rewrite E. unfold examples.
    rewrite normalize_shape_lists. symmetry. apply combine_truncate.
Qed.

(** C8 as stated fails: two predictions with a single reference group
    raise nothing; the second prediction is dropped and the scores of the
    first pair are returned. *)
Lemma count_mismatch_no_error :
  List.length (fst (normalize_shape (PredList ["a"; "b"]) (TargetNested [["a"]])))
    <> List.length (snd (normalize_shape (PredList ["a"; "b"]) (TargetNested [["a"]]))) /\
  rouge_score (Some plain_nltk) (PredList ["a"; "b"]) (TargetNested [["a"]])
    "best" false (KeysTuple ["rouge1"]) =
  (Ok [("rouge1_fmeasure", tensor (2 # 2)); ("rouge1_precision", tensor 1);
       ("rouge1_recall", tensor 1)],
   [Scored (KInt 1)]).
Proof. split; [simpl; lia|reflexivity]. Qed.

(** ** The empty batch *)

Lemma dict_fromkeys_In {K V} `{EqKeyLaws K} (keys : list K) (v0 : V) k v :
  In (k, v) (dict_fromkeys keys v0) -> v = v0.
Proof.
  unfold dict_fromkeys.
  assert (G : forall d, (forall k v, In (k, v) d -> v = v0) ->
            In (k, v) (fold_left (fun d k => dict_set d k v0) keys d) -> v = v0).
  { induction keys as [|k0 keys IH]; intros d Hd; simpl; [apply Hd|].
    apply IH. clear -Hd. induction d as [|[k1 v1] d IHd]; simpl.
    - intros k v [E|[]]. congruence.
    - intros k v. destruct (keqb k1 k0); simpl.
      + intros [E|Hin]; [congruence|]. apply (Hd k v). right; assumption.
      + intros [E|Hin]; [apply (Hd k v); left; assumption|].
        apply (IHd (fun k v Hin => Hd k v (or_intror Hin)) k v Hin). }
  apply G. intros ? ? [].
Qed.

Lemma update_no_example (nltk : option NLTK) (rouge_keys_values : list RougeKey)
  (accumulate : string) (stemmer : option (string -> string))
  (preds : list string) (target : list (list string)) :
  combine preds target = [] ->
  _rouge_score_update nltk rouge_keys_values accumulate stemmer preds target =
  ret (dict_fromkeys rouge_keys_values []).
Proof. intros E. unfold _rouge_score_update. rewrite E. reflexivity. Qed.

Lemma collect_output_no_metric (sentence_results : Results)
  (output : dict string (list Tensor)) :
  (forall k v, In (k, v) sentence_results -> v = []) ->
  collect_output sentence_results output = ret output.
Proof.
  unfold collect_output. revert output.
  induction sentence_results as [|[k v] sr IH]; intros output Hsr;
    cbn [foldM]; [reflexivity|].
  rewrite (Hsr k v) by (left; reflexivity). cbn [snd foldM].
  rewrite bind_ret_l. apply IH. intros; eapply Hsr; right; eassumption.
Qed.

(** With nothing to visit, [rouge_score] returns the means of the empty
    lists prepared for the requested keys. *)
Lemma rouge_score_no_example (nltk : option NLTK) (preds : Preds)
  (target : Target) (accumulate : string) (use_stemmer : bool)
  (rouge_keys : RougeKeys) :
  examples preds target = [] ->
  first_unknown_key rouge_keys = None ->
  use_stemmer = false \/ nltk <> None ->
  rouge_score nltk preds target accumulate use_stemmer rouge_keys =
  ret (_rouge_score_compute
         (init_output (map allowed_value (rouge_keys_tuple rouge_keys)))).
Proof.
  intros Hex Hk Hst. unfold rouge_score, examples in *.
  rewrite get_stemmer_cases, get_rouge_keys_values_cases, Hk.
  destruct (normalize_shape preds target) as [ps gs].
  assert (Hs : exists st, match nltk, use_stemmer with
                          | None, true => raise stemmer_error
                          | Some lib, true => ret (Some (porter_stem lib))
                          | _, false => ret None
                          end = ret st).
  { destruct nltk, use_stemmer; try (eexists; reflexivity).
    destruct Hst; congruence. }
  destruct Hs as [st ->]. rewrite !bind_ret_l.
  rewrite (update_no_example _ _ _ _ _ _ Hex), bind_ret_l.
  rewrite collect_output_no_metric, bind_ret_l; [reflexivity|].
  intros k v. apply dict_fromkeys_In.
Qed.

(** The first example cannot be prepared without [nltk]. *)
Lemma update_without_nltk (rouge_keys_values : list RougeKey)
  (accumulate : string) (stemmer : option (string -> string))
  (preds : list string) (target : list (list string)) :
  combine preds target <> [] ->
  _rouge_score_update None rouge_keys_values accumulate stemmer preds target =
  raise lsum_error.
Proof.
  unfold _rouge_score_update.
  destruct (combine preds target) as [|[pred_raw target_raw] rest];
    [congruence|reflexivity].
Qed.

Lemma rouge_score_without_nltk (preds : Preds) (target : Target)
  (accumulate : string) (use_stemmer : bool) (rouge_keys : RougeKeys) :
  examples preds target <> [] ->
  rouge_score None preds target accumulate use_stemmer rouge_keys =
  raise (if use_stemmer then stemmer_error
         else match first_unknown_key rouge_keys with
              | Some key => unknown_key_error key
              | None => lsum_error
              end).
Proof.
  intros Hex. unfold rouge_score, examples in *.
  rewrite get_stemmer_cases, get_rouge_keys_values_cases.
  destruct use_stemmer; [reflexivity|]. rewrite bind_ret_l.
  destruct (first_unknown_key rouge_keys); [reflexivity|]. rewrite bind_ret_l.
  destruct (normalize_shape preds target) as [ps gs].
  rewrite (update_without_nltk _ _ _ _ _ Hex). reflexivity.
Qed.

(** C7, as amended.  When the Lsum metric is requested while [nltk] is
    unavailable and the batch has at least one example, [rouge_score]
    raises before any score is computed and returns no output: the
    [ModuleNotFoundError] of the sentence splitter, unless the stemmer check
    or the key validation fails first.  On a batch without examples nothing
    is raised. *)
Theorem lsum_without_sentence_splitter (preds : Preds) (target : Target)
  (accumulate : string) (use_stemmer : bool) (rouge_keys : RougeKeys) :
  In "rougeLsum" (rouge_keys_tuple rouge_keys) ->
  (examples preds target <> [] ->
   rouge_score None preds target accumulate use_stemmer rouge_keys =
   (Raise (if use_stemmer then stemmer_error
           else match first_unknown_key rouge_keys with
                | Some key => unknown_key_error key
                | None =>
                    ModuleNotFoundError
                      "ROUGE-Lsum calculation requires that `nltk` is installed. Use `pip install nltk`."
                end),
    [])) /\
  (examples preds target = [] -> use_stemmer = false ->
   first_unknown_key rouge_keys = None ->
   exists out,
     rouge_score None preds target accumulate use_stemmer rouge_keys =
     (Ok out, [])).
Proof.
  intros _. split.
  - intros Hex. rewrite (rouge_score_without_nltk _ _ _ _ _ Hex). reflexivity.
  - intros Hex Hst Hk. eexists.
    rewrite (rouge_score_no_example None _ _ _ _ _ Hex Hk (or_introl Hst)).
    reflexivity.
Qed.

Lemma lsum_without_sentence_splitter_witness :
  rouge_score None (PredStr "My name is John") (TargetStr "Is your name John")
    "best" false (KeysTuple ["rouge1"; "rougeLsum"]) =
  (Raise (ModuleNotFoundError
            "ROUGE-Lsum calculation requires that `nltk` is installed. Use `pip install nltk`."),
   []) /\
  exists out,
    rouge_score None (PredList []) (TargetList []) "best" false
      (KeysTuple ["rouge1"; "rougeLsum"]) = (Ok out, []).
Proof.
  split.
  - apply (proj1 (lsum_without_sentence_splitter (PredStr "My name is John")
                    (TargetStr "Is your name John") "best" false
                    (KeysTuple ["rouge1"; "rougeLsum"])
                    (or_intror (or_introl eq_refl)))).
    discriminate.
  - apply (proj2 (lsum_without_sentence_splitter (PredList []) (TargetList [])
                    "best" false (KeysTuple ["rouge1"; "rougeLsum"])
                    (or_intror (or_introl eq_refl)))); reflexivity.
Defined.

(** C7 as stated fails on a batch without examples: Lsum is requested,
    [nltk] is unavailable, and no error is reported. *)
Lemma lsum_without_splitter_empty_batch :
  In "rougeLsum" (rouge_keys_tuple (KeysTuple ["rougeLsum"])) /\
  rouge_score None (PredList []) (TargetList []) "best" false
    (KeysTuple ["rougeLsum"]) =
  (Ok [("rougeLsum_fmeasure", nan); ("rougeLsum_precision", nan);
       ("rougeLsum_recall", nan)], []).
Proof. split; [left; reflexivity|reflexivity]. Qed.

(** The prediction is split into sentences whether or not Lsum is
    requested (line 218), while the references are split only when it is
    (line 223): without [nltk], ROUGE-1 alone cannot be computed. *)
Example pred_lsum_not_guarded :
  rouge_score None (PredStr "My name is John") (TargetStr "Is your name John")
    "best" false (KeysTuple ["rouge1"]) =
  (Raise lsum_error, []).
Proof. reflexivity. Qed.

(** On a batch without examples every requested output key is present and
    holds [nan]. *)
Lemma init_output_flat (rouge_keys_values : list RougeKey) :
  init_output rouge_keys_values =
  fold_left (fun output name => dict_set output name [])
    (flat_map (fun rouge_key =>
                 map (output_key rouge_key) ["fmeasure"; "precision"; "recall"])
       rouge_keys_values) [].
Proof.
  unfold init_output. generalize ([] : list (string * list Tensor)).
  induction rouge_keys_values as [|k keys IH]; intros d; [reflexivity|].
  cbn [fold_left flat_map map app]. apply IH.
Qed.

Lemma init_output_get (rouge_keys_values : list RougeKey) (rouge_key : RougeKey)
  (type : string) :
  In rouge_key rouge_keys_values ->
  In type ["fmeasure"; "precision"; "recall"] ->
  dict_get (init_output rouge_keys_values) (output_key rouge_key type) = Some [].
Proof.
  intros Hk Ht. rewrite init_output_flat.
  rewrite (dict_get_fold_set (fun _ => [])).
  replace (key_in _ _) with true; [reflexivity|].
  symmetry. apply key_in_In. apply in_flat_map.
  exists rouge_key. split; [assumption|]. apply in_map. assumption.
Qed.


Lemma init_output_NoDup (rouge_keys_values : list RougeKey) :
  NoDup (dict_keys (init_output rouge_keys_values)).
Proof.
  rewrite init_output_flat.
  apply (dict_keys_fold_set_NoDup (fun _ => [])). constructor.
Qed.

Lemma rouge_score_compute_get (sentence_results : list (string * list Tensor))
  (name : string) (scores : list Tensor) :
  NoDup (dict_keys sentence_results) ->
  dict_get sentence_results name = Some scores ->
  dict_get (_rouge_score_compute sentence_results) name =
  Some (tensor_mean scores).
Proof.
  intros Hnd Hget. unfold _rouge_score_compute.
  destruct sentence_results as [|kv d]; [discriminate|].
  rewrite (dict_get_fold_items tensor_mean (kv :: d) Hnd), Hget. reflexivity.
Qed.

Lemma empty_batch_all_nan (nltk : option NLTK) (preds : Preds)
  (target : Target) (accumulate : string) (use_stemmer : bool)
  (rouge_keys : RougeKeys) :
  examples preds target = [] ->
  first_unknown_key rouge_keys = None ->
  use_stemmer = false \/ nltk <> None ->
  exists out,
    rouge_score nltk preds target accumulate use_stemmer rouge_keys
      = (Ok out, []) /\
    forall key type,
      In key (rouge_keys_tuple rouge_keys) ->
      In type ["fmeasure"; "precision"; "recall"] ->
      dict_get out (output_key (allowed_value key) type) = Some nan.
Proof.
  intros Hex Hk Hst. eexists. split.
  - rewrite (rouge_score_no_example nltk _ _ _ _ _ Hex Hk Hst). reflexivity.
  - intros key type Hin Ht.
    rewrite (rouge_score_compute_get _ _ []); [reflexivity| |].
    + apply init_output_NoDup.
    + apply init_output_get; [|assumption]. apply in_map. assumption.
Qed.

(** C9 fails on the code.  On the empty batch with [rouge_keys =
    ("rouge1",)] the result is not the empty mapping: every output key is
    present and holds the mean of an empty list, [nan]. *)
Theorem empty_batch_yields_nan (nltk : option NLTK) (accumulate : string) :
  rouge_score nltk (PredList []) (TargetList []) accumulate false
    (KeysTuple ["rouge1"]) =
  (Ok [("rouge1_fmeasure", nan); ("rouge1_precision", nan);
       ("rouge1_recall", nan)], []).
Proof.
  rewrite rouge_score_no_example; auto; reflexivity.
Qed.

(** ** The result depends on [nltk] through the texts of the batch only *)

Section SplitterExt.
Variables lib lib' : NLTK.
Variable rouge_keys_values : list RougeKey.
Variable accumulate : string.
Variable stemmer : option (string -> string).

Lemma add_newline_ext (x : string) :
  sent_tokenize lib x = sent_tokenize lib' x ->
  _add_newline_to_end_of_each_sentence (Some lib) x =
  _add_newline_to_end_of_each_sentence (Some lib') x.
Proof. intros E. unfold _add_newline_to_end_of_each_sentence. rewrite E. reflexivity. Qed.

Lemma score_reference_ext pred pred_Lsum st (t : string) :
  sent_tokenize lib t = sent_tokenize lib' t ->
  score_reference (Some lib) rouge_keys_values stemmer pred pred_Lsum st t =
  score_reference (Some lib') rouge_keys_values stemmer pred pred_Lsum st t.
Proof.
  intros E. unfold score_reference. rewrite (add_newline_ext t E). reflexivity.
Qed.

Lemma update_example_ext results (ex : string * list string) :
  (forall x, In x (fst ex :: snd ex) ->
             sent_tokenize lib x = sent_tokenize lib' x) ->
  update_example (Some lib) rouge_keys_values accumulate stemmer results ex =
  update_example (Some lib') rouge_keys_values accumulate stemmer results ex.
Proof.
  destruct ex as [pred_raw target_raw]. intros E. unfold update_example.
  rewrite (add_newline_ext pred_raw) by (apply E; left; reflexivity).
  destruct (_add_newline_to_end_of_each_sentence (Some lib') pred_raw)
    as [[x|e] t]; [|reflexivity].
  unfold bind at 1 3. 
  rewrite (foldM_ext
             (score_reference (Some lib) rouge_keys_values stemmer
                (_normalize_and_tokenize_text pred_raw stemmer)
                (_normalize_and_tokenize_text x stemmer))
             (score_reference (Some lib') rouge_keys_values stemmer
                (_normalize_and_tokenize_text pred_raw stemmer)
                (_normalize_and_tokenize_text x stemmer))).
  - reflexivity.
  - intros st r Hin. apply score_reference_ext, E. right; exact Hin.
Qed.

Lemma update_ext preds target :
  (forall x, In x (texts_of (combine preds target)) ->
             sent_tokenize lib x = sent_tokenize lib' x) ->
  _rouge_score_update (Some lib) rouge_keys_values accumulate stemmer
    preds target =
  _rouge_score_update (Some lib') rouge_keys_values accumulate stemmer
    preds target.
Proof.
  intros E. unfold _rouge_score_update. apply foldM_ext.
  intros results ex Hin. apply update_example_ext.
  intros x Hx. apply E. unfold texts_of. apply in_flat_map.
  exists ex. split; assumption.
Qed.
End SplitterExt.

Lemma rouge_score_ext (lib lib' : NLTK) (preds : Preds) (target : Target)
  (accumulate : string) (rouge_keys : RougeKeys) :
  (forall x, In x (texts_of (examples preds target)) ->
             sent_tokenize lib x = sent_tokenize lib' x) ->
  rouge_score (Some lib) preds target accumulate false rouge_keys =
  rouge_score (Some lib') preds target accumulate false rouge_keys.
Proof.
  unfold examples, rouge_score. intros E. cbn [get_stemmer].
  rewrite !bind_ret_l.
  destruct (get_rouge_keys_values rouge_keys) as [[vals|e] t]; [|reflexivity].
  unfold bind at 1 4.
  destruct (normalize_shape preds target) as [ps gs].
  rewrite (update_ext lib lib' vals accumulate None ps gs E). reflexivity.
Qed.

(** C2.  For [preds = "My name is John"], [target = "Is your name John"],
    the four default keys and [accumulate = "best"], with a sentence
    splitter that sees one sentence in each text, [rouge_score] returns 0.75
    for the three ROUGE-1 fields, 0 for the ROUGE-2 fields and 0.5 for the
    ROUGE-L and ROUGE-Lsum fields. *)
Theorem john_scenario (lib : NLTK) :
  sent_tokenize lib "My name is John" = ["My name is John"] ->
  sent_tokenize lib "Is your name John" = ["Is your name John"] ->
  exists out tr,
    rouge_score (Some lib) (PredStr "My name is John")
      (TargetStr "Is your name John") "best" false
      (KeysTuple ["rouge1"; "rouge2"; "rougeL"; "rougeLsum"]) = (Ok out, tr) /\
    same_scores out
      [("rouge1_fmeasure", 0.75); ("rouge1_precision", 0.75);
       ("rouge1_recall", 0.75);
       ("rouge2_fmeasure", 0.0); ("rouge2_precision", 0.0);
       ("rouge2_recall", 0.0);
       ("rougeL_fmeasure", 0.5); ("rougeL_precision", 0.5);
       ("rougeL_recall", 0.5);
       ("rougeLsum_fmeasure", 0.5); ("rougeLsum_precision", 0.5);
       ("rougeLsum_recall", 0.5)]%Q.
Proof.
  intros Hp Ht.
  rewrite (rouge_score_ext lib plain_nltk).
  - eexists _, _. split; [vm_compute; reflexivity|].
    unfold same_scores. repeat constructor.
  - simpl. intros x [<-|[<-|[]]]; assumption.
Qed.

Lemma john_scenario_witness :
  exists out tr,
    rouge_score (Some plain_nltk) (PredStr "My name is John")
      (TargetStr "Is your name John") "best" false
      (KeysTuple ["rouge1"; "rouge2"; "rougeL"; "rougeLsum"]) = (Ok out, tr) /\
    same_scores out
      [("rouge1_fmeasure", 0.75); ("rouge1_precision", 0.75);
       ("rouge1_recall", 0.75);
       ("rouge2_fmeasure", 0.0); ("rouge2_precision", 0.0);
       ("rouge2_recall", 0.0);
       ("rougeL_fmeasure", 0.5); ("rougeL_precision", 0.5);
       ("rougeL_recall", 0.5);
       ("rougeLsum_fmeasure", 0.5); ("rougeLsum_precision", 0.5);
       ("rougeLsum_recall", 0.5)]%Q.
Proof. apply (john_scenario plain_nltk); reflexivity. Defined.

(** ** The first maximum *)

Lemma first_maximum_snoc_keep (l : list Q) (i : nat) (b y : Q) :
  nth_error l i = Some b -> first_maximum l i -> (y <= b)%Q ->
  first_maximum (l ++ [y]) i.
Proof.
  intros Hb [x [Hx [Hmax Hfirst]]] Hy.
  assert (x = b) by congruence; subst x.
  assert (Hi : (i < List.length l)%nat) by (apply nth_error_Some; congruence).
  exists b. split; [rewrite nth_error_app1; assumption|]. split.
  - intros j z Hj. destruct (Nat.lt_ge_cases j (List.length l)) as [Hlt|Hge].
    + rewrite nth_error_app1 in Hj by assumption. eapply Hmax; eassumption.
    + rewrite nth_error_app2 in Hj by assumption.
      destruct (j - List.length l)%nat as [|n]; simpl in Hj.
      * injection Hj as <-. assumption.
      * destruct n; discriminate.
  - intros j z Hji Hj. rewrite nth_error_app1 in Hj by lia.
    eapply Hfirst; eassumption.
Qed.

Lemma first_maximum_snoc_new (l : list Q) (i : nat) (b y : Q) :
  nth_error l i = Some b -> first_maximum l i -> (b < y)%Q ->
  first_maximum (l ++ [y]) (List.length l).
Proof.
  intros Hb [x [Hx [Hmax Hfirst]]] Hy.
  assert (x = b) by congruence; subst x.
  exists y. split; [rewrite nth_error_app2, Nat.sub_diag by lia; reflexivity|].
  split.
  - intros j z Hj. destruct (Nat.lt_ge_cases j (List.length l)) as [Hlt|Hge].
    + rewrite nth_error_app1 in Hj by assumption.
      specialize (Hmax j z Hj). lra.
    + rewrite nth_error_app2 in Hj by assumption.
      destruct (j - List.length l)%nat as [|n]; simpl in Hj.
      * injection Hj as <-. lra.
      * destruct n; discriminate.
  - intros j z Hji Hj. rewrite nth_error_app1 in Hj by lia.
    specialize (Hmax j z Hj). lra.
Qed.

Lemma argmax_from_first_maximum (l prefix : list Q) (best_i : nat) (best : Q) :
  nth_error prefix best_i = Some best -> first_maximum prefix best_i ->
  let i := argmax_from best_i (tensor best) (List.length prefix)
             (map tensor l) in
  first_maximum (prefix ++ l) i.
Proof.
  revert prefix best_i best.
  induction l as [|y l IH]; intros prefix best_i best Hb Hfm; cbn [map argmax_from].
  - rewrite app_nil_r. assumption.
  - cbn [tensor_gtb]. destruct (Qle_bool y best) eqn:E; cbn [negb].
    + apply Qle_bool_iff in E.
      pose proof (first_maximum_snoc_keep _ _ _ _ Hb Hfm E) as Hfm'.
      specialize (IH (prefix ++ [y]) best_i best).
      rewrite length_app, Nat.add_1_r, <- app_assoc in IH. apply IH; [|assumption].
      rewrite nth_error_app1; [assumption|].
      apply nth_error_Some; congruence.
    + assert (Hlt : (best < y)%Q).
      { apply Qnot_le_lt. intros Hle. apply Qle_bool_iff in Hle. congruence. }
      pose proof (first_maximum_snoc_new _ _ _ _ Hb Hfm Hlt) as Hfm'.
      specialize (IH (prefix ++ [y]) (List.length prefix) y).
      rewrite length_app, Nat.add_1_r, <- app_assoc in IH. apply IH; [|assumption].
      rewrite nth_error_app2, Nat.sub_diag by lia. reflexivity.
Qed.

(** [argmax] returns the first index of the largest value. *)
Lemma argmax_first_maximum (l : list Q) :
  l <> [] ->
  exists i, argmax (map tensor l) = ret i /\ first_maximum l i.
Proof.
  destruct l as [|x l]; [congruence|]. intros _.
  eexists. split; [reflexivity|].
  apply (argmax_from_first_maximum l [x] 0%nat x); [reflexivity|].
  exists x. split; [reflexivity|]. split.
  - intros [|[|j]] y Hj; simpl in Hj; try discriminate.
    injection Hj as <-. lra.
  - intros j y Hj. lia.
Qed.

(** ** Loops that append to the entries of a dictionary *)

Lemma dict_item_some {K V} `{EqKey K} (d : dict K V) (k : K) (v : V) :
  dict_get d k = Some v -> dict_item d k = ret v.
Proof. intros E. unfold dict_item. rewrite E. reflexivity. Qed.

Lemma list_item_some {X} (l : list X) (i : nat) (x : X) :
  nth_error l i = Some x -> list_item l i = ret x.
Proof. intros E. unfold list_item. rewrite E. reflexivity. Qed.

Lemma occurrences_cons {K} `{EqKey K} (k k0 : K) (keys : list K) :
  occurrences k (k0 :: keys) =
  if keqb k k0 then S (occurrences k keys) else occurrences k keys.
Proof. unfold occurrences. simpl. destruct (keqb k k0); reflexivity. Qed.

Lemma occurrences_pos {K} `{EqKeyLaws K} (k : K) (keys : list K) :
  In k keys -> (1 <= occurrences k keys)%nat.
Proof.
  induction keys as [|k0 keys IH]; simpl; [tauto|].
  rewrite occurrences_cons. intros [->|Hin].
  - rewrite keqb_refl. lia.
  - specialize (IH Hin). destruct (keqb k k0); lia.
Qed.

Lemma appended_step {K X} `{EqKeyLaws K} (d : dict K (list X)) (k0 k : K)
  (l : list X) (x : X) (n : nat) :
  dict_get d k0 = Some l ->
  option_map (fun l => l ++ repeat x n) (dict_get (dict_set d k0 (l ++ [x])) k) =
  option_map (fun l => l ++ repeat x (if keqb k k0 then S n else n))
    (dict_get d k).
Proof.
  intros Hl. rewrite dict_get_set.
  destruct (keqb_spec k0 k) as [->|Hne].
  - rewrite keqb_refl, Hl. simpl. rewrite <- app_assoc. reflexivity.
  - rewrite keqb_neq by congruence. reflexivity.
Qed.

(** [for k in keys: d[k].append(g(k))] *)
Lemma append_loop {K X} `{EqKeyLaws K} (g : K -> X)
  (f : dict K (list X) -> K -> M (dict K (list X))) (keys : list K) :
  (forall d k l, In k keys -> dict_get d k = Some l ->
                 value (f d k) = Ok (dict_set d k (l ++ [g k]))) ->
  forall d, (forall k, In k keys -> dict_get d k <> None) ->
  exists d',
    value (foldM f keys d) = Ok d' /\
    dict_keys d' = dict_keys d /\
    forall k, dict_get d' k =
              option_map (fun l => l ++ repeat (g k) (occurrences k keys))
                (dict_get d k).
Proof.
  induction keys as [|k0 keys IH]; intros Hf d Hd.
  - exists d. split; [reflexivity|]. split; [reflexivity|].
    intros k. destruct (dict_get d k); simpl; [rewrite app_nil_r|]; reflexivity.
  - destruct (dict_get d k0) as [l|] eqn:El;
      [|exfalso; apply (Hd k0); [left; reflexivity|assumption]].
    destruct (IH (fun d k l Hin => Hf d k l (or_intror Hin))
                (dict_set d k0 (l ++ [g k0]))) as [d' [Hv [Hk Hg]]].
    { intros k Hin. rewrite dict_get_set.
      destruct (keqb k0 k); [discriminate|]. apply Hd; right; assumption. }
    exists d'. split; [|split].
    + cbn [foldM]. rewrite (value_bind_ok _ _ _ (Hf d k0 l (or_introl eq_refl) El)).
      exact Hv.
    + rewrite Hk. apply dict_keys_set_present. congruence.
    + intros k. rewrite Hg, occurrences_cons.
      destruct (keqb_spec k k0) as [->|Hne].
      * rewrite (appended_step d k0 k0 l (g k0) _ El), keqb_refl. reflexivity.
      * rewrite dict_get_set_other by congruence. reflexivity.
Qed.

(** ** Subsequences *)

Lemma Subseq_nil_l {A} (l : list A) : Subseq [] l.
Proof. induction l; constructor; assumption. Qed.

Lemma Subseq_refl {A} (l : list A) : Subseq l l.
Proof. induction l; constructor; assumption. Qed.

Lemma Subseq_length {A} (s l : list A) :
  Subseq s l -> (List.length s <= List.length l)%nat.
Proof. induction 1; simpl; lia. Qed.

Lemma Subseq_tail {A} (a x : A) (s l : list A) :
  Subseq (a :: s) (x :: l) -> Subseq s l.
Proof.
  intros H. remember (a :: s) as s0 eqn:Es. remember (x :: l) as l0 eqn:El.
  revert a s x l Es El.
  induction H as [|s0 y l0 H IH|s0 y l0 H IH]; intros a s x l Es El;
    try discriminate; injection El as -> ->.
  - subst s0. destruct l as [|x' l'].
    + inversion H.
    + apply Subseq_skip. eapply IH; reflexivity.
  - injection Es as -> ->. assumption.
Qed.

Lemma Subseq_cons_inv {A} (s : list A) (x : A) (l : list A) :
  Subseq s (x :: l) ->
  Subseq s l \/ exists s', s = x :: s' /\ Subseq s' l.
Proof.
  intros H. inversion H; subst; [left; assumption|right; eauto].
Qed.

Lemma Subseq_app {A} (s1 l1 s2 l2 : list A) :
  Subseq s1 l1 -> Subseq s2 l2 -> Subseq (s1 ++ s2) (l1 ++ l2).
Proof.
  intros H1 H2. induction H1; simpl; try (constructor; assumption).
  assumption.
Qed.

Lemma Subseq_rev {A} (s l : list A) : Subseq s l -> Subseq (rev s) (rev l).
Proof.
  induction 1 as [|s x l H IH|s x l H IH]; simpl.
  - constructor.
  - rewrite <- (app_nil_r (rev s)). apply Subseq_app; [assumption|].
    apply Subseq_skip. constructor.
  - apply Subseq_app; [assumption|]. apply Subseq_take. constructor.
Qed.

Lemma Subseq_rev_iff {A} (s l : list A) :
  Subseq (rev s) (rev l) <-> Subseq s l.
Proof.
  split; [|apply Subseq_rev].
  intros H. apply Subseq_rev in H. rewrite !rev_involutive in H. exact H.
Qed.

(** ** The recurrence computes the longest common subsequence *)

Lemma lcs_rec_nil_r (xs : list string) : lcs_rec xs [] = 0%nat.
Proof. destruct xs; reflexivity. Qed.

Lemma lcs_rec_cons (x y : string) (xs ys : list string) :
  lcs_rec (x :: xs) (y :: ys) =
  if String.eqb x y then S (lcs_rec xs ys)
  else Nat.max (lcs_rec xs (y :: ys)) (lcs_rec (x :: xs) ys).
Proof. reflexivity. Qed.

Lemma lcs_rec_witness (xs ys : list string) :
  exists s, Subseq s xs /\ Subseq s ys /\ List.length s = lcs_rec xs ys.
Proof.
  revert ys. induction xs as [|x xs IHx]; intros ys.
  - exists []. repeat split; [constructor|apply Subseq_nil_l].
  - induction ys as [|y ys IHy].
    + exists []. repeat split; [apply Subseq_nil_l|constructor].
    + rewrite lcs_rec_cons. destruct (String.eqb_spec x y) as [->|Hne].
      * destruct (IHx ys) as [s [H1 [H2 H3]]].
        exists (y :: s). repeat split; try (constructor; assumption).
        simpl. congruence.
      * destruct (Nat.max_spec (lcs_rec xs (y :: ys)) (lcs_rec (x :: xs) ys))
          as [[_ ->]|[_ ->]].
        -- destruct IHy as [s [H1 [H2 H3]]].
           exists s. repeat split; try assumption. constructor; assumption.
        -- destruct (IHx (y :: ys)) as [s [H1 [H2 H3]]].
           exists s. repeat split; try assumption. constructor; assumption.
Qed.

Lemma lcs_rec_upper (xs ys s : list string) :
  Subseq s xs -> Subseq s ys -> (List.length s <= lcs_rec xs ys)%nat.
Proof.
  revert ys s. induction xs as [|x xs IHx]; intros ys s Hx Hy.
  - inversion Hx; subst. simpl. lia.
  - revert s Hx Hy. induction ys as [|y ys IHy]; intros s Hx Hy.
    + inversion Hy; subst. simpl. lia.
    + rewrite lcs_rec_cons. destruct (String.eqb_spec x y) as [->|Hne].
      * destruct s as [|a s]; [simpl; lia|].
        apply Subseq_tail in Hx, Hy. specialize (IHx ys s Hx Hy).
        simpl. lia.
      * destruct (Subseq_cons_inv _ _ _ Hx) as [Hx'|[s' [-> Hx']]].
        -- specialize (IHx (y :: ys) s Hx' Hy). lia.
        -- destruct (Subseq_cons_inv _ _ _ Hy) as [Hy'|[s'' [E Hy']]].
           ++ specialize (IHy (x :: s') Hx Hy'). lia.
           ++ congruence.
Qed.

Lemma lcs_rec_sym (xs ys : list string) : lcs_rec xs ys = lcs_rec ys xs.
Proof.
  apply Nat.le_antisymm.
  - destruct (lcs_rec_witness xs ys) as [s [H1 [H2 <-]]].
    apply lcs_rec_upper; assumption.
  - destruct (lcs_rec_witness ys xs) as [s [H1 [H2 <-]]].
    apply lcs_rec_upper; assumption.
Qed.

Lemma lcs_rec_rev (xs ys : list string) :
  lcs_rec (rev xs) (rev ys) = lcs_rec xs ys.
Proof.
  apply Nat.le_antisymm.
  - destruct (lcs_rec_witness (rev xs) (rev ys)) as [s [H1 [H2 <-]]].
    rewrite <- (length_rev s). apply lcs_rec_upper.
    + apply Subseq_rev_iff. rewrite rev_involutive. assumption.
    + apply Subseq_rev_iff. rewrite rev_involutive. assumption.
  - destruct (lcs_rec_witness xs ys) as [s [H1 [H2 <-]]].
    rewrite <- (length_rev s). apply lcs_rec_upper; apply Subseq_rev; assumption.
Qed.

(** ** The table of [_lcs] *)

Lemma list_update_length {X} (l : list X) (i : nat) (x : X) :
  List.length (list_update l i x) = List.length l.
Proof.
  revert i; induction l as [|y l IH]; intros [|i]; simpl; auto.
Qed.

Lemma list_update_nth {X} (l : list X) (i j : nat) (x d : X) :
  nth j (list_update l i x) d =
  if (j =? i)%nat && (i <? List.length l)%nat then x else nth j l d.
Proof.
  revert i j; induction l as [|y l IH]; intros i j.
  - simpl. rewrite andb_false_r. destruct i; reflexivity.
  - destruct i as [|i], j as [|j]; simpl; try reflexivity.
    rewrite IH. reflexivity.
Qed.

Lemma table_set_length (LCS : list (list Z)) (i j : nat) (v : Z) :
  List.length (table_set LCS i j v) = List.length LCS.
Proof. apply list_update_length. Qed.

Lemma table_set_row_length (LCS : list (list Z)) (i j r : nat) (v : Z) :
  List.length (nth r (table_set LCS i j v) []) = List.length (nth r LCS []).
Proof.
  unfold table_set. rewrite list_update_nth.
  destruct (Nat.eqb_spec r i) as [->|Hne]; simpl; [|reflexivity].
  destruct (i <? List.length LCS)%nat; [|reflexivity].
  apply list_update_length.
Qed.

Lemma table_get_set (LCS : list (list Z)) (i j r c : nat) (v : Z) :
  (i < List.length LCS)%nat -> (j < List.length (nth i LCS []))%nat ->
  table_get (table_set LCS i j v) r c =
  if (r =? i)%nat && (c =? j)%nat then v else table_get LCS r c.
Proof.
  intros Hi Hj. unfold table_get, table_set. rewrite list_update_nth.
  apply Nat.ltb_lt in Hi. rewrite Hi, andb_true_r.
  destruct (Nat.eqb_spec r i) as [->|Hne]; simpl; [|reflexivity].
  rewrite list_update_nth. apply Nat.ltb_lt in Hj. rewrite Hj, andb_true_r.
  reflexivity.
Qed.

Lemma firstn_succ_nth {X} (l : list X) (n : nat) (d : X) :
  (n < List.length l)%nat -> firstn (S n) l = firstn n l ++ [nth n l d].
Proof.
  revert n; induction l as [|x l IH]; intros n Hn; simpl in Hn; [lia|].
  destruct n as [|n]; [reflexivity|].
  cbn [firstn nth app]. f_equal. apply IH. lia.
Qed.

Section LcsTable.
Variables pred_tokens target_tokens : list string.

Local Abbreviation P := (List.length pred_tokens).
Local Abbreviation T := (List.length target_tokens).
Local Abbreviation L := (table_entry pred_tokens target_tokens).
Local Abbreviation table_filled := (table_filled pred_tokens target_tokens).

Lemma table_value_zero (r c : nat) :
  r = 0%nat \/ c = 0%nat -> L r c = 0%nat.
Proof.
  unfold table_entry. intros [-> | ->]; simpl; [reflexivity|apply lcs_rec_nil_r].
Qed.

Lemma table_value_succ (r c : nat) :
  (r < T)%nat -> (c < P)%nat ->
  L (S r) (S c) =
  if String.eqb (nth r target_tokens EmptyString) (nth c pred_tokens EmptyString)
  then S (L r c)
  else Nat.max (L r (S c)) (L (S r) c).
Proof.
  intros Hr Hc. unfold table_entry.
  rewrite (firstn_succ_nth target_tokens r EmptyString Hr).
  rewrite (firstn_succ_nth pred_tokens c EmptyString Hc).
  rewrite !rev_unit. apply lcs_rec_cons.
Qed.

Lemma table_filled_init :
  table_filled (repeat (repeat 0 (P + 1)) (T + 1)) 1 1.
Proof.
  split; [apply repeat_length|]. split.
  - intros r Hr. rewrite nth_repeat_lt by lia. apply repeat_length.
  - intros r c Hr Hc Hrc. unfold table_get.
    rewrite nth_repeat_lt by lia. rewrite nth_repeat_lt by lia.
    rewrite table_value_zero; [reflexivity|lia].
Qed.

Lemma table_filled_cell (LCS : list (list Z)) (i j : nat) :
  (1 <= i <= T)%nat -> (1 <= j <= P)%nat ->
  table_filled LCS i j ->
  table_filled (lcs_cell pred_tokens target_tokens i LCS j) i (S j).
Proof.
  intros Hi Hj [Hlen [Hrows Hcells]].
  assert (Hset : forall v,
             table_filled (table_set LCS i j v) i j /\
             table_get (table_set LCS i j v) i j = v).
  { intros v. split; [split; [|split]|].
    - rewrite table_set_length. exact Hlen.
    - intros r Hr. rewrite table_set_row_length. apply Hrows, Hr.
    - intros r c Hr Hc Hrc.
      rewrite table_get_set by (rewrite ?Hrows; lia).
      destruct (Nat.eqb_spec r i) as [->|Hne]; simpl; [|apply Hcells; assumption].
      destruct (Nat.eqb_spec c j) as [->|Hne']; [lia|apply Hcells; assumption].
    - rewrite table_get_set by (rewrite ?Hrows; lia).
      rewrite !Nat.eqb_refl. reflexivity. }
  assert (Hval : table_get (lcs_cell pred_tokens target_tokens i LCS j) i j
                 = Z.of_nat (L i j) /\
                 table_filled (lcs_cell pred_tokens target_tokens i LCS j) i j).
  { destruct i as [|r]; [lia|]. destruct j as [|c]; [lia|].
    rewrite (table_value_succ r c) by lia.
    unfold lcs_cell. replace (S r - 1)%nat with r by lia.
    replace (S c - 1)%nat with c by lia.
    destruct (String.eqb _ _).
    - destruct (Hset (table_get LCS r c + 1)) as [Hf Hg].
      split; [|exact Hf]. rewrite Hg, Hcells by lia. lia.
    - destruct (Hset (Z.max (table_get LCS r (S c)) (table_get LCS (S r) c)))
        as [Hf Hg].
      split; [|exact Hf]. rewrite Hg, !Hcells by lia. lia. }
  destruct Hval as [Hv [Hlen' [Hrows' Hcells']]].
  split; [exact Hlen'|]. split; [exact Hrows'|].
  intros r c Hr Hc Hrc.
  destruct (Nat.eq_dec r i) as [->|Hne];
    [destruct (Nat.eq_dec c j) as [->|Hne']|].
  - exact Hv.
  - apply Hcells'; try assumption. lia.
  - apply Hcells'; try assumption. lia.
Qed.

Lemma table_filled_row (i n j : nat) (LCS : list (list Z)) :
  (1 <= i <= T)%nat -> (1 <= j)%nat -> (j + n = P + 1)%nat ->
  table_filled LCS i j ->
  table_filled
    (fold_left (lcs_cell pred_tokens target_tokens i) (seq j n) LCS)
    i (P + 1).
Proof.
  intros Hi. revert j LCS. induction n as [|n IH]; intros j LCS Hj Hn Hf.
  - simpl. replace (P + 1)%nat with j by lia. exact Hf.
  - cbn [seq fold_left]. apply IH; [lia|lia|].
    apply table_filled_cell; [assumption|lia|assumption].
Qed.

Lemma table_filled_next_row (LCS : list (list Z)) (i : nat) :
  table_filled LCS i (P + 1) -> table_filled LCS (S i) 1.
Proof.
  intros [Hlen [Hrows Hcells]]. split; [exact Hlen|]. split; [exact Hrows|].
  intros r c Hr Hc Hrc. apply Hcells; try assumption. lia.
Qed.

Lemma table_filled_rows (n i : nat) (LCS : list (list Z)) :
  (1 <= i)%nat -> (i + n = T + 1)%nat ->
  table_filled LCS i 1 ->
  table_filled
    (fold_left (fun LCS i =>
                  fold_left (lcs_cell pred_tokens target_tokens i) (seq 1 P) LCS)
       (seq i n) LCS)
    (T + 1) 1.
Proof.
  revert i LCS. induction n as [|n IH]; intros i LCS Hi Hn Hf.
  - simpl. replace (T + 1)%nat with i by lia. exact Hf.
  - cbn [seq fold_left]. apply IH; [lia|lia|].
    apply table_filled_next_row.
    apply (table_filled_row i P 1); [lia|lia|lia|exact Hf].
Qed.

(** [_lcs] returns the value of the recurrence on the two sequences. *)
Lemma lcs_table_value :
  _lcs pred_tokens target_tokens =
  Z.of_nat (lcs_rec target_tokens pred_tokens).
Proof.
  pose proof (table_filled_rows T 1 _ (Nat.le_refl 1) (Nat.add_comm 1 T)
                table_filled_init) as [_ [_ Hcells]].
  rewrite <- (lcs_rec_rev target_tokens pred_tokens).
  rewrite <- (firstn_all target_tokens) at 2.
  rewrite <- (firstn_all pred_tokens) at 2.
  fold (L T P). rewrite <- Hcells; [reflexivity|lia|lia|].
  destruct T; [left; reflexivity|]. right; right; left. lia.
Qed.
End LcsTable.

Lemma Subseq_full {A} (s l : list A) :
  Subseq s l -> List.length s = List.length l -> s = l.
Proof.
  induction 1 as [|s x l H IH|s x l H IH]; simpl; intros E.
  - reflexivity.
  - apply Subseq_length in H. lia.
  - f_equal. apply IH. lia.
Qed.

(** X1.  [_lcs] returns the length of a longest common subsequence: some
    common subsequence of the two token sequences has that length, and no
    common subsequence is longer. *)
Theorem lcs_longest_common_subsequence (pred_tokens target_tokens : list string) :
  (exists s, Subseq s pred_tokens /\ Subseq s target_tokens /\
             Z.of_nat (List.length s) = _lcs pred_tokens target_tokens) /\
  (forall s, Subseq s pred_tokens -> Subseq s target_tokens ->
             (Z.of_nat (List.length s) <= _lcs pred_tokens target_tokens)%Z).
Proof.
  rewrite lcs_table_value. split.
  - destruct (lcs_rec_witness target_tokens pred_tokens) as [s [Ht [Hp E]]].
    exists s. repeat split; try assumption. congruence.
  - intros s Hp Ht. apply inj_le. apply lcs_rec_upper; assumption.
Qed.

Lemma lcs_symmetric_aux (pred_tokens target_tokens : list string) :
  _lcs pred_tokens target_tokens = _lcs target_tokens pred_tokens.
Proof. rewrite !lcs_table_value, lcs_rec_sym. reflexivity. Qed.

(** X2.  The length computed by [_lcs] does not depend on which sequence is
    the prediction and which the target. *)
Theorem lcs_symmetric (pred_tokens target_tokens : list string) :
  _lcs pred_tokens target_tokens = _lcs target_tokens pred_tokens.
Proof.
  rewrite !lcs_table_value. f_equal.
  apply Nat.le_antisymm.
  - destruct (lcs_rec_witness target_tokens pred_tokens) as [s [H1 [H2 <-]]].
    apply lcs_rec_upper; assumption.
  - destruct (lcs_rec_witness pred_tokens target_tokens) as [s [H1 [H2 <-]]].
    apply lcs_rec_upper; assumption.
Qed.

Lemma lcs_rec_le_l (xs ys : list string) :
  (lcs_rec xs ys <= List.length xs)%nat.
Proof.
  destruct (lcs_rec_witness xs ys) as [s [Hx [_ <-]]].
  apply Subseq_length, Hx.
Qed.

Lemma lcs_le_pred (pred_tokens target_tokens : list string) :
  (0 <= _lcs pred_tokens target_tokens <= Z.of_nat (List.length pred_tokens))%Z.
Proof.
  rewrite lcs_table_value, lcs_rec_sym.
  pose proof (lcs_rec_le_l pred_tokens target_tokens). lia.
Qed.

Lemma lcs_le_target (pred_tokens target_tokens : list string) :
  (0 <= _lcs pred_tokens target_tokens <= Z.of_nat (List.length target_tokens))%Z.
Proof.
  rewrite lcs_table_value.
  pose proof (lcs_rec_le_l target_tokens pred_tokens). lia.
Qed.

(** X3.  [_lcs] is never negative and never exceeds the length of either
    sequence. *)
Theorem lcs_bounds (pred_tokens target_tokens : list string) :
  (0 <= _lcs pred_tokens target_tokens
     <= Z.min (Z.of_nat (List.length pred_tokens))
              (Z.of_nat (List.length target_tokens)))%Z.
Proof.
  pose proof (lcs_le_pred pred_tokens target_tokens).
  pose proof (lcs_le_target pred_tokens target_tokens). lia.
Qed.

Lemma lcs_full_iff (pred_tokens target_tokens : list string) :
  _lcs pred_tokens target_tokens = Z.of_nat (List.length pred_tokens) <->
  Subseq pred_tokens target_tokens.
Proof.
  rewrite lcs_table_value. split.
  - intros E. apply Nat2Z.inj in E.
    destruct (lcs_rec_witness target_tokens pred_tokens) as [s [Ht [Hp El]]].
    rewrite (Subseq_full s pred_tokens Hp) in Ht by congruence. exact Ht.
  - intros H. f_equal. apply Nat.le_antisymm.
    + rewrite lcs_rec_sym. apply lcs_rec_le_l.
    + apply lcs_rec_upper; [assumption|apply Subseq_refl].
Qed.

(** X4.  The longest common subsequence of a sequence with itself is the
    whole sequence, and more generally [_lcs] equals the length of the
    prediction exactly when the prediction is a subsequence of the target. *)
Theorem lcs_whole_prediction (pred_tokens target_tokens : list string) :
  _lcs pred_tokens pred_tokens = Z.of_nat (List.length pred_tokens) /\
  (_lcs pred_tokens target_tokens = Z.of_nat (List.length pred_tokens) <->
   Subseq pred_tokens target_tokens).
Proof.
  split; [apply lcs_full_iff, Subseq_refl|apply lcs_full_iff].
Qed.

(** ** Counters of n-grams *)

Lemma create_ngrams_windows (tokens : list string) (n : Z) :
  _create_ngrams tokens n =
  fold_left (fun ngrams w => dict_set ngrams w (counter_get ngrams w + 1))
    (windows tokens n) [].
Proof.
  unfold _create_ngrams, windows.
  generalize (range (Z.of_nat (List.length tokens) - n + 1)).
  generalize ([] : list (list string * Z)).
  intros c l. revert c. induction l as [|i l IH]; intros c; [reflexivity|].
  cbn [map fold_left]. apply IH.
Qed.

Lemma windows_ngrams_of (tokens : list string) (n : nat) :
  (1 <= n)%nat -> windows tokens (Z.of_nat n) = ngrams_of tokens n.
Proof.
  intros Hn. unfold windows, ngrams_of, range.
  replace (Z.to_nat (Z.of_nat (List.length tokens) - Z.of_nat n + 1))
    with (List.length tokens + 1 - n)%nat by lia.
  rewrite map_map. apply map_ext_in. intros i Hi. apply in_seq in Hi.
  unfold py_slice.
  replace (Z.of_nat i + Z.of_nat n <? 0)%Z with false
    by (symmetry; apply Z.ltb_ge; lia).
  rewrite !Z.min_l by lia.
  replace (Z.to_nat (Z.of_nat i + Z.of_nat n - Z.of_nat i)) with n by lia.
  rewrite Nat2Z.id. reflexivity.
Qed.

Section CounterFacts.
Local Abbreviation step :=
  (fun (c : list (list string * Z)) (w : list string) =>
     dict_set c w (counter_get c w + 1)).

Lemma counter_get_set (c : list (list string * Z)) (x w : list string) (v : Z) :
  counter_get (dict_set c x v) w =
  if keqb x w then v else counter_get c w.
Proof.
  unfold counter_get. rewrite dict_get_set. destruct (keqb x w); reflexivity.
Qed.

Lemma counter_fold_get (ws : list (list string)) :
  forall (c : list (list string * Z)) (w : list string),
    counter_get (fold_left step ws c) w =
    (counter_get c w + Z.of_nat (occurrences w ws))%Z.
Proof.
  induction ws as [|x ws IH]; intros c w; cbn [fold_left].
  - unfold occurrences. simpl. lia.
  - rewrite IH, occurrences_cons, counter_get_set.
    destruct (keqb_spec x w) as [->|Hne].
    + rewrite keqb_refl. lia.
    + rewrite keqb_neq by congruence. lia.
Qed.

Lemma counter_set_sum (c : list (list string * Z)) (x : list string) :
  Zsum (dict_values (dict_set c x (counter_get c x + 1))) =
  (Zsum (dict_values c) + 1)%Z.
Proof.
  unfold counter_get. induction c as [|[k v] c IH]; [reflexivity|].
  cbn [dict_get dict_set]. destruct (keqb k x).
  - unfold dict_values, Zsum. simpl. lia.
  - unfold dict_values, Zsum in *. cbn [map fold_right snd]. rewrite IH. lia.
Qed.

Lemma counter_fold_sum (ws : list (list string)) :
  forall c : list (list string * Z),
    Zsum (dict_values (fold_left step ws c)) =
    (Zsum (dict_values c) + Z.of_nat (List.length ws))%Z.
Proof.
  induction ws as [|x ws IH]; intros c; cbn [fold_left List.length].
  - lia.
  - rewrite IH, counter_set_sum. lia.
Qed.

Lemma counter_fold_NoDup (ws : list (list string)) :
  forall c : list (list string * Z),
    NoDup (dict_keys c) -> NoDup (dict_keys (fold_left step ws c)).
Proof.
  induction ws as [|x ws IH]; intros c Hc; cbn [fold_left]; [assumption|].
  apply IH. apply dict_keys_set_NoDup. assumption.
Qed.

Lemma counter_fold_keys (ws : list (list string)) :
  forall (c : list (list string * Z)) (w : list string),
    In w (dict_keys (fold_left step ws c)) <-> In w ws \/ In w (dict_keys c).
Proof.
  induction ws as [|x ws IH]; intros c w; cbn [fold_left].
  - simpl. tauto.
  - rewrite IH.
    assert (Hk : In w (dict_keys (dict_set c x (counter_get c x + 1)))
                 <-> x = w \/ In w (dict_keys c)).
    { destruct (dict_get c x) eqn:E.
      - rewrite dict_keys_set_present by congruence.
        split; [tauto|]. intros [<-|H]; [|assumption].
        destruct (in_dec (list_eq_dec string_dec) x (dict_keys c)) as [H|H];
          [assumption|].
        apply dict_get_None_keys in H. congruence.
      - rewrite dict_keys_set_absent by assumption.
        rewrite in_app_iff. simpl. tauto. }
    rewrite Hk. simpl. tauto.
Qed.
End CounterFacts.

Lemma counter_keys_sum (c : list (list string * Z)) :
  NoDup (dict_keys c) ->
  Zsum (map (counter_get c) (dict_keys c)) = Zsum (dict_values c).
Proof.
  induction c as [|[k v] c IH]; intros Hnd; [reflexivity|].
  inversion Hnd as [|? ? Hnotin Hnd']; subst.
  unfold dict_keys, dict_values in *. cbn [map fst snd Zsum fold_right].
  fold (Zsum (map snd c)).
  unfold counter_get at 1. cbn [dict_get]. rewrite keqb_refl.
  f_equal. rewrite <- (IH Hnd'). unfold Zsum. f_equal.
  apply map_ext_in. intros w Hw. unfold counter_get. cbn [dict_get].
  rewrite keqb_neq; [reflexivity|]. intros ->. contradiction.
Qed.

Lemma Zsum_map_le {A} (f g : A -> Z) (l : list A) :
  (forall x, In x l -> (f x <= g x)%Z) ->
  (Zsum (map f l) <= Zsum (map g l))%Z.
Proof.
  induction l as [|x l IH]; intros H; simpl; [lia|].
  specialize (IH (fun y Hy => H y (or_intror Hy))).
  specialize (H x (or_introl eq_refl)). unfold Zsum in *. lia.
Qed.

Lemma occurrences_sum_le (K ws : list (list string)) :
  NoDup K ->
  (Zsum (map (fun w => Z.of_nat (occurrences w ws)) K)
   <= Z.of_nat (List.length ws))%Z.
Proof.
  intros HK. induction ws as [|x ws IH].
  - replace (Zsum _) with 0%Z; [simpl; lia|].
    clear. induction K as [|k K IH]; [reflexivity|].
    unfold Zsum in *. cbn [map fold_right]. rewrite <- IH. reflexivity.
  - assert (Hone : (Zsum (map (fun w => if keqb w x then 1 else 0) K) <= 1)%Z).
    { clear IH. induction HK as [|k K Hk HK IH]; [simpl; lia|].
      unfold Zsum in *. cbn [map fold_right].
      destruct (keqb_spec k x) as [->|Hne]; [|lia].
      replace (fold_right Z.add 0%Z
                 (map (fun w => if keqb w x then 1 else 0) K)) with 0%Z; [lia|].
      clear IH HK. induction K as [|k' K IH]; [reflexivity|].
      cbn [map fold_right]. rewrite keqb_neq.
      - rewrite <- IH; [reflexivity|]. intros H; apply Hk; right; exact H.
      - intros ->. apply Hk. left; reflexivity. }
    assert (Hsplit :
      Zsum (map (fun w => Z.of_nat (occurrences w (x :: ws))) K) =
      (Zsum (map (fun w => if keqb w x then 1 else 0) K)
       + Zsum (map (fun w => Z.of_nat (occurrences w ws)) K))%Z).
    { clear. induction K as [|k K IH]; [reflexivity|].
      unfold Zsum in *. cbn [map fold_right]. rewrite IH, occurrences_cons.
      destruct (keqb k x); lia. }
    rewrite Hsplit. cbn [List.length]. lia.
Qed.

(** The overlap count is bounded by both totals. *)
Lemma ngram_hits_bounds (wsp wst : list (list string)) :
  let cp := fold_left (fun c w => dict_set c w (counter_get c w + 1)) wsp [] in
  let ct := fold_left (fun c w => dict_set c w (counter_get c w + 1)) wst [] in
  (0 <= ngram_hits cp ct)%Z /\
  (ngram_hits cp ct <= Z.of_nat (List.length wsp))%Z /\
  (ngram_hits cp ct <= Z.of_nat (List.length wst))%Z.
Proof.
  intros cp ct.
  assert (Hnd : NoDup (dict_keys cp))
    by (apply counter_fold_NoDup; constructor).
  assert (Hp : forall w, counter_get cp w = Z.of_nat (occurrences w wsp))
    by (intros w; unfold cp; rewrite counter_fold_get; reflexivity).
  assert (Ht : forall w, counter_get ct w = Z.of_nat (occurrences w wst))
    by (intros w; unfold ct; rewrite counter_fold_get; reflexivity).
  unfold ngram_hits. split; [|split].
  - change 0%Z with (Zsum (map (fun _ => 0%Z) (@nil (list string)))).
    transitivity (Zsum (map (fun _ : list string => 0%Z) (dict_keys cp))).
    + clear. induction (dict_keys cp); simpl; [lia|]. unfold Zsum in *.
      simpl in *. lia.
    + apply Zsum_map_le. intros w _. rewrite Hp, Ht. lia.
  - transitivity (Zsum (map (counter_get cp) (dict_keys cp))).
    + apply Zsum_map_le. intros w _. lia.
    + rewrite (counter_keys_sum cp Hnd). unfold cp.
      rewrite counter_fold_sum. simpl. lia.
  - transitivity (Zsum (map (fun w => Z.of_nat (occurrences w wst))
                          (dict_keys cp))).
    + apply Zsum_map_le. intros w _. rewrite Ht. lia.
    + apply occurrences_sum_le, Hnd.
Qed.

Lemma rouge_n_score_unfold {ar : Arith} (pred target : list string) (n_gram : Z) :
  let cp := _create_ngrams pred n_gram in
  let ct := _create_ngrams target n_gram in
  let pred_len := Z.of_nat (List.length (windows pred n_gram)) in
  let target_len := Z.of_nat (List.length (windows target n_gram)) in
  _rouge_n_score pred target n_gram =
  if (pred_len =? 0)%Z || (target_len =? 0)%Z then ret zero_score
  else _compute_metrics (ngram_hits cp ct) pred_len target_len.
Proof.
  intros cp ct pred_len target_len. unfold _rouge_n_score.
  fold cp ct. fold (ngram_hits cp ct).
  assert (Ep : Zsum (dict_values cp) = pred_len).
  { unfold cp, pred_len. rewrite create_ngrams_windows, counter_fold_sum.
    reflexivity. }
  assert (Et : Zsum (dict_values ct) = target_len).
  { unfold ct, target_len. rewrite create_ngrams_windows, counter_fold_sum.
    reflexivity. }
  rewrite Ep, Et.
  destruct (pred_len =? 0)%Z eqn:E1; [reflexivity|].
  destruct (target_len =? 0)%Z eqn:E2; [reflexivity|].
  apply Z.eqb_neq in E1, E2. cbn [orb].
  rewrite !Z.max_l by (unfold pred_len, target_len in *; lia). reflexivity.
Qed.

(** ** The scorers always return a score *)

Lemma rouge_n_score_returns {ar : Arith} {arl : ArithLaws ar}
  (pred target : list string) (n_gram : Z) :
  exists p r f, _rouge_n_score pred target n_gram = ret (mk_score p r f).
Proof.
  rewrite rouge_n_score_unfold.
  destruct (_ || _) eqn:E0; [exists 0%Q, 0%Q, 0%Q; reflexivity|].
  apply orb_false_iff in E0 as [Ep Et]. apply Z.eqb_neq in Ep, Et.
  rewrite !create_ngrams_windows.
  destruct (ngram_hits_bounds (windows pred n_gram) (windows target n_gram))
    as [H0 [Hp Ht]].
  apply compute_metrics_score; try assumption; lia.
Qed.

Lemma rouge_l_score_returns {ar : Arith} {arl : ArithLaws ar}
  (pred target : list string) :
  exists p r f, _rouge_l_score pred target = ret (mk_score p r f).
Proof.
  unfold _rouge_l_score.
  destruct (_ || _) eqn:E0; [exists 0%Q, 0%Q, 0%Q; reflexivity|].
  apply orb_false_iff in E0 as [Ep Et].
  apply Z.eqb_neq in Ep, Et.
  pose proof (lcs_le_pred pred target). pose proof (lcs_le_target pred target).
  apply compute_metrics_score; lia.
Qed.

Lemma score_key_returns {ar : Arith} {arl : ArithLaws ar} (pred pred_Lsum tgt : list string)
  (target_Lsum : option (list string)) (rouge_key : RougeKey) :
  (rouge_key = KStr "Lsum" -> target_Lsum <> None) ->
  exists p r f,
    score_key pred pred_Lsum tgt target_Lsum rouge_key =
    (Ok (mk_score p r f), [Scored rouge_key]).
Proof.
  intros HL. unfold score_key.
  assert (G : forall m : M Score,
             (exists p r f, m = ret (mk_score p r f)) ->
             exists p r f,
               (tick (Scored rouge_key) ;;; m) =
               (Ok (mk_score p r f), [Scored rouge_key])).
  { intros m [p [r [f ->]]]. exists p, r, f. reflexivity. }
  apply G. destruct rouge_key as [n|s].
  - apply rouge_n_score_returns.
  - destruct (String.eqb_spec s "Lsum") as [->|Hne]; cbn [negb].
    + destruct target_Lsum as [tl|]; [apply rouge_l_score_returns|].
      exfalso. apply HL; reflexivity.
    + apply rouge_l_score_returns.
Qed.

Lemma reference_score_returns {ar : Arith} {arl : ArithLaws ar} (lib : NLTK) (stemmer : option (string -> string))
  (keys : list RougeKey) (pred_raw t : string) (key : RougeKey) :
  In key keys ->
  exists p r f,
    reference_score lib stemmer keys pred_raw t key =
    (Ok (mk_score p r f), [Scored key]).
Proof.
  intros Hin. unfold reference_score. apply score_key_returns.
  intros ->. apply key_in_In in Hin. rewrite Hin. discriminate.
Qed.


Lemma reference_score_value {ar : Arith} {arl : ArithLaws ar} (lib : NLTK) (stemmer : option (string -> string))
  (keys : list RougeKey) (pred_raw t : string) (key : RougeKey) :
  In key keys ->
  let s := score_of (reference_score lib stemmer keys pred_raw t key) in
  value (reference_score lib stemmer keys pred_raw t key) = Ok s /\
  well_formed_score s.
Proof.
  intros Hin.
  destruct (reference_score_returns lib stemmer keys pred_raw t key Hin)
    as [p [r [f E]]].
  unfold score_of. rewrite E. cbn [value fst]. split; reflexivity.
Qed.

(** ** The loops over the keys and over the references *)

Lemma score_keys_spec {ar : Arith} (pred pred_Lsum tgt : list string)
  (target_Lsum : option (list string)) (g : RougeKey -> Score)
  (keys : list RougeKey) :
  (forall k, In k keys ->
             value (score_key pred pred_Lsum tgt target_Lsum k) = Ok (g k)) ->
  forall st, (forall k, In k keys -> dict_get (result_avg st) k <> None) ->
  exists st',
    value (score_keys keys pred pred_Lsum tgt target_Lsum st) = Ok st' /\
    list_results st' = list_results st /\
    (forall k, dict_get (result_inner st') k =
               if key_in k keys then Some (g k)
               else dict_get (result_inner st) k) /\
    dict_keys (result_avg st') = dict_keys (result_avg st) /\
    forall k, dict_get (result_avg st') k =
              option_map (fun l => l ++ repeat (g k) (occurrences k keys))
                (dict_get (result_avg st) k).
Proof.
  unfold score_keys.
  induction keys as [|k0 keys IH]; intros Hg st Hst.
  - exists st. repeat split; try reflexivity.
    intros k. destruct (dict_get (result_avg st) k); simpl;
      [rewrite app_nil_r|]; reflexivity.
  - destruct (dict_get (result_avg st) k0) as [l|] eqn:El;
      [|exfalso; apply (Hst k0); [left; reflexivity|assumption]].
    set (st1 := {| result_inner := dict_set (result_inner st) k0 (g k0);
                   result_avg := dict_set (result_avg st) k0 (l ++ [g k0]);
                   list_results := list_results st |}).
    destruct (IH (fun k Hin => Hg k (or_intror Hin)) st1)
      as [st' [Hv [Hlr [Hinner [Hkeys Havg]]]]].
    { intros k Hin. cbn [st1 result_avg]. rewrite dict_get_set.
      destruct (keqb k0 k); [discriminate|]. apply Hst; right; assumption. }
    exists st'. split; [|split; [|split; [|split]]].
    + cbn [foldM]. rewrite (value_bind_ok _ _ st1); [exact Hv|].
      rewrite (value_bind_ok _ _ _ (Hg k0 (or_introl eq_refl))).
      unfold dict_append. rewrite (dict_item_some _ _ _ El), !bind_ret_l.
      reflexivity.
    + rewrite Hlr. reflexivity.
    + intros k. rewrite Hinner. cbn [st1 result_inner].
      unfold key_in; cbn [existsb]. fold (key_in k keys).
      destruct (key_in k keys); [rewrite orb_true_r; reflexivity|].
      rewrite orb_false_r, dict_get_set.
      destruct (keqb_spec k0 k) as [->|Hne].
      * rewrite keqb_refl. reflexivity.
      * rewrite keqb_neq by congruence. reflexivity.
    + rewrite Hkeys. cbn [st1 result_avg].
      apply dict_keys_set_present. congruence.
    + intros k. rewrite Havg, occurrences_cons. cbn [st1 result_avg].
      destruct (keqb_spec k k0) as [->|Hne].
      * rewrite (appended_step _ k0 k0 l (g k0) _ El), keqb_refl. reflexivity.
      * rewrite dict_get_set_other by congruence. reflexivity.
Qed.

Section ReferencesLoop.
Context {ar : Arith} {arl : ArithLaws ar}.
Variable lib : NLTK.
Variable stemmer : option (string -> string).
Variable keys : list RougeKey.
Variable pred_raw : string.

Let pred := _normalize_and_tokenize_text pred_raw stemmer.
Let pred_Lsum :=
  _normalize_and_tokenize_text
    (String.concat (String newline EmptyString) (sent_tokenize lib pred_raw))
    stemmer.
Let sc (t : string) (k : RougeKey) : Score :=
  score_of (reference_score lib stemmer keys pred_raw t k).

Lemma score_reference_spec (st : RefState) (t : string) :
  (forall k, In k keys -> dict_get (result_avg st) k <> None) ->
  exists st' d,
    value (score_reference (Some lib) keys stemmer pred pred_Lsum st t)
      = Ok st' /\
    list_results st' = list_results st ++ [d] /\
    (forall k, In k keys -> dict_get d k = Some (sc t k)) /\
    dict_keys (result_avg st') = dict_keys (result_avg st) /\
    forall k, dict_get (result_avg st') k =
              option_map
                (fun l => l ++ repeat (sc t k) (occurrences k keys))
                (dict_get (result_avg st) k).
Proof.
  intros Hst. unfold score_reference.
  cbn [_add_newline_to_end_of_each_sentence].
  set (tgt := _normalize_and_tokenize_text t stemmer).
  set (x := String.concat _ (sent_tokenize lib t)).
  set (tl := if key_in (KStr "Lsum") keys
             then Some (_normalize_and_tokenize_text x stemmer) else None).
  assert (Etl : (if key_in (KStr "Lsum") keys
                 then x0 <- ret x ;;
                      ret (Some (_normalize_and_tokenize_text x0 stemmer))
                 else ret None) = ret tl).
  { unfold tl. destruct (key_in (KStr "Lsum") keys); reflexivity. }
  rewrite Etl, bind_ret_l.
  destruct (score_keys_spec pred pred_Lsum tgt tl (sc t) keys) with (st := st)
    as [st1 [Hv [Hlr [Hinner [Hkeys Havg]]]]].
  - intros k Hin.
    apply (reference_score_value lib stemmer keys pred_raw t k Hin).
  - assumption.
  - eexists _, (result_inner st1).
    split; [rewrite (value_bind_ok _ _ _ Hv); reflexivity|].
    cbn [list_results result_avg]. rewrite Hlr.
    split; [reflexivity|]. split; [|split; assumption].
    intros k Hin. rewrite Hinner.
    apply key_in_In in Hin. rewrite Hin. reflexivity.
Qed.

Lemma references_loop (refs : list string) :
  forall st, (forall k, In k keys -> dict_get (result_avg st) k <> None) ->
  exists st' ds,
    value (foldM (score_reference (Some lib) keys stemmer pred pred_Lsum)
             refs st) = Ok st' /\
    list_results st' = list_results st ++ ds /\
    Forall2 (fun t d => forall k, In k keys -> dict_get d k = Some (sc t k))
      refs ds /\
    dict_keys (result_avg st') = dict_keys (result_avg st) /\
    forall k, dict_get (result_avg st') k =
              option_map
                (fun l => l ++ flat_map
                                 (fun t => repeat (sc t k) (occurrences k keys))
                                 refs)
                (dict_get (result_avg st) k).
Proof.
  induction refs as [|t refs IH]; intros st Hst.
  - exists st, []. split; [reflexivity|]. rewrite app_nil_r.
    repeat split; try constructor.
    intros k. destruct (dict_get (result_avg st) k); simpl;
      [rewrite app_nil_r|]; reflexivity.
  - destruct (score_reference_spec st t Hst)
      as [st1 [d [Hv1 [Hlr1 [Hd [Hkeys1 Havg1]]]]]].
    destruct (IH st1) as [st' [ds [Hv [Hlr [Hds [Hkeys Havg]]]]]].
    { intros k Hin. rewrite Havg1.
      specialize (Hst k Hin). destruct (dict_get (result_avg st) k);
        [discriminate|congruence]. }
    exists st', (d :: ds). split; [|split; [|split; [|split]]].
    + cbn [foldM]. rewrite (value_bind_ok _ _ _ Hv1). exact Hv.
    + rewrite Hlr, Hlr1, <- app_assoc. reflexivity.
    + constructor; assumption.
    + congruence.
    + intros k. rewrite Havg, Havg1.
      destruct (dict_get (result_avg st) k); simpl; [|reflexivity].
      rewrite <- app_assoc. reflexivity.
Qed.
End ReferencesLoop.

(** ** Accumulation over the references: [best] *)

Lemma Forall2_nth_error_l {A B} (R : A -> B -> Prop) (l : list A) (l' : list B)
  (i : nat) (a : A) :
  Forall2 R l l' -> nth_error l i = Some a ->
  exists b, nth_error l' i = Some b /\ R a b.
Proof.
  intros HF. revert i. induction HF as [|x y l l' Hxy HF IH]; intros [|i] Hi;
    simpl in *; try discriminate.
  - injection Hi as <-. exists y. split; [reflexivity|assumption].
  - apply IH, Hi.
Qed.

Lemma dict_fromkeys_get {K V} `{EqKeyLaws K} (keys : list K) (v0 : V) (k : K) :
  In k keys -> dict_get (dict_fromkeys keys v0) k = Some v0.
Proof.
  intros Hin. unfold dict_fromkeys.
  rewrite (dict_get_fold_set (fun _ => v0)).
  apply key_in_In in Hin. rewrite Hin. reflexivity.
Qed.

Lemma dict_fromkeys_NoDup {K V} `{EqKeyLaws K} (keys : list K) (v0 : V) :
  NoDup (dict_keys (dict_fromkeys keys v0)).
Proof.
  unfold dict_fromkeys. apply (dict_keys_fold_set_NoDup (fun _ => v0)).
  constructor.
Qed.

Lemma keys_present_fromkeys (keys : list RougeKey) :
  keys_present keys (dict_fromkeys keys []).
Proof.
  intros key Hin. rewrite (dict_fromkeys_get keys [] key Hin). discriminate.
Qed.

Lemma appended_present (keys : list RougeKey) (score : RougeKey -> dict string Tensor)
  (results results' : dict RougeKey (list (dict string Tensor))) :
  keys_present keys results -> appended keys score results results' ->
  keys_present keys results'.
Proof.
  intros Hp [_ Hget] key Hin. rewrite Hget.
  specialize (Hp key Hin). destruct (dict_get results key); [discriminate|congruence].
Qed.

(** What [appended] says at a requested key. *)
Lemma appended_at (keys : list RougeKey) (score : RougeKey -> dict string Tensor)
  (results results' : dict RougeKey (list (dict string Tensor)))
  (key : RougeKey) :
  keys_present keys results -> appended keys score results results' ->
  In key keys ->
  exists l, dict_get results key = Some l /\
            dict_get results' key =
            Some (l ++ repeat (score key) (occurrences key keys)).
Proof.
  intros Hp [_ Hget] Hin. specialize (Hp key Hin).
  destruct (dict_get results key) as [l|] eqn:El; [|congruence].
  exists l. split; [reflexivity|]. rewrite Hget, El. reflexivity.
Qed.

Lemma all_fmeasure_spec (key_curr : RougeKey) (sc : string -> RougeKey -> dict string Tensor)
  (refs : list string) (ds : list (dict RougeKey (dict string Tensor))) :
  Forall2 (fun t d => dict_get d key_curr = Some (sc t key_curr)) refs ds ->
  (forall t, dict_get (sc t key_curr) "fmeasure" =
             Some (tensor (fmeasure_of (sc t key_curr)))) ->
  mapM (fun v => s <- dict_item v key_curr ;; dict_item s "fmeasure") ds =
  ret (map tensor (map (fun t => fmeasure_of (sc t key_curr)) refs)).
Proof.
  intros HF Hf. induction HF as [|t d refs ds Hd HF IH]; [reflexivity|].
  cbn [mapM map].
  rewrite (dict_item_some _ _ _ Hd), bind_ret_l.
  rewrite (dict_item_some _ _ _ (Hf t)), bind_ret_l.
  rewrite IH, !bind_ret_l. reflexivity.
Qed.

Lemma accumulate_best_spec (key_curr : RougeKey) (other_keys : list RougeKey)
  (sc : string -> RougeKey -> dict string Tensor) (refs : list string)
  (st : RefState) :
  let keys := key_curr :: other_keys in
  refs <> [] ->
  Forall2 (fun t d => forall k, In k keys -> dict_get d k = Some (sc t k))
    refs (list_results st) ->
  (forall t, dict_get (sc t key_curr) "fmeasure" =
             Some (tensor (fmeasure_of (sc t key_curr)))) ->
  exists i best_ref,
    nth_error refs i = Some best_ref /\
    first_maximum (map (fun t => fmeasure_of (sc t key_curr)) refs) i /\
    forall results, keys_present keys results ->
      exists results',
        value (accumulate_best keys st results) = Ok results' /\
        appended keys (sc best_ref) results results'.
Proof.
  intros keys Hrefs HF Hf.
  destruct (argmax_first_maximum
              (map (fun t => fmeasure_of (sc t key_curr)) refs))
    as [i [Hargmax Hfirst]].
  { destruct refs; [congruence|discriminate]. }
  assert (Hi : exists best_ref, nth_error refs i = Some best_ref).
  { destruct Hfirst as [x [Hx _]].
    destruct (nth_error refs i) as [t|] eqn:Et; [eauto|].
    rewrite nth_error_map, Et in Hx. discriminate. }
  destruct Hi as [best_ref Hbest].
  destruct (Forall2_nth_error_l _ _ _ _ _ HF Hbest) as [d [Hd Hdk]].
  exists i, best_ref. split; [assumption|]. split; [assumption|].
  intros results Hres.
  destruct (append_loop (sc best_ref)
              (fun results rouge_key =>
                 l <- dict_item results rouge_key ;;
                 v <- list_item (list_results st) i ;;
                 s <- dict_item v rouge_key ;;
                 ret (dict_set results rouge_key (l ++ [s])))
              keys) with (d := results) as [results' [Hv Happ]].
  - intros r k l Hin El.
    rewrite (dict_item_some _ _ _ El), bind_ret_l.
    rewrite (list_item_some _ _ _ Hd), bind_ret_l.
    rewrite (dict_item_some _ _ _ (Hdk k Hin)), bind_ret_l. reflexivity.
  - exact Hres.
  - exists results'. split; [|exact Happ].
    unfold accumulate_best. cbn [keys list_item nth_error].
    rewrite bind_ret_l.
    rewrite (all_fmeasure_spec key_curr sc refs (list_results st)), bind_ret_l.
    + rewrite Hargmax, bind_ret_l. exact Hv.
    + eapply Forall2_impl; [|exact HF]. intros t d0 H0. apply H0. left; reflexivity.
    + assumption.
Qed.

(** One example in [best] mode: the reference is chosen once, whatever
    [results] holds, and its scores are appended for every key. *)
Lemma update_example_best {ar : Arith} {arl : ArithLaws ar} (lib : NLTK) (stemmer : option (string -> string))
  (key_curr : RougeKey) (other_keys : list RougeKey) (pred_raw : string)
  (refs : list string) :
  let keys := key_curr :: other_keys in
  let sc := fun t key =>
              score_of (reference_score lib stemmer keys pred_raw t key) in
  refs <> [] ->
  exists i best_ref,
    nth_error refs i = Some best_ref /\
    first_maximum (map (fun t => fmeasure_of (sc t key_curr)) refs) i /\
    forall results, keys_present keys results ->
      exists results',
        value (update_example (Some lib) keys "best" stemmer results
                 (pred_raw, refs)) = Ok results' /\
        appended keys (sc best_ref) results results'.
Proof.
  intros keys sc Hrefs.
  destruct (references_loop lib stemmer keys pred_raw refs
              {| result_inner := dict_fromkeys keys [];
                 result_avg := dict_fromkeys keys [];
                 list_results := [] |})
    as [st [ds [Hv [Hlr [HF _]]]]].
  { apply keys_present_fromkeys. }
  cbn [list_results app] in Hlr.
  destruct (accumulate_best_spec key_curr other_keys sc refs st)
    as [i [best_ref [Hi [Hfirst Hacc]]]]; try assumption.
  - rewrite Hlr. exact HF.
  - intros t.
    destruct (reference_score_value lib stemmer keys pred_raw t key_curr)
      as [_ Hs]; [left; reflexivity|].
    fold (sc t key_curr) in Hs. unfold well_formed_score in Hs.
    rewrite Hs at 1. reflexivity.
  - exists i, best_ref. split; [assumption|]. split; [assumption|].
    intros results Hres. destruct (Hacc results Hres) as [results' [Hv' Happ]].
    exists results'. split; [|exact Happ].
    unfold update_example. cbn [_add_newline_to_end_of_each_sentence].
    rewrite bind_ret_l, (value_bind_ok _ _ _ Hv). exact Hv'.
Qed.

(** C1.  In [best] mode, for an example with at least one reference and a
    non-empty list of keys, the score appended for every requested key is
    the score, for that key, of one and the same reference: the first
    reference whose fmeasure for the first requested key is maximal.  The
    fmeasures compared are the values the tensors hold; the statement is
    proved for every arithmetic, so also for [ieee_arith], where they are
    the float32 values of the program. *)
Theorem best_mode_single_reference {ar : Arith} {arl : ArithLaws ar}
  (lib : NLTK) (stemmer : option (string -> string)) (key_curr : RougeKey)
  (other_keys : list RougeKey) (pred_raw : string) (refs : list string)
  (results : dict RougeKey (list (dict string Tensor))) :
  let keys := key_curr :: other_keys in
  let sc := fun t key =>
              score_of (reference_score lib stemmer keys pred_raw t key) in
  refs <> [] ->
  keys_present keys results ->
  (forall t key, In key keys ->
      value (reference_score lib stemmer keys pred_raw t key) = Ok (sc t key) /\
      well_formed_score (sc t key)) /\
  exists i best_ref results',
    nth_error refs i = Some best_ref /\
    first_maximum (map (fun t => fmeasure_of (sc t key_curr)) refs) i /\
    value (update_example (Some lib) keys "best" stemmer results
             (pred_raw, refs)) = Ok results' /\
    forall key, In key keys ->
      exists l, dict_get results key = Some l /\
                dict_get results' key =
                Some (l ++ repeat (sc best_ref key) (occurrences key keys)).
Proof.
  intros keys sc Hrefs Hres. split.
  - intros t key Hin. apply reference_score_value, Hin.
  - destruct (update_example_best lib stemmer key_curr other_keys pred_raw
                refs Hrefs) as [i [best_ref [Hi [Hfirst Hupd]]]].
    destruct (Hupd results Hres) as [results' [Hv Happ]].
    exists i, best_ref, results'. repeat split; try assumption.
    intros key Hin. eapply appended_at; eassumption.
Qed.

Lemma best_mode_single_reference_witness :
  let keys := [KInt 1; KStr "L"] in
  let pred_raw := "a b c d" in
  let refs := ["a b c x"; "d c b a"] in
  let results := dict_fromkeys keys [] in
  let sc := fun t key =>
              score_of (reference_score (ar := ieee_arith) plain_nltk None keys
                          pred_raw t key) in
  (forall t key, In key keys ->
      value (reference_score (ar := ieee_arith) plain_nltk None keys pred_raw
               t key) = Ok (sc t key) /\
      well_formed_score (sc t key)) /\
  exists i best_ref results',
    nth_error refs i = Some best_ref /\
    first_maximum (map (fun t => fmeasure_of (sc t (KInt 1))) refs) i /\
    value (update_example (ar := ieee_arith) (Some plain_nltk) keys "best"
             None results (pred_raw, refs)) = Ok results' /\
    forall key, In key keys ->
      exists l, dict_get results key = Some l /\
                dict_get results' key =
                Some (l ++ repeat (sc best_ref key) (occurrences key keys)).
Proof.
  apply (best_mode_single_reference (ar := ieee_arith) plain_nltk None
           (KInt 1) [KStr "L"] "a b c d" ["a b c x"; "d c b a"]
           (dict_fromkeys [KInt 1; KStr "L"] [])).
  - discriminate.
  - intros key [<-|[<-|[]]]; discriminate.
Defined.

(** A near tie.  A prediction of 3071 unigrams has 2049 matches with a
    first reference of 3075 unigrams and 2048 matches with a second one of
    3072.  The exact fmeasures are 4098/6146 < 4096/6143, and [argmax] on
    them is the second reference; as float32 values both are
    11186631/2^24 (0.6667751669883728), and [argmax] is the first
    reference, which is the one the program reports. *)
Example best_mode_near_tie :
  (exists p1 r1 f1 p2 r2 f2 : Q,
     _compute_metrics (ar := ieee_arith) 2049 3071 3075
       = ret (mk_score p1 r1 f1) /\
     _compute_metrics (ar := ieee_arith) 2048 3071 3072
       = ret (mk_score p2 r2 f2) /\
     (f1 == 11186631 # 16777216)%Q /\ (f2 == 11186631 # 16777216)%Q /\
     (p1 == 2798479 # 4194304)%Q /\
     argmax [tensor f1; tensor f2] = ret 0%nat) /\
  (exists p1 r1 f1 p2 r2 f2 : Q,
     _compute_metrics (ar := exact_arith) 2049 3071 3075
       = ret (mk_score p1 r1 f1) /\
     _compute_metrics (ar := exact_arith) 2048 3071 3072
       = ret (mk_score p2 r2 f2) /\
     (f1 == 4098 # 6146)%Q /\ (f2 == 4096 # 6143)%Q /\
     (p2 == 2048 # 3071)%Q /\
     argmax [tensor f1; tensor f2] = ret 1%nat).
Proof.
  split; eexists _, _, _, _, _, _;
    (split; [vm_compute; reflexivity|]);
    (split; [vm_compute; reflexivity|]);
    repeat (split; [reflexivity|]); reflexivity.
Qed.

(** The coupling at work: the second reference wins on ROUGE-1 (fmeasure 1
    against 3/4), so its ROUGE-L score (1/4) is reported although the first
    reference has the better ROUGE-L (3/4). *)
Example best_mode_coupling :
  exists out tr,
    rouge_score (Some plain_nltk) (PredStr "a b c d")
      (TargetList ["a b c x"; "d c b a"]) "best" false
      (KeysTuple ["rouge1"; "rougeL"]) = (Ok out, tr) /\
    same_scores out
      [("rouge1_fmeasure", 1); ("rouge1_precision", 1); ("rouge1_recall", 1);
       ("rougeL_fmeasure", 0.25); ("rougeL_precision", 0.25);
       ("rougeL_recall", 0.25)]%Q /\
    (exists s, value (reference_score plain_nltk None [KInt 1; KStr "L"]
                        "a b c d" "a b c x" (KStr "L")) = Ok s /\
               (fmeasure_of s == 0.75)%Q).
Proof.
  eexists _, _. split; [vm_compute; reflexivity|]. split.
  - unfold same_scores. repeat constructor.
  - eexists. split; [vm_compute; reflexivity|]. reflexivity.
Qed.

(** ** Accumulation over the references: [avg] *)

Lemma tensor_values_map (qs : list Q) : tensor_values (map tensor qs) = Some qs.
Proof. induction qs as [|q qs IH]; simpl; [|rewrite IH]; reflexivity. Qed.

Lemma tensor_mean_map (qs : list Q) :
  qs <> [] -> tensor_mean (map tensor qs) = tensor (Qmean qs).
Proof.
  destruct qs as [|q qs]; [congruence|]. intros _.
  unfold tensor_mean. cbn [map].
  change (tensor q :: map tensor qs) with (map tensor (q :: qs)).
  rewrite tensor_values_map. reflexivity.
Qed.

Lemma metric_score_batch_from (metrics : list (dict string Tensor)) :
  Forall well_formed_score metrics ->
  forall a b c : list Tensor,
    fold_left (fun batch metric =>
      fold_left (fun batch tv =>
                   let l := match dict_get batch (fst tv) with
                            | Some l => l
                            | None => []
                            end in
                   dict_set batch (fst tv) (l ++ [snd tv]))
        metric batch)
      metrics [("precision", a); ("recall", b); ("fmeasure", c)] =
    [("precision", a ++ map tensor (map precision_of metrics));
     ("recall", b ++ map tensor (map recall_of metrics));
     ("fmeasure", c ++ map tensor (map fmeasure_of metrics))].
Proof.
  induction 1 as [|s metrics Hs HF IH]; intros a b c.
  - cbn [fold_left map]. rewrite !app_nil_r. reflexivity.
  - cbn [fold_left map]. unfold well_formed_score in Hs.
    set (p := precision_of s) in *. set (r := recall_of s) in *.
    set (f := fmeasure_of s) in *. rewrite Hs.
    change (fold_left _ (mk_score p r f) _)
      with [("precision", a ++ [tensor p]); ("recall", b ++ [tensor r]);
            ("fmeasure", c ++ [tensor f])].
    rewrite IH, <- !app_assoc. reflexivity.
Qed.

Lemma metric_score_batch_scores (metrics : list (dict string Tensor)) :
  Forall well_formed_score metrics -> metrics <> [] ->
  metric_score_batch metrics =
  [("precision", map tensor (map precision_of metrics));
   ("recall", map tensor (map recall_of metrics));
   ("fmeasure", map tensor (map fmeasure_of metrics))].
Proof.
  intros HF Hne. destruct HF as [|s metrics Hs HF]; [congruence|].
  unfold metric_score_batch. cbn [fold_left map].
  unfold well_formed_score in Hs.
  set (p := precision_of s) in *. set (r := recall_of s) in *.
  set (f := fmeasure_of s) in *. rewrite Hs.
  change (fold_left _ (mk_score p r f) [])
    with [("precision", [tensor p]); ("recall", [tensor r]);
          ("fmeasure", [tensor f])].
  rewrite (metric_score_batch_from metrics HF). reflexivity.
Qed.

(** The score [avg] builds from the scores of one key (lines 254-263). *)
Lemma mean_scores_fields (metrics : list (dict string Tensor)) :
  Forall well_formed_score metrics ->
  mean_scores metrics =
  match metrics with
  | [] => []
  | _ :: _ => mk_score (Qmean (map precision_of metrics))
                (Qmean (map recall_of metrics))
                (Qmean (map fmeasure_of metrics))
  end.
Proof.
  intros HF. destruct metrics as [|s metrics]; [reflexivity|].
  unfold mean_scores.
  rewrite (metric_score_batch_scores _ HF) by discriminate.
  cbn [map fst snd].
  change (tensor (precision_of s) :: map tensor (map precision_of metrics))
    with (map tensor (map precision_of (s :: metrics))).
  change (tensor (recall_of s) :: map tensor (map recall_of metrics))
    with (map tensor (map recall_of (s :: metrics))).
  change (tensor (fmeasure_of s) :: map tensor (map fmeasure_of metrics))
    with (map tensor (map fmeasure_of (s :: metrics))).
  rewrite !tensor_mean_map by discriminate. reflexivity.
Qed.

(** The mean is unchanged when every value is repeated the same number of
    times. *)
Lemma Qsum_app (a b : list Q) : (Qsum (a ++ b) == Qsum a + Qsum b)%Q.
Proof.
  unfold Qsum. induction a as [|x a IH]; cbn [app fold_right]; [lra|].
  rewrite IH. lra.
Qed.

Lemma Qsum_repeat (x : Q) (c : nat) :
  (Qsum (repeat x c) == inject_Z (Z.of_nat c) * x)%Q.
Proof.
  unfold Qsum. induction c as [|c IH];
    [cbn [repeat fold_right Z.of_nat]; change (inject_Z 0) with 0%Q; lra|].
  rewrite Nat2Z.inj_succ. unfold Z.succ. rewrite inject_Z_plus.
  cbn [repeat fold_right]. rewrite IH.
  change (inject_Z 1) with 1%Q. lra.
Qed.

Lemma Qsum_repeated {A} (h : A -> Q) (c : nat) (l : list A) :
  (Qsum (flat_map (fun t => repeat (h t) c) l) ==
   inject_Z (Z.of_nat c) * Qsum (map h l))%Q.
Proof.
  induction l as [|t l IH]; cbn [flat_map map]; [unfold Qsum; cbn [fold_right]; lra|].
  rewrite Qsum_app, Qsum_repeat, IH.
  unfold Qsum. cbn [fold_right]. lra.
Qed.

Lemma length_repeated {A B} (h : A -> B) (c : nat) (l : list A) :
  List.length (flat_map (fun t => repeat (h t) c) l) = (c * List.length l)%nat.
Proof.
  induction l as [|t l IH]; cbn [flat_map List.length]; [lia|].
  rewrite length_app, repeat_length, IH. lia.
Qed.

Lemma map_repeated {A B C} (f : B -> C) (h : A -> B) (c : nat) (l : list A) :
  map f (flat_map (fun t => repeat (h t) c) l) =
  flat_map (fun t => repeat (f (h t)) c) l.
Proof.
  induction l as [|t l IH]; cbn [flat_map map]; [reflexivity|].
  rewrite map_app, IH, map_repeat. reflexivity.
Qed.

Lemma Qmean_repeated {A} (h : A -> Q) (c : nat) (l : list A) :
  (1 <= c)%nat -> l <> [] ->
  (Qmean (flat_map (fun t => repeat (h t) c) l) == Qmean (map h l))%Q.
Proof.
  intros Hc Hl. unfold Qmean.
  rewrite Qsum_repeated, length_repeated, length_map.
  rewrite Nat2Z.inj_mul, inject_Z_mult.
  assert (Hc' : (0 < inject_Z (Z.of_nat c))%Q).
  { change 0%Q with (inject_Z 0). rewrite <- Zlt_Qlt. lia. }
  assert (Hn : (0 < inject_Z (Z.of_nat (List.length l)))%Q).
  { change 0%Q with (inject_Z 0). rewrite <- Zlt_Qlt.
    destruct l; [congruence|simpl; lia]. }
  field. split; lra.
Qed.

Lemma accumulate_avg_spec (keys : list RougeKey) (st : RefState)
  (metrics_of : RougeKey -> list (dict string Tensor)) :
  NoDup (dict_keys (result_avg st)) ->
  (forall k, In k keys -> dict_get (result_avg st) k = Some (metrics_of k)) ->
  forall results, keys_present keys results ->
    exists results',
      value (accumulate_avg keys st results) = Ok results' /\
      appended keys (fun k => mean_scores (metrics_of k)) results results'.
Proof.
  intros Hnd Havg results Hres. unfold accumulate_avg.
  apply (append_loop (fun k => mean_scores (metrics_of k))); [|assumption].
  intros d k l Hin El. cbv beta.
  rewrite (dict_item_some _ _ _ El), bind_ret_l.
  rewrite (dict_item_some _ _ (mean_scores (metrics_of k))), bind_ret_l;
    [reflexivity|].
  rewrite (dict_get_fold_items mean_scores (result_avg st) Hnd).
  rewrite (Havg k Hin). reflexivity.
Qed.

(** The score appended for one key in [avg] mode. *)
Lemma averaged_reference_scores (sc : string -> dict string Tensor)
  (refs : list string) (c : nat) :
  (forall t, well_formed_score (sc t)) -> (1 <= c)%nat ->
  let avg := mean_scores (flat_map (fun t => repeat (sc t) c) refs) in
  (refs = [] -> avg = []) /\
  (refs <> [] ->
   exists p r f,
     avg = mk_score p r f /\
     (p == Qmean (map (fun t => precision_of (sc t)) refs))%Q /\
     (r == Qmean (map (fun t => recall_of (sc t)) refs))%Q /\
     (f == Qmean (map (fun t => fmeasure_of (sc t)) refs))%Q).
Proof.
  intros Hwf Hc avg. split; [intros ->; reflexivity|]. intros Hne.
  assert (HF : Forall well_formed_score (flat_map (fun t => repeat (sc t) c) refs)).
  { apply Forall_forall. intros s Hs.
    apply in_flat_map in Hs as [t [_ Hs]]. apply repeat_spec in Hs. subst s.
    apply Hwf. }
  unfold avg. rewrite (mean_scores_fields _ HF).
  destruct (flat_map (fun t => repeat (sc t) c) refs) as [|s0 ms] eqn:Em.
  { exfalso. apply (f_equal (@List.length _)) in Em.
    rewrite length_repeated in Em.
    destruct refs; [congruence|]. simpl in Em. lia. }
  rewrite <- Em. eexists _, _, _. split; [reflexivity|].
  rewrite !map_repeated.
  repeat split; apply Qmean_repeated; assumption.
Qed.

(** One example in [avg] mode. *)
Lemma update_example_avg {ar : Arith} {arl : ArithLaws ar} (lib : NLTK) (stemmer : option (string -> string))
  (keys : list RougeKey) (pred_raw : string) (refs : list string) :
  let sc := fun t key =>
              score_of (reference_score lib stemmer keys pred_raw t key) in
  let avg := fun key =>
    mean_scores
      (flat_map (fun t => repeat (sc t key) (occurrences key keys)) refs) in
  forall results, keys_present keys results ->
    exists results',
      value (update_example (Some lib) keys "avg" stemmer results
               (pred_raw, refs)) = Ok results' /\
      appended keys avg results results'.
Proof.
  intros sc avg results Hres.
  destruct (references_loop lib stemmer keys pred_raw refs
              {| result_inner := dict_fromkeys keys [];
                 result_avg := dict_fromkeys keys [];
                 list_results := [] |})
    as [st [ds [Hv [_ [_ [Hkeys Havg]]]]]].
  { apply keys_present_fromkeys. }
  cbn [result_avg] in Hkeys, Havg.
  destruct (accumulate_avg_spec keys st
              (fun k => flat_map
                          (fun t => repeat (sc t k) (occurrences k keys)) refs))
    with (results := results) as [results' [Hacc Happ]]; try assumption.
  { rewrite Hkeys. apply dict_fromkeys_NoDup. }
  { intros k Hin. rewrite Havg, (dict_fromkeys_get keys [] k Hin).
    reflexivity. }
  exists results'. split; [|exact Happ].
  unfold update_example. cbn [_add_newline_to_end_of_each_sentence].
  rewrite bind_ret_l, (value_bind_ok _ _ _ Hv). exact Hacc.
Qed.

(** C3.  In [avg] mode, for every example and every requested key, the
    score appended has each of its fields equal to the arithmetic mean of
    that field over the scores of the references for that key (with no
    reference the score has no field). *)
Theorem avg_mode_field_means (lib : NLTK) (stemmer : option (string -> string))
  (keys : list RougeKey) (pred_raw : string) (refs : list string)
  (results : dict RougeKey (list (dict string Tensor))) :
  let sc := fun t key =>
              score_of (reference_score lib stemmer keys pred_raw t key) in
  keys_present keys results ->
  (forall t key, In key keys ->
      value (reference_score lib stemmer keys pred_raw t key) = Ok (sc t key) /\
      well_formed_score (sc t key)) /\
  exists results',
    value (update_example (Some lib) keys "avg" stemmer results
             (pred_raw, refs)) = Ok results' /\
    forall key, In key keys ->
      exists l avg,
        dict_get results key = Some l /\
        dict_get results' key = Some (l ++ repeat avg (occurrences key keys)) /\
        (refs = [] -> avg = []) /\
        (refs <> [] ->
         exists p r f,
           avg = mk_score p r f /\
           (p == Qmean (map (fun t => precision_of (sc t key)) refs))%Q /\
           (r == Qmean (map (fun t => recall_of (sc t key)) refs))%Q /\
           (f == Qmean (map (fun t => fmeasure_of (sc t key)) refs))%Q).
Proof.
  intros sc Hres. split.
  - intros t key Hin. apply reference_score_value, Hin.
  - destruct (update_example_avg lib stemmer keys pred_raw refs results Hres)
      as [results' [Hv Happ]].
    exists results'. split; [exact Hv|]. intros key Hin.
    destruct (appended_at _ _ _ _ key Hres Happ Hin) as [l [El El']].
    exists l. eexists. split; [exact El|]. split; [exact El'|].
    apply (averaged_reference_scores (fun t => sc t key)).
    + intros t. apply (reference_score_value lib stemmer keys pred_raw t key Hin).
    + apply occurrences_pos, Hin.
Qed.

Lemma avg_mode_field_means_witness :
  let keys := [KInt 1; KStr "L"] in
  let pred_raw := "a b c d" in
  let refs := ["a b c x"; "d c b a"; "a b"] in
  let results := dict_fromkeys keys [] in
  let sc := fun t key =>
              score_of (reference_score plain_nltk None keys pred_raw t key) in
  (forall t key, In key keys ->
      value (reference_score plain_nltk None keys pred_raw t key)
        = Ok (sc t key) /\
      well_formed_score (sc t key)) /\
  exists results',
    value (update_example (Some plain_nltk) keys "avg" None results
             (pred_raw, refs)) = Ok results' /\
    forall key, In key keys ->
      exists l avg,
        dict_get results key = Some l /\
        dict_get results' key = Some (l ++ repeat avg (occurrences key keys)) /\
        (refs = [] -> avg = []) /\
        (refs <> [] ->
         exists p r f,
           avg = mk_score p r f /\
           (p == Qmean (map (fun t => precision_of (sc t key)) refs))%Q /\
           (r == Qmean (map (fun t => recall_of (sc t key)) refs))%Q /\
           (f == Qmean (map (fun t => fmeasure_of (sc t key)) refs))%Q).
Proof.
  apply (avg_mode_field_means plain_nltk None [KInt 1; KStr "L"]
           "a b c d" ["a b c x"; "d c b a"; "a b"]
           (dict_fromkeys [KInt 1; KStr "L"] [])).
  intros key [<-|[<-|[]]]; discriminate.
Defined.

(** The mean is taken field by field: with references scoring
    (1/2, 1, 2/3) and (1, 1/2, 2/3) on ROUGE-1, the averaged fmeasure is 2/3,
    not the harmonic mean 3/4 of the averaged precision and recall. *)
Example avg_mode_not_rederived :
  exists out tr,
    rouge_score (Some plain_nltk) (PredStr "a b")
      (TargetList ["a"; "a b c d"]) "avg" false (KeysStr "rouge1")
    = (Ok out, tr) /\
    same_scores out
      [("rouge1_fmeasure", 2 # 3); ("rouge1_precision", 3 # 4);
       ("rouge1_recall", 3 # 4)]%Q.
Proof.
  eexists _, _. split; [vm_compute; reflexivity|].
  unfold same_scores. repeat constructor.
Qed.

(** ** The whole batch *)

(** The loop over the examples appends, example after example, the scores
    each of them contributes. *)
Lemma update_batch {ar : Arith} (nltk : option NLTK) (keys : list RougeKey)
  (accumulate : string) (stemmer : option (string -> string))
  (batch : list (string * list string))
  (scores : list (RougeKey -> dict string Tensor)) :
  Forall2 (fun ex score =>
             forall results, keys_present keys results ->
               exists results',
                 value (update_example nltk keys accumulate stemmer results ex)
                   = Ok results' /\
                 appended keys score results results')
    batch scores ->
  forall results, keys_present keys results ->
    exists results',
      value (foldM (update_example nltk keys accumulate stemmer) batch results)
        = Ok results' /\
      forall key, dict_get results' key =
                  option_map
                    (fun l => l ++ flat_map
                                     (fun score =>
                                        repeat (score key) (occurrences key keys))
                                     scores)
                    (dict_get results key).
Proof.
  induction 1 as [|ex score batch scores Hex HF IH]; intros results Hres.
  - exists results. split; [reflexivity|]. intros key.
    destruct (dict_get results key); simpl; [rewrite app_nil_r|]; reflexivity.
  - destruct (Hex results Hres) as [results1 [Hv1 Happ]].
    destruct (IH results1 (appended_present _ _ _ _ Hres Happ))
      as [results' [Hv Hget]].
    exists results'. split.
    + cbn [foldM]. rewrite (value_bind_ok _ _ _ Hv1). exact Hv.
    + intros key. rewrite Hget. destruct Happ as [_ Hget1]. rewrite Hget1.
      destruct (dict_get results key); simpl; [|reflexivity].
      rewrite <- app_assoc. reflexivity.
Qed.

Lemma Forall2_choice {A B} (R : A -> B -> Prop) (l : list A) :
  (forall x, In x l -> exists y, R x y) -> exists l', Forall2 R l l'.
Proof.
  induction l as [|x l IH]; intros HR.
  - exists []. constructor.
  - destruct (HR x (or_introl eq_refl)) as [y Hy].
    destruct (IH (fun x Hin => HR x (or_intror Hin))) as [l' Hl'].
    exists (y :: l'). constructor; assumption.
Qed.

Lemma Forall2_map_combine {A B C} (R : A -> B -> Prop) (Q : A -> C -> Prop)
  (g : A * B -> C) (l : list A) (l' : list B) :
  Forall2 R l l' -> (forall x y, R x y -> Q x (g (x, y))) ->
  Forall2 Q l (map g (combine l l')).
Proof.
  intros HF HQ. induction HF as [|x y l l' Hxy HF IH]; simpl; constructor; auto.
Qed.

(** [best] mode on a batch whose examples all have a reference: every
    example contributes, for every key, the score of the one reference
    chosen for it. *)
Corollary best_mode_batch {ar : Arith} {arl : ArithLaws ar} (lib : NLTK) (stemmer : option (string -> string))
  (key_curr : RougeKey) (other_keys : list RougeKey)
  (preds : list string) (target : list (list string)) :
  let keys := key_curr :: other_keys in
  let batch := combine preds target in
  let sc := fun pred_raw t key =>
              score_of (reference_score lib stemmer keys pred_raw t key) in
  (forall ex, In ex batch -> snd ex <> []) ->
  exists chosen : list string,
    Forall2 (fun ex best_ref =>
               exists i,
                 nth_error (snd ex) i = Some best_ref /\
                 first_maximum
                   (map (fun t => fmeasure_of (sc (fst ex) t key_curr)) (snd ex))
                   i)
      batch chosen /\
    exists results,
      value (_rouge_score_update (Some lib) keys "best" stemmer preds target)
        = Ok results /\
      forall key, In key keys ->
        dict_get results key =
        Some (flat_map
                (fun ec => repeat (sc (fst (fst ec)) (snd ec) key)
                             (occurrences key keys))
                (combine batch chosen)).
Proof.
  intros keys batch sc Hrefs.
  destruct (Forall2_choice
              (fun ex best_ref =>
                 (exists i,
                     nth_error (snd ex) i = Some best_ref /\
                     first_maximum
                       (map (fun t => fmeasure_of (sc (fst ex) t key_curr))
                          (snd ex)) i) /\
                 forall results, keys_present keys results ->
                   exists results',
                     value (update_example (Some lib) keys "best" stemmer
                              results ex) = Ok results' /\
                     appended keys (sc (fst ex) best_ref) results results')
              batch) as [chosen Hchosen].
  { intros [pred_raw refs] Hin.
    destruct (update_example_best lib stemmer key_curr other_keys pred_raw refs
                (Hrefs _ Hin)) as [i [best_ref [Hi [Hfirst Hupd]]]].
    exists best_ref. split; [exists i; split; assumption|exact Hupd]. }
  exists chosen. split.
  { eapply Forall2_impl; [|exact Hchosen]. intros ex best_ref [H _]. exact H. }
  destruct (update_batch (Some lib) keys "best" stemmer batch
              (map (fun ec => sc (fst (fst ec)) (snd ec)) (combine batch chosen)))
    with (results := dict_fromkeys keys ([] : list (dict string Tensor)))
    as [results [Hv Hget]].
  { apply (Forall2_map_combine _ _ _ _ _ Hchosen).
    intros ex best_ref [_ H]. exact H. }
  { apply keys_present_fromkeys. }
  exists results. split; [exact Hv|].
  intros key Hin. rewrite Hget, (dict_fromkeys_get keys [] key Hin).
  cbn [option_map app]. rewrite flat_map_concat_map, map_map,
    <- flat_map_concat_map. reflexivity.
Qed.

(** [avg] mode on a batch: every example contributes, for every key, the
    field-wise mean of the scores of its references. *)
Corollary avg_mode_batch {ar : Arith} {arl : ArithLaws ar} (lib : NLTK) (stemmer : option (string -> string))
  (keys : list RougeKey) (preds : list string) (target : list (list string)) :
  let sc := fun pred_raw t key =>
              score_of (reference_score lib stemmer keys pred_raw t key) in
  let avg := fun (ex : string * list string) key =>
    mean_scores
      (flat_map (fun t => repeat (sc (fst ex) t key) (occurrences key keys))
         (snd ex)) in
  exists results,
    value (_rouge_score_update (Some lib) keys "avg" stemmer preds target)
      = Ok results /\
    forall key, In key keys ->
      dict_get results key =
      Some (flat_map (fun ex => repeat (avg ex key) (occurrences key keys))
              (combine preds target)).
Proof.
  intros sc avg.
  destruct (update_batch (Some lib) keys "avg" stemmer (combine preds target)
              (map avg (combine preds target)))
    with (results := dict_fromkeys keys ([] : list (dict string Tensor)))
    as [results [Hv Hget]].
  { induction (combine preds target) as [|[pred_raw refs] batch IH];
      simpl; constructor; [|exact IH].
    apply (update_example_avg lib stemmer keys pred_raw refs). }
  { apply keys_present_fromkeys. }
  exists results. split; [exact Hv|].
  intros key Hin. rewrite Hget, (dict_fromkeys_get keys [] key Hin).
  cbn [option_map app]. rewrite flat_map_concat_map, map_map,
    <- flat_map_concat_map. reflexivity.
Qed.

(** * Further properties of the module *)

(** ** Metric derivation, case by case *)

Lemma compute_metrics_cases (count pred_len target_len : Z) :
  (1 <= pred_len)%Z -> (1 <= target_len)%Z ->
  let p := (inject_Z count / inject_Z pred_len)%Q in
  let r := (inject_Z count / inject_Z target_len)%Q in
  (count = 0%Z /\ _compute_metrics count pred_len target_len = ret zero_score) \/
  (count <> 0%Z /\
   _compute_metrics count pred_len target_len =
   ret (mk_score p r (2 * p * r / (p + r)))).
Proof.
  intros Ha Hb p r. rewrite compute_metrics_exact.
  replace (pred_len =? 0)%Z with false by (symmetry; apply Z.eqb_neq; lia).
  replace (target_len =? 0)%Z with false by (symmetry; apply Z.eqb_neq; lia).
  cbn [orb]. fold p r.
  pose proof (inject_Z_pos _ Ha) as Ha'. pose proof (inject_Z_pos _ Hb) as Hb'.
  assert (Hpa : (p * inject_Z pred_len == inject_Z count)%Q)
    by (unfold p; field; lra).
  assert (Hrb : (r * inject_Z target_len == inject_Z count)%Q)
    by (unfold r; field; lra).
  destruct (Z.eq_dec count 0) as [->|Hc].
  - left. split; [reflexivity|].
    change (inject_Z 0) with 0%Q in Hpa, Hrb.
    assert (Hp0 : (p == 0)%Q) by nra. assert (Hr0 : (r == 0)%Q) by nra.
    replace (Qeq_bool p r) with true
      by (symmetry; apply Qeq_bool_iff; lra).
    replace (Qeq_bool r 0) with true
      by (symmetry; apply Qeq_bool_iff; lra).
    reflexivity.
  - right. split; [assumption|].
    assert (Hx : ~ (inject_Z count == 0)%Q).
    { change 0%Q with (inject_Z 0). rewrite inject_Z_injective. assumption. }
    assert (Hr0 : ~ (r == 0)%Q) by (intros E; apply Hx; nra).
    assert (Hs : ~ (p + r == 0)%Q).
    { intros E. apply Hr0.
      assert (E' : (r * (inject_Z pred_len + inject_Z target_len) == 0)%Q) by nra.
      apply Qmult_integral in E' as [E'|E']; [assumption|lra]. }
    replace (Qeq_bool r 0) with false
      by (symmetry; apply not_true_iff_false; rewrite Qeq_bool_iff; assumption).
    rewrite andb_false_r.
    replace (Qeq_bool (p + r) 0) with false
      by (symmetry; apply not_true_iff_false; rewrite Qeq_bool_iff; assumption).
    reflexivity.
Qed.

(** When the count exceeds neither length, the three fields are
    proportions. *)
Lemma compute_metrics_unit (count pred_len target_len : Z) :
  (0 <= count)%Z -> (count <= pred_len)%Z -> (count <= target_len)%Z ->
  (1 <= pred_len)%Z -> (1 <= target_len)%Z ->
  exists p r f,
    _compute_metrics count pred_len target_len = ret (mk_score p r f) /\
    (0 <= p <= 1)%Q /\ (0 <= r <= 1)%Q /\ (0 <= f <= 1)%Q.
Proof.
  intros H0 Hca Hcb Ha Hb.
  destruct (compute_metrics_returns count pred_len target_len Ha Hb)
    as [p [r [f [E [Hp [Hr [_ [_ Hf]]]]]]]].
  specialize (Hf H0). exists p, r, f. split; [exact E|].
  pose proof (inject_Z_pos _ Ha) as Ha'. pose proof (inject_Z_pos _ Hb) as Hb'.
  pose proof (inject_Z_nonneg _ H0) as Hc'.
  assert (Hca' : (inject_Z count <= inject_Z pred_len)%Q)
    by (rewrite <- Zle_Qle; assumption).
  assert (Hcb' : (inject_Z count <= inject_Z target_len)%Q)
    by (rewrite <- Zle_Qle; assumption).
  assert (Hp1 : (0 <= p <= 1)%Q).
  { rewrite Hp. split; [apply Qle_shift_div_l; lra|apply Qle_shift_div_r; lra]. }
  assert (Hr1 : (0 <= r <= 1)%Q).
  { rewrite Hr. split; [apply Qle_shift_div_l; lra|apply Qle_shift_div_r; lra]. }
  repeat split; try tauto.
  destruct Hf as [_ Hf]. eapply Qle_trans; [exact Hf|].
  apply Q.max_lub; tauto.
Qed.

(** ** ROUGE-L *)

(** X5.  Every field of a ROUGE-L score lies between 0 and 1. *)
Theorem rouge_l_range (pred target : list string) :
  exists p r f,
    _rouge_l_score pred target = ret (mk_score p r f) /\
    (0 <= p <= 1)%Q /\ (0 <= r <= 1)%Q /\ (0 <= f <= 1)%Q.
Proof.
  unfold _rouge_l_score.
  destruct (_ || _) eqn:E0.
  - exists 0%Q, 0%Q, 0%Q. split; [reflexivity|]. repeat split; lra.
  - apply orb_false_iff in E0 as [Ep Et]. apply Z.eqb_neq in Ep, Et.
    pose proof (lcs_le_pred pred target). pose proof (lcs_le_target pred target).
    apply compute_metrics_unit; lia.
Qed.

(** X6.  ROUGE-L precision is 1 exactly when the prediction's tokens are a
    subsequence of the target's, and recall is 1 exactly when the target's
    tokens are a subsequence of the prediction's; a non-empty sequence
    scored against itself gets 1 in all three fields. *)
Theorem rouge_l_perfect (pred target : list string) :
  pred <> [] -> target <> [] ->
  exists p r f,
    _rouge_l_score pred target = ret (mk_score p r f) /\
    ((p == 1)%Q <-> Subseq pred target) /\
    ((r == 1)%Q <-> Subseq target pred) /\
    (pred = target -> (p == 1)%Q /\ (r == 1)%Q /\ (f == 1)%Q).
Proof.
  intros Hp Ht. unfold _rouge_l_score.
  assert (Ha : (1 <= Z.of_nat (List.length pred))%Z)
    by (destruct pred; [congruence|simpl; lia]).
  assert (Hb : (1 <= Z.of_nat (List.length target))%Z)
    by (destruct target; [congruence|simpl; lia]).
  replace (Z.of_nat (List.length pred) =? 0)%Z with false
    by (symmetry; apply Z.eqb_neq; lia).
  replace (Z.of_nat (List.length target) =? 0)%Z with false
    by (symmetry; apply Z.eqb_neq; lia).
  cbn [orb].
  pose proof (inject_Z_pos _ Ha) as Ha'. pose proof (inject_Z_pos _ Hb) as Hb'.
  assert (Hone : forall c a : Z, (1 <= a)%Z ->
             ((inject_Z c / inject_Z a == 1)%Q <-> c = a)).
  { intros c a H1. pose proof (inject_Z_pos _ H1) as Hpos.
    rewrite <- inject_Z_injective. split; intros E.
    - assert (E' : (inject_Z c / inject_Z a * inject_Z a == inject_Z c)%Q)
        by (field; lra).
      rewrite E in E'. lra.
    - rewrite E. field. lra. }
  destruct (compute_metrics_cases (_lcs pred target) _ _ Ha Hb)
    as [[Hc E]|[Hc E]]; rewrite E; cbv zeta.
  - exists 0%Q, 0%Q, 0%Q. split; [reflexivity|].
    assert (Hnp : ~ Subseq pred target).
    { intros H. apply lcs_full_iff in H. lia. }
    assert (Hnt : ~ Subseq target pred).
    { intros H. apply lcs_full_iff in H. rewrite lcs_symmetric_aux in H. lia. }
    split; [|split].
    + split; [intros E1; exfalso; revert E1; lra|intros H; contradiction].
    + split; [intros E1; exfalso; revert E1; lra|intros H; contradiction].
    + intros E1. exfalso. apply Hnp. rewrite E1. apply Subseq_refl.
  - eexists _, _, _. split; [reflexivity|]. split; [|split].
    + rewrite Hone by assumption. apply lcs_full_iff.
    + rewrite Hone by assumption. rewrite lcs_symmetric_aux. apply lcs_full_iff.
    + intros <-.
      assert (El : _lcs pred pred = Z.of_nat (List.length pred))
        by apply lcs_full_iff, Subseq_refl.
      rewrite El.
      assert (E1 : (inject_Z (Z.of_nat (List.length pred))
                    / inject_Z (Z.of_nat (List.length pred)) == 1)%Q)
        by (apply Hone; [assumption|reflexivity]).
      split; [exact E1|]. split; [exact E1|].
      rewrite E1. reflexivity.
Qed.

Lemma rouge_l_perfect_witness :
  exists p r f,
    _rouge_l_score ["a"; "c"] ["a"; "b"; "c"] = ret (mk_score p r f) /\
    ((p == 1)%Q <-> Subseq ["a"; "c"] ["a"; "b"; "c"]) /\
    ((r == 1)%Q <-> Subseq ["a"; "b"; "c"] ["a"; "c"]) /\
    (["a"; "c"] = ["a"; "b"; "c"] -> (p == 1)%Q /\ (r == 1)%Q /\ (f == 1)%Q).
Proof.
  apply (rouge_l_perfect ["a"; "c"] ["a"; "b"; "c"]); discriminate.
Defined.

(** X7.  Exchanging prediction and target exchanges ROUGE-L precision and
    recall and leaves the fmeasure unchanged. *)
Theorem rouge_l_swap (pred target : list string) :
  exists p r f f',
    _rouge_l_score pred target = ret (mk_score p r f) /\
    _rouge_l_score target pred = ret (mk_score r p f') /\
    (f == f')%Q.
Proof.
  unfold _rouge_l_score. rewrite (lcs_symmetric_aux target pred).
  destruct (Z.of_nat (List.length pred) =? 0)%Z eqn:Ep;
    [|destruct (Z.of_nat (List.length target) =? 0)%Z eqn:Et]; cbn [orb].
  - rewrite orb_true_r. exists 0%Q, 0%Q, 0%Q, 0%Q. repeat split; reflexivity.
  - exists 0%Q, 0%Q, 0%Q, 0%Q. repeat split; reflexivity.
  - apply Z.eqb_neq in Ep, Et.
    assert (Ha : (1 <= Z.of_nat (List.length pred))%Z) by lia.
    assert (Hb : (1 <= Z.of_nat (List.length target))%Z) by lia.
    destruct (compute_metrics_cases (_lcs pred target) _ _ Ha Hb)
      as [[Hc E]|[Hc E]];
    destruct (compute_metrics_cases (_lcs pred target) _ _ Hb Ha)
      as [[Hc' E']|[Hc' E']]; try congruence; rewrite E, E'; cbv zeta.
    + exists 0%Q, 0%Q, 0%Q, 0%Q. repeat split; reflexivity.
    + eexists _, _, _, _. split; [reflexivity|]. split; [reflexivity|].
      set (p := (inject_Z (_lcs pred target)
                 / inject_Z (Z.of_nat (List.length pred)))%Q).
      set (r := (inject_Z (_lcs pred target)
                 / inject_Z (Z.of_nat (List.length target)))%Q).
      assert (Hs : (p + r == r + p)%Q) by ring.
      rewrite Hs. apply Qmult_comp; [ring|reflexivity].
Qed.

Lemma occurrences_In {K} `{EqKeyLaws K} (k : K) (keys : list K) :
  (occurrences k keys = 0)%nat <-> ~ In k keys.
Proof.
  split.
  - intros E Hin. pose proof (occurrences_pos k keys Hin). lia.
  - induction keys as [|k0 keys IH]; intros Hn; [reflexivity|].
    rewrite occurrences_cons. rewrite keqb_neq.
    + apply IH. intros Hin; apply Hn; right; exact Hin.
    + intros ->. apply Hn. left; reflexivity.
Qed.

Lemma Zsum_permutation (l l' : list Z) :
  Permutation l l' -> Zsum l = Zsum l'.
Proof.
  unfold Zsum. induction 1; simpl; lia.
Qed.

Lemma Zsum_filter {A} (g : A -> Z) (f : A -> bool) (l : list A) :
  (forall x, In x l -> f x = false -> g x = 0%Z) ->
  Zsum (map g (filter f l)) = Zsum (map g l).
Proof.
  unfold Zsum. induction l as [|x l IH]; intros H; [reflexivity|].
  specialize (IH (fun y Hy => H y (or_intror Hy))).
  cbn [filter map fold_right]. destruct (f x) eqn:E.
  - cbn [map fold_right]. rewrite IH. reflexivity.
  - rewrite IH, (H x (or_introl eq_refl) E). reflexivity.
Qed.

(** The overlap count does not depend on the order of the two counters. *)
Lemma ngram_hits_sym (wsp wst : list (list string)) :
  let cp := fold_left (fun c w => dict_set c w (counter_get c w + 1)) wsp [] in
  let ct := fold_left (fun c w => dict_set c w (counter_get c w + 1)) wst [] in
  ngram_hits cp ct = ngram_hits ct cp.
Proof.
  intros cp ct.
  assert (Hndp : NoDup (dict_keys cp)) by (apply counter_fold_NoDup; constructor).
  assert (Hndt : NoDup (dict_keys ct)) by (apply counter_fold_NoDup; constructor).
  assert (Hp : forall w, counter_get cp w = Z.of_nat (occurrences w wsp))
    by (intros w; unfold cp; rewrite counter_fold_get; reflexivity).
  assert (Ht : forall w, counter_get ct w = Z.of_nat (occurrences w wst))
    by (intros w; unfold ct; rewrite counter_fold_get; reflexivity).
  assert (Hkp : forall w, In w (dict_keys cp) <-> In w wsp).
  { intros w. unfold cp. rewrite counter_fold_keys. simpl. tauto. }
  assert (Hkt : forall w, In w (dict_keys ct) <-> In w wst).
  { intros w. unfold ct. rewrite counter_fold_keys. simpl. tauto. }
  set (g := fun w => Z.min (counter_get cp w) (counter_get ct w)).
  assert (Hg : forall w, Z.min (counter_get ct w) (counter_get cp w) = g w)
    by (intros w; unfold g; apply Z.min_comm).
  unfold ngram_hits. fold g.
  rewrite (map_ext _ g Hg).
  rewrite <- (Zsum_filter g (fun w => key_in w (dict_keys ct)) (dict_keys cp)).
  2:{ intros w _ E. unfold g. rewrite Ht.
      replace (occurrences w wst) with 0%nat.
      - rewrite Hp. lia.
      - symmetry. apply occurrences_In. rewrite <- Hkt, <- key_in_In. congruence. }
  rewrite <- (Zsum_filter g (fun w => key_in w (dict_keys cp)) (dict_keys ct)).
  2:{ intros w _ E. unfold g. rewrite Hp.
      replace (occurrences w wsp) with 0%nat.
      - rewrite Ht. lia.
      - symmetry. apply occurrences_In. rewrite <- Hkp, <- key_in_In. congruence. }
  apply Zsum_permutation, Permutation_map, NoDup_Permutation.
  - apply NoDup_filter, Hndp.
  - apply NoDup_filter, Hndt.
  - intros w. rewrite !filter_In, !key_in_In. tauto.
Qed.

Lemma ngram_hits_self (ws : list (list string)) :
  let c := fold_left (fun c w => dict_set c w (counter_get c w + 1)) ws [] in
  ngram_hits c c = Z.of_nat (List.length ws).
Proof.
  intros c. unfold ngram_hits.
  rewrite (map_ext _ (counter_get c)) by (intros w; apply Z.min_id).
  rewrite counter_keys_sum by (apply counter_fold_NoDup; constructor).
  unfold c. rewrite counter_fold_sum. reflexivity.
Qed.

Lemma windows_length (tokens : list string) (n : Z) :
  Z.of_nat (List.length (windows tokens n)) =
  Z.max 0 (Z.of_nat (List.length tokens) - n + 1).
Proof.
  unfold windows, range. rewrite !length_map, length_seq. lia.
Qed.

(** X8.  For a window size [n >= 1], the counter built by [_create_ngrams]
    has one entry per distinct run of [n] consecutive tokens, holding the
    number of positions at which the run occurs; the counts add up to the
    number of positions, [len(tokens) - n + 1] or 0 when that is negative. *)
Theorem create_ngrams_counts (tokens : list string) (n : nat) :
  (1 <= n)%nat ->
  let ngrams := _create_ngrams tokens (Z.of_nat n) in
  NoDup (dict_keys ngrams) /\
  (forall w, In w (dict_keys ngrams) <-> In w (ngrams_of tokens n)) /\
  (forall w, counter_get ngrams w =
             Z.of_nat (occurrences w (ngrams_of tokens n))) /\
  Zsum (dict_values ngrams) =
    Z.of_nat (List.length tokens + 1 - n).
Proof.
  intros Hn ngrams. unfold ngrams.
  rewrite create_ngrams_windows, (windows_ngrams_of tokens n Hn).
  split; [apply counter_fold_NoDup; constructor|]. split; [|split].
  - intros w. rewrite counter_fold_keys. simpl. tauto.
  - intros w. rewrite counter_fold_get. reflexivity.
  - rewrite counter_fold_sum. unfold ngrams_of.
    rewrite length_map, length_seq. reflexivity.
Qed.

Lemma create_ngrams_counts_witness :
  let ngrams := _create_ngrams ["a"; "b"; "a"; "b"] 2 in
  NoDup (dict_keys ngrams) /\
  (forall w, In w (dict_keys ngrams) <-> In w (ngrams_of ["a"; "b"; "a"; "b"] 2)) /\
  (forall w, counter_get ngrams w =
             Z.of_nat (occurrences w (ngrams_of ["a"; "b"; "a"; "b"] 2))) /\
  Zsum (dict_values ngrams) = Z.of_nat (4 + 1 - 2).
Proof.
  apply (create_ngrams_counts ["a"; "b"; "a"; "b"] 2). lia.
Defined.

(** ** ROUGE-N *)

(** X9.  Every field of a ROUGE-N score lies between 0 and 1, whatever the
    two token sequences and the window size. *)
Theorem rouge_n_range (pred target : list string) (n_gram : Z) :
  exists p r f,
    _rouge_n_score pred target n_gram = ret (mk_score p r f) /\
    (0 <= p <= 1)%Q /\ (0 <= r <= 1)%Q /\ (0 <= f <= 1)%Q.
Proof.
  rewrite rouge_n_score_unfold.
  destruct (_ || _) eqn:E0.
  - exists 0%Q, 0%Q, 0%Q. split; [reflexivity|]. repeat split; lra.
  - apply orb_false_iff in E0 as [Ep Et]. apply Z.eqb_neq in Ep, Et.
    rewrite !create_ngrams_windows.
    destruct (ngram_hits_bounds (windows pred n_gram) (windows target n_gram))
      as [H0 [Hp Ht]].
    apply compute_metrics_unit; try assumption; lia.
Qed.

Lemma compute_metrics_full (len : Z) :
  (1 <= len)%Z ->
  exists p r f,
    _compute_metrics len len len = ret (mk_score p r f) /\
    (p == 1)%Q /\ (r == 1)%Q /\ (f == 1)%Q.
Proof.
  intros Hl. pose proof (inject_Z_pos _ Hl) as Hpos.
  assert (E1 : (inject_Z len / inject_Z len == 1)%Q) by (field; lra).
  destruct (compute_metrics_cases len len len Hl Hl) as [[Hc _]|[_ E]]; [lia|].
  rewrite E. eexists _, _, _. split; [reflexivity|].
  cbv zeta. rewrite !E1. repeat split; reflexivity.
Qed.

(** X10.  A token sequence scored against itself by ROUGE-N gets 1 in all
    three fields when it has at least [n] tokens, and the all-zero score
    when it has fewer. *)
Theorem rouge_n_self (tokens : list string) (n_gram : Z) :
  ((n_gram <= Z.of_nat (List.length tokens))%Z ->
   exists p r f,
     _rouge_n_score tokens tokens n_gram = ret (mk_score p r f) /\
     (p == 1)%Q /\ (r == 1)%Q /\ (f == 1)%Q) /\
  ((Z.of_nat (List.length tokens) < n_gram)%Z ->
   _rouge_n_score tokens tokens n_gram = ret zero_score).
Proof.
  split; intros Hn.
  - rewrite rouge_n_score_unfold. cbv zeta.
    pose proof (windows_length tokens n_gram) as Hw.
    replace (Z.of_nat (List.length (windows tokens n_gram)) =? 0)%Z
      with false by (symmetry; apply Z.eqb_neq; lia).
    cbn [orb]. rewrite create_ngrams_windows, ngram_hits_self.
    apply compute_metrics_full. lia.
  - unfold _rouge_n_score. rewrite (create_ngrams_short tokens n_gram Hn).
    reflexivity.
Qed.

Lemma compute_metrics_swap (count a b : Z) :
  (1 <= a)%Z -> (1 <= b)%Z ->
  exists p r f f',
    _compute_metrics count a b = ret (mk_score p r f) /\
    _compute_metrics count b a = ret (mk_score r p f') /\
    (f == f')%Q.
Proof.
  intros Ha Hb.
  destruct (compute_metrics_cases count a b Ha Hb) as [[Hc E]|[Hc E]];
  destruct (compute_metrics_cases count b a Hb Ha) as [[Hc' E']|[Hc' E']];
    try congruence; rewrite E, E'; cbv zeta.
  - exists 0%Q, 0%Q, 0%Q, 0%Q. repeat split; reflexivity.
  - eexists _, _, _, _. split; [reflexivity|]. split; [reflexivity|].
    set (p := (inject_Z count / inject_Z a)%Q).
    set (r := (inject_Z count / inject_Z b)%Q).
    assert (Hs : (p + r == r + p)%Q) by ring.
    rewrite Hs. apply Qmult_comp; [ring|reflexivity].
Qed.

(** X11.  Exchanging prediction and target exchanges ROUGE-N precision and
    recall and leaves the fmeasure unchanged. *)
Theorem rouge_n_swap (pred target : list string) (n_gram : Z) :
  exists p r f f',
    _rouge_n_score pred target n_gram = ret (mk_score p r f) /\
    _rouge_n_score target pred n_gram = ret (mk_score r p f') /\
    (f == f')%Q.
Proof.
  rewrite !rouge_n_score_unfold. cbv zeta.
  rewrite !create_ngrams_windows.
  rewrite (ngram_hits_sym (windows target n_gram) (windows pred n_gram)).
  destruct (Z.of_nat (List.length (windows pred n_gram)) =? 0)%Z eqn:Ep;
    [|destruct (Z.of_nat (List.length (windows target n_gram)) =? 0)%Z eqn:Et];
    cbn [orb].
  - rewrite orb_true_r. exists 0%Q, 0%Q, 0%Q, 0%Q. repeat split; reflexivity.
  - exists 0%Q, 0%Q, 0%Q, 0%Q. repeat split; reflexivity.
  - apply Z.eqb_neq in Ep, Et. apply compute_metrics_swap; lia.
Qed.

(** ** The normalizer *)

Lemma in_range_spec (lo hi : nat) (c : ascii) :
  in_range lo hi c = true <-> (lo <= nat_of_ascii c <= hi)%nat.
Proof.
  unfold in_range. rewrite andb_true_iff, !Nat.leb_le. tauto.
Qed.

Lemma is_alnum_spec (c : ascii) :
  is_alnum c = true <->
  (97 <= nat_of_ascii c <= 122)%nat \/ (48 <= nat_of_ascii c <= 57)%nat.
Proof. unfold is_alnum. rewrite orb_true_iff, !in_range_spec. tauto. Qed.

Lemma is_alnum_not_space (c : ascii) : is_alnum c = true -> is_space c = false.
Proof.
  rewrite is_alnum_spec. intros H. apply not_true_iff_false.
  unfold is_space. rewrite orb_true_iff, !in_range_spec. lia.
Qed.

Lemma is_alnum_lower (c : ascii) : is_alnum c = true -> lower_ascii c = c.
Proof.
  rewrite is_alnum_spec. intros H. unfold lower_ascii.
  replace (in_range 65 90 c) with false; [reflexivity|].
  symmetry. apply not_true_iff_false. rewrite in_range_spec. lia.
Qed.

Lemma all_alnum_app (a b : string) :
  all_alnum (a ++ b)%string = all_alnum a && all_alnum b.
Proof.
  induction a as [|c a IH]; simpl; [reflexivity|].
  rewrite IH, andb_assoc. reflexivity.
Qed.

Lemma alnum_to_end_all (s : string) : all_alnum s = true -> alnum_to_end s = true.
Proof.
  induction s as [|c s IH]; [reflexivity|].
  cbn [all_alnum alnum_to_end]. intros H. apply andb_true_iff in H as [Hc Hs].
  destruct s; [rewrite Hc; reflexivity|].
  rewrite Hc, (IH Hs). reflexivity.
Qed.

Lemma match_token_all_alnum (x : string) :
  all_alnum x = true ->
  match_token x = match x with EmptyString => false | String _ _ => true end.
Proof.
  destruct x as [|c s]; [reflexivity|]. cbn [all_alnum match_token].
  intros H. apply andb_true_iff in H as [Hc Hs].
  rewrite Hc, (alnum_to_end_all s Hs). reflexivity.
Qed.

Lemma append_nonempty (a : string) (c : ascii) :
  (a ++ String c EmptyString)%string <> EmptyString.
Proof. destruct a; discriminate. Qed.

(** The three stages (substitution, split, filter) against the single
    scan, in the two states of the substitution. *)
Lemma pipeline_runs (s : string) :
  (forall cur, all_alnum cur = true ->
     filter match_token (split_ws cur false (sub_non_alnum false s)) =
     alnum_runs cur s) /\
  filter match_token (split_ws EmptyString true (sub_non_alnum true s)) =
  alnum_runs EmptyString s.
Proof.
  induction s as [|c s [IHa IHb]].
  - split.
    + intros cur Hcur. cbn [sub_non_alnum split_ws filter alnum_runs].
      rewrite (match_token_all_alnum cur Hcur). destruct cur; reflexivity.
    + reflexivity.
  - split.
    + intros cur Hcur. cbn [sub_non_alnum alnum_runs].
      destruct (is_alnum c) eqn:Ec.
      * cbn [split_ws]. rewrite (is_alnum_not_space c Ec).
        apply IHa. rewrite all_alnum_app, Hcur. simpl. rewrite Ec. reflexivity.
      * cbn [split_ws]. change (is_space " ") with true. cbn [filter].
        rewrite (match_token_all_alnum cur Hcur), IHb.
        destruct cur; reflexivity.
    + cbn [sub_non_alnum alnum_runs]. destruct (is_alnum c) eqn:Ec.
      * cbn [split_ws]. rewrite (is_alnum_not_space c Ec).
        apply IHa. simpl. rewrite Ec. reflexivity.
      * exact IHb.
Qed.

Lemma alnum_runs_tokens (s : string) :
  forall cur, all_alnum cur = true -> Forall is_token (alnum_runs cur s).
Proof.
  induction s as [|c s IH]; intros cur Hcur; cbn [alnum_runs].
  - destruct cur; constructor; [|constructor]. split; [discriminate|assumption].
  - destruct (is_alnum c) eqn:Ec.
    + apply IH. rewrite all_alnum_app, Hcur. simpl. rewrite Ec. reflexivity.
    + destruct cur; [apply IH; reflexivity|].
      constructor; [split; [discriminate|assumption]|apply IH; reflexivity].
Qed.

Lemma normalize_runs_plain (text : string) :
  _normalize_and_tokenize_text text None = alnum_runs EmptyString (lower text).
Proof.
  unfold _normalize_and_tokenize_text.
  apply (proj1 (pipeline_runs (lower text))). reflexivity.
Qed.

Lemma normalize_plain_tokens (text : string) :
  Forall is_token (_normalize_and_tokenize_text text None).
Proof. rewrite normalize_runs_plain. apply alnum_runs_tokens. reflexivity. Qed.

(** X12.  Without a stemmer, [_normalize_and_tokenize_text] returns the
    maximal runs of lowercase letters and digits of the lowercased text, in
    order: every token is non-empty and made of [[a-z0-9]] only. *)
Theorem normalize_maximal_runs (text : string) :
  _normalize_and_tokenize_text text None = alnum_runs EmptyString (lower text) /\
  Forall is_token (_normalize_and_tokenize_text text None).
Proof.
  split; [apply normalize_runs_plain|apply normalize_plain_tokens].
Qed.

Lemma split_pieces_alnum (s : string) :
  (forall cur, all_alnum cur = true ->
     Forall (fun x => all_alnum x = true)
       (split_ws cur false (sub_non_alnum false s))) /\
  Forall (fun x => all_alnum x = true)
    (split_ws EmptyString true (sub_non_alnum true s)).
Proof.
  induction s as [|c s [IHa IHb]].
  - split; [intros cur Hcur|]; repeat constructor. assumption.
  - split.
    + intros cur Hcur. cbn [sub_non_alnum]. destruct (is_alnum c) eqn:Ec.
      * cbn [split_ws]. rewrite (is_alnum_not_space c Ec).
        apply IHa. rewrite all_alnum_app, Hcur. simpl. rewrite Ec. reflexivity.
      * cbn [split_ws]. change (is_space " ") with true.
        constructor; assumption.
    + cbn [sub_non_alnum]. destruct (is_alnum c) eqn:Ec.
      * cbn [split_ws]. rewrite (is_alnum_not_space c Ec).
        apply IHa. simpl. rewrite Ec. reflexivity.
      * exact IHb.
Qed.

Lemma filter_map_pieces (f : string -> string) (pieces : list string) :
  f EmptyString = EmptyString ->
  Forall (fun x => all_alnum x = true) pieces ->
  filter match_token (map f pieces) =
  filter match_token (map f (filter match_token pieces)).
Proof.
  intros Hf. induction 1 as [|x pieces Hx HF IH]; [reflexivity|].
  cbn [map filter]. rewrite (match_token_all_alnum x Hx).
  destruct x as [|c x].
  - rewrite Hf. cbn [match_token]. exact IH.
  - cbn [map filter]. rewrite IH. reflexivity.
Qed.

Lemma normalize_runs (text : string) (stemmer : option (string -> string)) :
  _normalize_and_tokenize_text text stemmer =
  filter match_token
    (map (stem_long stemmer) (alnum_runs EmptyString (lower text))).
Proof.
  unfold _normalize_and_tokenize_text.
  rewrite <- (proj1 (pipeline_runs (lower text)) EmptyString eq_refl).
  destruct stemmer as [stem|].
  - apply (filter_map_pieces (stem_long (Some stem))); [reflexivity|].
    apply (proj1 (split_pieces_alnum (lower text))). reflexivity.
  - cbn [stem_long]. rewrite map_id.
    symmetry. clear. induction (split_ws _ _ _) as [|x l IH]; [reflexivity|].
    cbn [filter]. destruct (match_token x) eqn:E; cbn [filter];
      rewrite ?E, IH; reflexivity.
Qed.

Lemma filter_tokens (l : list string) :
  Forall is_token l -> filter match_token l = l.
Proof.
  induction 1 as [|x l [Hne Hal] HF IH]; [reflexivity|].
  cbn [filter]. rewrite (match_token_all_alnum x Hal).
  destruct x; [congruence|]. rewrite IH. reflexivity.
Qed.

(** What [re.match(r"^[a-z0-9]+$", x)] accepts: a token, or a token
    followed by one final newline. *)
Lemma alnum_to_end_spec (s : string) :
  alnum_to_end s = true <->
  all_alnum s = true \/
  exists t, all_alnum t = true /\ s = (t ++ String newline EmptyString)%string.
Proof.
  induction s as [|c s IH].
  - split; [left; reflexivity|reflexivity].
  - destruct s as [|c' s'].
    + cbn [alnum_to_end all_alnum]. rewrite andb_true_r. split.
      * intros H. apply orb_true_iff in H as [H|H]; [left; exact H|].
        right. exists EmptyString. split; [reflexivity|].
        apply Ascii.eqb_eq in H. subst c. reflexivity.
      * intros [H|[t [Ht E]]]; [rewrite H; reflexivity|].
        destruct t as [|a [|b t]]; try discriminate.
        injection E as ->. rewrite Ascii.eqb_refl. apply orb_true_r.
    + change (alnum_to_end (String c (String c' s')))
        with (is_alnum c && alnum_to_end (String c' s')).
      change (all_alnum (String c (String c' s')))
        with (is_alnum c && all_alnum (String c' s')).
      rewrite !andb_true_iff, IH. split.
      * intros [Hc [H|[t [Ht E]]]]; [left; tauto|].
        right. exists (String c t). split; [cbn [all_alnum]; rewrite Hc; exact Ht|].
        cbn [append]. rewrite E. reflexivity.
      * intros [[Hc H]|[t [Ht E]]]; [tauto|].
        destruct t as [|a t]; [discriminate|].
        cbn [append] in E. injection E as -> E.
        cbn [all_alnum] in Ht. apply andb_true_iff in Ht as [Ha Ht].
        split; [exact Ha|]. right. exists t. split; assumption.
Qed.

Lemma match_token_spec (x : string) :
  match_token x = true <->
  is_token x \/
  exists t, is_token t /\ x = (t ++ String newline EmptyString)%string.
Proof.
  destruct x as [|c s].
  - split; [discriminate|].
    intros [[H _]|[t [_ E]]]; [congruence|]. destruct t; discriminate.
  - cbn [match_token]. rewrite andb_true_iff, alnum_to_end_spec. split.
    + intros [Hc [H|[t [Ht E]]]].
      * left. split; [discriminate|]. cbn [all_alnum]. rewrite Hc. exact H.
      * right. exists (String c t). split.
        -- split; [discriminate|]. cbn [all_alnum]. rewrite Hc. exact Ht.
        -- cbn [append]. rewrite E. reflexivity.
    + intros [[_ H]|[t [[Hne Ht] E]]].
      * cbn [all_alnum] in H. apply andb_true_iff in H. tauto.
      * destruct t as [|a t]; [congruence|].
        cbn [append] in E. injection E as -> E.
        cbn [all_alnum] in Ht. apply andb_true_iff in Ht as [Ha Ht].
        split; [exact Ha|]. right. exists t. split; assumption.
Qed.

(** X13.  With a stemmer, [_normalize_and_tokenize_text] stems the maximal
    alphanumeric runs that are longer than 3 characters, keeps the shorter
    ones as they are, and then keeps exactly the results that
    [re.match(r"^[a-z0-9]+$", x)] accepts: a non-empty string of [[a-z0-9]],
    possibly followed by one final newline.  When the stemmer maps tokens
    to tokens nothing is dropped. *)
Theorem normalize_with_stemmer (text : string) (stem : string -> string) :
  let stemmed := fun x => if (3 <? String.length x)%nat then stem x else x in
  _normalize_and_tokenize_text text (Some stem) =
  filter match_token
    (map stemmed (_normalize_and_tokenize_text text None)) /\
  (forall x, match_token x = true <->
             is_token x \/
             exists t, is_token t /\
                       x = (t ++ String newline EmptyString)%string) /\
  ((forall x, is_token x -> is_token (stem x)) ->
   _normalize_and_tokenize_text text (Some stem) =
   map stemmed (_normalize_and_tokenize_text text None)).
Proof.
  intros stemmed.
  pose proof (alnum_runs_tokens (lower text) EmptyString eq_refl) as HF.
  assert (E0 : _normalize_and_tokenize_text text None =
               alnum_runs EmptyString (lower text)).
  { rewrite normalize_runs. cbn [stem_long]. rewrite map_id.
    apply filter_tokens, HF. }
  rewrite E0, (normalize_runs text (Some stem)).
  change (stem_long (Some stem)) with stemmed.
  split; [reflexivity|]. split; [exact match_token_spec|].
  intros Hstem. apply filter_tokens.
  clear E0. induction HF as [|x l Hx HF IH]; [constructor|].
  cbn [map]. constructor; [|exact IH].
  unfold stemmed. destruct (3 <? String.length x)%nat; [apply Hstem|]; exact Hx.
Qed.

(** A stem that ends with a newline is kept: the final test accepts
    ["running\n"]. *)
Example stem_with_final_newline :
  let nl := String newline EmptyString in
  _normalize_and_tokenize_text "running"
    (Some (fun x => (x ++ nl)%string)) = [("running" ++ nl)%string].
Proof. reflexivity. Qed.

Lemma lower_app (a b : string) :
  lower (a ++ b)%string = (lower a ++ lower b)%string.
Proof. induction a as [|c a IH]; simpl; [|rewrite IH]; reflexivity. Qed.

Lemma lower_all_alnum (t : string) : all_alnum t = true -> lower t = t.
Proof.
  induction t as [|c t IH]; [reflexivity|]. cbn [all_alnum lower].
  intros H. apply andb_true_iff in H as [Hc Ht].
  rewrite (is_alnum_lower c Hc), (IH Ht). reflexivity.
Qed.

Lemma append_assoc (a b c : string) :
  ((a ++ b) ++ c)%string = (a ++ (b ++ c))%string.
Proof. induction a as [|x a IH]; simpl; [|rewrite IH]; reflexivity. Qed.

Lemma append_empty_r (a : string) : (a ++ EmptyString)%string = a.
Proof. induction a as [|x a IH]; simpl; [|rewrite IH]; reflexivity. Qed.

Lemma alnum_runs_app (t rest : string) :
  all_alnum t = true ->
  forall cur, alnum_runs cur (t ++ rest)%string =
              alnum_runs (cur ++ t)%string rest.
Proof.
  induction t as [|c t IH]; intros Ht cur.
  - simpl. rewrite append_empty_r. reflexivity.
  - cbn [all_alnum] in Ht. apply andb_true_iff in Ht as [Hc Ht].
    cbn [append alnum_runs]. rewrite Hc, (IH Ht), append_assoc. reflexivity.
Qed.

Lemma lower_concat_tokens (tokens : list string) :
  Forall is_token tokens ->
  lower (String.concat " " tokens) = String.concat " " tokens.
Proof.
  induction 1 as [|t tokens [_ Ht] HF IH]; [reflexivity|].
  cbn [String.concat]. destruct tokens as [|t2 tokens].
  - apply lower_all_alnum, Ht.
  - rewrite !lower_app, (lower_all_alnum t Ht), IH. reflexivity.
Qed.

Lemma alnum_runs_concat (tokens : list string) :
  Forall is_token tokens ->
  alnum_runs EmptyString (String.concat " " tokens) = tokens.
Proof.
  induction 1 as [|t tokens [Hne Ht] HF IH]; [reflexivity|].
  cbn [String.concat]. destruct tokens as [|t2 tokens].
  - rewrite <- (append_empty_r t) at 1. rewrite (alnum_runs_app t _ Ht).
    cbn [append alnum_runs]. destruct t; [congruence|reflexivity].
  - rewrite (alnum_runs_app t _ Ht). cbn [append alnum_runs].
    change (is_alnum " ") with false. cbv iota.
    rewrite IH. destruct t; [congruence|reflexivity].
Qed.

(** X14.  Joining tokens with single spaces and normalizing the result
    gives the tokens back. *)
Theorem normalize_join_round_trip (tokens : list string) :
  Forall is_token tokens ->
  _normalize_and_tokenize_text (String.concat " " tokens) None = tokens.
Proof.
  intros HF.
  rewrite normalize_runs_plain, (lower_concat_tokens tokens HF).
  apply alnum_runs_concat, HF.
Qed.

Lemma normalize_join_round_trip_witness :
  _normalize_and_tokenize_text (String.concat " " ["my"; "name"; "is"; "john"])
    None = ["my"; "name"; "is"; "john"].
Proof.
  apply (normalize_join_round_trip ["my"; "name"; "is"; "john"]).
  repeat constructor; discriminate.
Defined.

(** X15.  Normalizing is idempotent: the tokens of any text, joined by
    spaces and normalized again, are the same tokens. *)
Theorem normalize_idempotent (text : string) :
  _normalize_and_tokenize_text
    (String.concat " " (_normalize_and_tokenize_text text None)) None =
  _normalize_and_tokenize_text text None.
Proof.
  rewrite (normalize_runs (String.concat " " _) None). cbn [stem_long].
  rewrite map_id.
  pose proof (normalize_plain_tokens text) as HF.
  rewrite (lower_concat_tokens _ HF), (alnum_runs_concat _ HF).
  apply filter_tokens, HF.
Qed.

Lemma alnum_runs_nil (s : string) :
  forall cur, alnum_runs cur s = [] <->
              cur = EmptyString /\ no_alnum s = true.
Proof.
  induction s as [|c s IH]; intros cur; cbn [alnum_runs no_alnum].
  - destruct cur; split; try tauto; try discriminate.
    intros [H _]; discriminate.
  - destruct (is_alnum c); cbn [negb andb].
    + rewrite IH. split; [|intros [_ H]; discriminate].
      intros [H _]. exfalso. exact (append_nonempty _ _ H).
    + destruct cur; [rewrite IH; tauto|].
      split; [discriminate|intros [H _]; discriminate].
Qed.

(** X16.  Without a stemmer the normalizer returns no token exactly when the
    lowercased text has no letter or digit; such a text (the empty text among
    them) yields no token with any stemmer. *)
Theorem normalize_empty_iff (text : string) :
  (_normalize_and_tokenize_text text None = [] <->
   no_alnum (lower text) = true) /\
  (no_alnum (lower text) = true ->
   forall stemmer, _normalize_and_tokenize_text text stemmer = []).
Proof.
  split.
  - rewrite normalize_runs_plain, alnum_runs_nil. tauto.
  - intros H stemmer. rewrite normalize_runs.
    replace (alnum_runs EmptyString (lower text)) with (@nil string);
      [reflexivity|].
    symmetry. apply alnum_runs_nil. tauto.
Qed.

(** ** The monad, continued *)

Lemma bind_assoc {A B C} (m : M A) (f : A -> M B) (g : B -> M C) :
  bind (bind m f) g = bind m (fun a => bind (f a) g).
Proof.
  destruct m as [[a|e] t1]; [|reflexivity]. unfold bind at 2 3.
  destruct (f a) as [[b|e] t2]; [|reflexivity].
  cbn [bind]. destruct (g b) as [r t3]. rewrite app_assoc. reflexivity.
Qed.

Lemma foldM_app {S X} (f : S -> X -> M S) (l1 l2 : list X) (s : S) :
  foldM f (l1 ++ l2) s = bind (foldM f l1 s) (foldM f l2).
Proof.
  revert s; induction l1 as [|x l1 IH]; intros s; cbn [app foldM].
  - rewrite bind_ret_l. reflexivity.
  - rewrite bind_assoc. destruct (f s x) as [[s'|e] t]; [|reflexivity].
    unfold bind at 1 3. rewrite IH. reflexivity.
Qed.

Lemma foldM_flat_map {S X Y} (f : S -> Y -> M S) (g : X -> list Y)
  (l : list X) (s : S) :
  foldM (fun s x => foldM f (g x) s) l s = foldM f (flat_map g l) s.
Proof.
  revert s; induction l as [|x l IH]; intros s; cbn [flat_map foldM];
    [reflexivity|].
  rewrite foldM_app. destruct (foldM f (g x) s) as [[s'|e] t]; [|reflexivity].
  unfold bind. rewrite IH. reflexivity.
Qed.

Lemma foldM_map {S X Y} (f : S -> Y -> M S) (g : X -> Y) (l : list X) (s : S) :
  foldM (fun s x => f s (g x)) l s = foldM f (map g l) s.
Proof.
  revert s; induction l as [|x l IH]; intros s; cbn [map foldM]; [reflexivity|].
  destruct (f s (g x)) as [[s'|e] t]; [|reflexivity].
  unfold bind. rewrite IH. reflexivity.
Qed.

(** ** Collecting the output *)

Lemma collect_output_items (sentence_results : list (RougeKey * list (list (string * Tensor))))
  (output : list (string * list Tensor)) :
  collect_output sentence_results output =
  foldM (fun d nv => dict_append d (fst nv) (snd nv))
    (output_items sentence_results) output.
Proof.
  unfold collect_output, output_items.
  rewrite <- foldM_flat_map. apply foldM_ext. intros d km _.
  rewrite <- foldM_flat_map. apply foldM_ext. intros d' metric _.
  rewrite <- foldM_map. reflexivity.
Qed.

Lemma append_items_loop (items : list (string * Tensor)) :
  forall d : list (string * list Tensor),
    (forall nv, In nv items -> dict_get d (fst nv) <> None) ->
    exists d',
      foldM (fun d nv => dict_append d (fst nv) (snd nv)) items d = ret d' /\
      dict_keys d' = dict_keys d /\
      forall name, dict_get d' name =
                   option_map
                     (fun l => l ++ map snd
                                      (filter (fun nv => String.eqb (fst nv) name)
                                         items))
                     (dict_get d name).
Proof.
  induction items as [|[n v] items IH]; intros d Hd.
  - exists d. split; [reflexivity|]. split; [reflexivity|]. intros name.
    destruct (dict_get d name); simpl; [rewrite app_nil_r|]; reflexivity.
  - destruct (dict_get d n) as [l|] eqn:El;
      [|exfalso; apply (Hd (n, v)); [left; reflexivity|exact El]].
    destruct (IH (dict_set d n (l ++ [v]))) as [d' [Hv [Hk Hg]]].
    { intros nv Hin. rewrite dict_get_set.
      destruct (keqb n (fst nv)); [discriminate|]. apply Hd. right; exact Hin. }
    exists d'. split; [|split].
    + cbn [foldM fst snd]. unfold dict_append.
      rewrite (dict_item_some _ _ _ El), !bind_ret_l. exact Hv.
    + rewrite Hk. apply dict_keys_set_present. congruence.
    + intros name. rewrite Hg, dict_get_set. cbn [filter fst].
      change (keqb n name) with (String.eqb n name).
      destruct (String.eqb_spec n name) as [->|Hne].
      * rewrite El. cbn [option_map map snd]. rewrite <- app_assoc. reflexivity.
      * reflexivity.
Qed.

(** ** [_rouge_score_compute] *)

Lemma fold_set_fresh {K V W} `{EqKeyLaws K} (h : V -> W) (d : list (K * V)) :
  forall r0 : list (K * W),
    NoDup (dict_keys r0 ++ dict_keys d) ->
    fold_left (fun r kv => dict_set r (fst kv) (h (snd kv))) d r0 =
    r0 ++ map (fun kv => (fst kv, h (snd kv))) d.
Proof.
  induction d as [|[k v] d IH]; intros r0 Hnd; cbn [fold_left map fst snd].
  - rewrite app_nil_r. reflexivity.
  - assert (Hfresh : dict_set r0 k (h v) = r0 ++ [(k, h v)]).
    { assert (Hk : ~ In k (dict_keys r0)).
      { intros Hin. apply NoDup_remove_2 in Hnd. apply Hnd.
        apply in_or_app. left; exact Hin. }
      clear -Hk H0. induction r0 as [|[k0 v0] r0 IH]; [reflexivity|].
      cbn [dict_set app]. rewrite keqb_neq.
      - rewrite IH; [reflexivity|]. intros Hin; apply Hk; right; exact Hin.
      - intros ->. apply Hk. left; reflexivity. }
    rewrite Hfresh, IH.
    + rewrite <- app_assoc. reflexivity.
    + unfold dict_keys in *. rewrite map_app, <- app_assoc. exact Hnd.
Qed.

(** X17.  [_rouge_score_compute] maps a dictionary of score lists to the
    dictionary with the same keys in the same order, each holding the mean
    of its list ([nan] for an empty list); the empty dictionary gives the
    empty dictionary. *)
Theorem rouge_score_compute_means
  (sentence_results : list (string * list Tensor)) :
  NoDup (dict_keys sentence_results) ->
  _rouge_score_compute sentence_results =
  map (fun ks => (fst ks, tensor_mean (snd ks))) sentence_results.
Proof.
  intros Hnd. unfold _rouge_score_compute.
  destruct sentence_results as [|kv d]; [reflexivity|].
  apply (fold_set_fresh tensor_mean (kv :: d) []). exact Hnd.
Qed.

Lemma rouge_score_compute_means_witness :
  _rouge_score_compute
    [("rouge1_fmeasure", [tensor (1 # 5); tensor (4 # 5)]);
     ("rouge1_precision", [])] =
  map (fun ks => (fst ks, tensor_mean (snd ks)))
    [("rouge1_fmeasure", [tensor (1 # 5); tensor (4 # 5)]);
     ("rouge1_precision", [])].
Proof.
  apply (rouge_score_compute_means
           [("rouge1_fmeasure", [tensor (1 # 5); tensor (4 # 5)]);
            ("rouge1_precision", [])]).
  repeat constructor; simpl; intuition discriminate.
Defined.

(** ** The names of the output *)

Lemma nodupb_NoDup (l : list string) : nodupb l = true -> NoDup l.
Proof.
  induction l as [|x l IH]; cbn [nodupb]; [constructor|].
  rewrite andb_true_iff, negb_true_iff. intros [Hx Hl].
  constructor; [|apply IH, Hl].
  intros Hin. apply (key_in_In x l) in Hin.
  unfold key_in in Hin. cbn [keqb EqKey_string] in Hin. congruence.
Qed.

Lemma NoDup_map_injective {A B} (g : A -> B) (l : list A) (x y : A) :
  NoDup (map g l) -> In x l -> In y l -> g x = g y -> x = y.
Proof.
  induction l as [|a l IH]; cbn [map]; [intros _ []|].
  intros Hnd Hx Hy E. inversion Hnd as [|? ? Hnot Hnd']; subst.
  destruct Hx as [->|Hx], Hy as [->|Hy].
  - reflexivity.
  - exfalso. apply Hnot. rewrite E. apply in_map, Hy.
  - exfalso. apply Hnot. rewrite <- E. apply in_map, Hx.
  - apply IH; assumption.
Qed.

(** The names built from the allowed keys and the three fields are
    pairwise distinct. *)
Lemma output_key_inj (k k' : RougeKey) (t t' : string) :
  In k (dict_values ALLOWED_ROUGE_KEYS) ->
  In k' (dict_values ALLOWED_ROUGE_KEYS) ->
  In t FIELDS -> In t' FIELDS ->
  output_key k t = output_key k' t' -> k = k' /\ t = t'.
Proof.
  intros Hk Hk' Ht Ht' E.
  assert (Hnd : NoDup (map (fun kt => output_key (fst kt) (snd kt))
                         (list_prod (dict_values ALLOWED_ROUGE_KEYS) FIELDS))).
  { apply nodupb_NoDup. vm_compute. reflexivity. }
  assert (Ep : (k, t) = (k', t')).
  { apply (NoDup_map_injective _ _ _ _ Hnd); [apply in_prod ..|exact E];
      assumption. }
  injection Ep as -> ->. split; reflexivity.
Qed.

Lemma output_key_eqb (k k' : RougeKey) (t t' : string) :
  In k (dict_values ALLOWED_ROUGE_KEYS) ->
  In k' (dict_values ALLOWED_ROUGE_KEYS) ->
  In t FIELDS -> In t' FIELDS ->
  String.eqb (output_key k t) (output_key k' t') = keqb k k' && String.eqb t t'.
Proof.
  intros Hk Hk' Ht Ht'.
  destruct (String.eqb_spec (output_key k t) (output_key k' t')) as [E|Hne].
  - destruct (output_key_inj k k' t t' Hk Hk' Ht Ht' E) as [-> ->].
    rewrite keqb_refl, String.eqb_refl. reflexivity.
  - destruct (keqb_spec k k') as [->|Hk0]; [|reflexivity].
    destruct (String.eqb_spec t t') as [->|Ht0]; [congruence|reflexivity].
Qed.

Lemma allowed_value_In (rouge_keys : RougeKeys) (key : string) :
  first_unknown_key rouge_keys = None ->
  In key (rouge_keys_tuple rouge_keys) ->
  In (allowed_value key) (dict_values ALLOWED_ROUGE_KEYS).
Proof.
  intros Hk Hin. apply (find_none _ _ Hk) in Hin.
  unfold dict_mem in Hin. unfold allowed_value.
  destruct (dict_get ALLOWED_ROUGE_KEYS key) as [v|] eqn:E; [|discriminate].
  clear -E. unfold dict_values.
  induction ALLOWED_ROUGE_KEYS as [|[k0 v0] d IH]; [discriminate|].
  cbn [dict_get] in E. cbn [map snd].
  destruct (keqb k0 key); [left; congruence|right; apply IH, E].
Qed.

Lemma allowed_values_In (rouge_keys : RougeKeys) (v : RougeKey) :
  first_unknown_key rouge_keys = None ->
  In v (map allowed_value (rouge_keys_tuple rouge_keys)) ->
  In v (dict_values ALLOWED_ROUGE_KEYS).
Proof.
  intros Hk Hin. apply in_map_iff in Hin as [key [<- Hin]].
  apply (allowed_value_In rouge_keys); assumption.
Qed.

(** ** Dictionaries, continued *)

Lemma dict_get_In {K V} `{EqKeyLaws K} (d : list (K * V)) (k : K) (v : V) :
  NoDup (dict_keys d) -> In (k, v) d -> dict_get d k = Some v.
Proof.
  induction d as [|[k0 v0] d IH]; [intros _ []|].
  intros Hnd [E|Hin]; inversion Hnd as [|? ? Hnot Hnd']; subst; cbn [dict_get].
  - injection E as -> ->. rewrite keqb_refl. reflexivity.
  - rewrite keqb_neq; [apply IH; assumption|].
    intros ->. apply Hnot. apply (in_map fst) in Hin. exact Hin.
Qed.

Lemma dict_keys_fromkeys_In {K V} `{EqKeyLaws K} (keys : list K) (v0 : V) (k : K) :
  In k (dict_keys (dict_fromkeys keys v0)) -> In k keys.
Proof.
  intros Hin. destruct (key_in k keys) eqn:E; [apply key_in_In, E|].
  exfalso. revert Hin. apply dict_get_None_keys. unfold dict_fromkeys.
  rewrite (dict_get_fold_set (fun _ => v0)), E. reflexivity.
Qed.

(** ** What [rouge_score] collects for one output key *)

Lemma metric_items_filter (k v : RougeKey) (t : string) (m : list (string * Tensor)) :
  In k (dict_values ALLOWED_ROUGE_KEYS) ->
  In v (dict_values ALLOWED_ROUGE_KEYS) ->
  In t FIELDS ->
  well_formed_score m \/ m = [] ->
  map snd (filter (fun nv => String.eqb (fst nv) (output_key v t))
             (map (fun tv => (output_key k (fst tv), snd tv)) m)) =
  if keqb k v then match dict_get m t with Some x => [x] | None => [] end
  else [].
Proof.
  intros Hk Hv Ht [Hm| ->]; [|destruct (keqb k v); reflexivity].
  rewrite Hm. unfold mk_score. cbn [map filter fst snd].
  rewrite !(output_key_eqb k v _ t Hk Hv) by (assumption || (cbn; tauto)).
  destruct (keqb k v); cbn [andb]; [|reflexivity].
  destruct Ht as [<-|[<-|[<-|[]]]]; reflexivity.
Qed.

Lemma key_items_filter (k v : RougeKey) (t : string)
  (metrics : list (list (string * Tensor))) :
  In k (dict_values ALLOWED_ROUGE_KEYS) ->
  In v (dict_values ALLOWED_ROUGE_KEYS) ->
  In t FIELDS ->
  Forall (fun m => well_formed_score m \/ m = []) metrics ->
  map snd (filter (fun nv => String.eqb (fst nv) (output_key v t))
             (flat_map (fun metric =>
                          map (fun tv => (output_key k (fst tv), snd tv)) metric)
                metrics)) =
  if keqb k v then field_values t metrics else [].
Proof.
  intros Hk Hv Ht HF. induction HF as [|m metrics Hm HF IH].
  - destruct (keqb k v); reflexivity.
  - cbn [flat_map]. rewrite filter_app, map_app, IH,
      (metric_items_filter k v t m Hk Hv Ht Hm).
    unfold field_values. cbn [flat_map].
    destruct (keqb k v); reflexivity.
Qed.

Lemma output_items_filter (sentence_results : list (RougeKey * list (list (string * Tensor))))
  (v : RougeKey) (t : string) :
  NoDup (dict_keys sentence_results) ->
  (forall k metrics, In (k, metrics) sentence_results ->
     In k (dict_values ALLOWED_ROUGE_KEYS) /\
     Forall (fun m => well_formed_score m \/ m = []) metrics) ->
  In v (dict_values ALLOWED_ROUGE_KEYS) ->
  In t FIELDS ->
  map snd (filter (fun nv => String.eqb (fst nv) (output_key v t))
             (output_items sentence_results)) =
  match dict_get sentence_results v with
  | Some metrics => field_values t metrics
  | None => []
  end.
Proof.
  intros Hnd Hall Hv Ht.
  induction sentence_results as [|[k metrics] sr IH]; [reflexivity|].
  inversion Hnd as [|? ? Hnot Hnd']; subst.
  destruct (Hall k metrics (or_introl eq_refl)) as [Hk HF].
  unfold output_items in *. cbn [flat_map fst snd dict_get].
  rewrite filter_app, map_app, (key_items_filter k v t metrics Hk Hv Ht HF),
    (IH Hnd' (fun k m Hin => Hall k m (or_intror Hin))).
  destruct (keqb_spec k v) as [->|Hne]; [|reflexivity].
  apply dict_get_None_keys in Hnot. rewrite Hnot, app_nil_r. reflexivity.
Qed.

Lemma append_items_keys (items : list (string * Tensor)) :
  forall d d' : list (string * list Tensor),
    value (foldM (fun d nv => dict_append d (fst nv) (snd nv)) items d) = Ok d' ->
    dict_keys d' = dict_keys d.
Proof.
  induction items as [|[n v] items IH]; intros d d' Hv.
  - injection Hv as <-. reflexivity.
  - cbn [foldM fst snd] in Hv. unfold dict_append, dict_item in Hv.
    destruct (dict_get d n) as [l|] eqn:El; [|discriminate].
    rewrite !bind_ret_l in Hv. rewrite (IH _ _ Hv).
    apply dict_keys_set_present. congruence.
Qed.

Lemma rouge_score_compute_keys (sentence_results : list (string * list Tensor)) :
  NoDup (dict_keys sentence_results) ->
  dict_keys (_rouge_score_compute sentence_results) = dict_keys sentence_results.
Proof.
  intros Hnd. unfold _rouge_score_compute.
  destruct sentence_results as [|kv d]; [reflexivity|].
  rewrite (fold_set_fresh tensor_mean (kv :: d) []) by exact Hnd.
  unfold dict_keys. cbn [app]. rewrite map_map. reflexivity.
Qed.

Lemma init_output_keys (rouge_keys_values : list RougeKey) (name : string) :
  In name (dict_keys (init_output rouge_keys_values)) <->
  exists rouge_key type,
    In rouge_key rouge_keys_values /\ In type FIELDS /\
    name = output_key rouge_key type.
Proof.
  split.
  - intros Hin.
    destruct (key_in name
                (flat_map (fun rouge_key => map (output_key rouge_key) FIELDS)
                   rouge_keys_values)) eqn:E.
    + apply key_in_In, in_flat_map in E as [k [Hk Hn]].
      apply in_map_iff in Hn as [t [<- Ht]]. exists k, t. tauto.
    + exfalso. revert Hin. apply dict_get_None_keys.
      rewrite init_output_flat, (dict_get_fold_set (fun _ => [])).
      unfold FIELDS in E. rewrite E. reflexivity.
  - intros [k [t [Hk [Ht ->]]]]. 
    destruct (In_dec string_dec (output_key k t)
                (dict_keys (init_output rouge_keys_values))) as [Hin|Hn];
      [exact Hin|].
    apply dict_get_None_keys in Hn.
    rewrite (init_output_get _ _ _ Hk Ht) in Hn. discriminate.
Qed.

(** ** The keys of [results] never change *)

Lemma foldM_preserves {S X T} (g : S -> T) (f : S -> X -> M S) (l : list X) :
  (forall s x s', value (f s x) = Ok s' -> g s' = g s) ->
  forall s s', value (foldM f l s) = Ok s' -> g s' = g s.
Proof.
  intros Hf. induction l as [|x l IH]; intros s s' Hv.
  - injection Hv as <-. reflexivity.
  - cbn [foldM] in Hv. rewrite value_bind in Hv.
    destruct (value (f s x)) as [s1|e] eqn:E1; [|discriminate].
    rewrite (IH _ _ Hv). apply (Hf _ _ _ E1).
Qed.

Lemma update_example_keys {ar : Arith} (nltk : option NLTK) (keys : list RougeKey)
  (accumulate : string) (stemmer : option (string -> string))
  (results results' : list (RougeKey * list (list (string * Tensor))))
  (ex : string * list string) :
  value (update_example nltk keys accumulate stemmer results ex) = Ok results' ->
  dict_keys results' = dict_keys results.
Proof.
  destruct ex as [pred_raw refs]. unfold update_example.
  rewrite value_bind.
  destruct (value (_add_newline_to_end_of_each_sentence nltk pred_raw));
    [|discriminate].
  rewrite value_bind.
  destruct (value (foldM _ refs _)) as [st|e]; [|discriminate].
  destruct (String.eqb accumulate "best"); [|destruct (String.eqb accumulate "avg")].
  - unfold accumulate_best. rewrite value_bind.
    destruct (value (list_item keys 0)) as [key_curr|e]; [|discriminate].
    rewrite value_bind.
    destruct (value (mapM _ (list_results st))) as [all_fmeasure|e];
      [|discriminate].
    rewrite value_bind.
    destruct (value (argmax all_fmeasure)) as [highest_idx|e]; [|discriminate].
    apply (foldM_preserves (@dict_keys RougeKey _)). clear.
    intros s k s'. unfold dict_item, list_item.
    destruct (dict_get s k) as [l|] eqn:El; [|discriminate].
    rewrite bind_ret_l.
    destruct (nth_error (list_results st) highest_idx) as [v|]; [|discriminate].
    rewrite bind_ret_l.
    destruct (dict_get v k) as [sk|]; [|discriminate].
    rewrite bind_ret_l. intros Hv. injection Hv as <-.
    apply dict_keys_set_present. congruence.
  - unfold accumulate_avg.
    apply (foldM_preserves (@dict_keys RougeKey _)). clear.
    intros s k s'. unfold dict_item.
    destruct (dict_get s k) as [l|] eqn:El; [|discriminate].
    rewrite bind_ret_l.
    match goal with
    | |- context [match dict_get ?d k with _ => _ end] =>
        destruct (dict_get d k) as [sk|]; [|discriminate]
    end.
    rewrite bind_ret_l. intros Hv. injection Hv as <-.
    apply dict_keys_set_present. congruence.
  - intros Hv. injection Hv as <-. reflexivity.
Qed.

Lemma rouge_score_update_keys {ar : Arith} (nltk : option NLTK) (keys : list RougeKey)
  (accumulate : string) (stemmer : option (string -> string))
  (preds : list string) (target : list (list string))
  (results : list (RougeKey * list (list (string * Tensor)))) :
  value (_rouge_score_update nltk keys accumulate stemmer preds target)
    = Ok results ->
  dict_keys results = dict_keys (dict_fromkeys keys ([] : list (list (string * Tensor)))).
Proof.
  unfold _rouge_score_update.
  apply (foldM_preserves (@dict_keys RougeKey _)).
  intros s x s'. apply update_example_keys.
Qed.

(** ** From the collected scores to the output *)

Lemma rouge_score_unfold {ar : Arith} (nltk : option NLTK) (preds : Preds) (target : Target)
  (accumulate : string) (use_stemmer : bool) (rouge_keys : RougeKeys)
  (stemmer : option (string -> string)) :
  get_stemmer nltk use_stemmer = ret stemmer ->
  first_unknown_key rouge_keys = None ->
  let vals := map allowed_value (rouge_keys_tuple rouge_keys) in
  rouge_score nltk preds target accumulate use_stemmer rouge_keys =
  (sentence_results <-
     _rouge_score_update nltk vals accumulate stemmer
       (map fst (examples preds target)) (map snd (examples preds target)) ;;
   output <- collect_output sentence_results (init_output vals) ;;
   ret (_rouge_score_compute output)).
Proof.
  intros Hst Hk vals. unfold rouge_score, examples.
  rewrite Hst, get_rouge_keys_values_cases, Hk, !bind_ret_l.
  destruct (normalize_shape preds target) as [ps gs].
  unfold _rouge_score_update.
  replace (combine (map fst (combine ps gs)) (map snd (combine ps gs)))
    with (combine ps gs); [reflexivity|].
  clear. revert gs. induction ps as [|p ps IH]; intros [|g gs];
    cbn [combine map fst snd]; try reflexivity.
  rewrite <- IH. reflexivity.
Qed.

Lemma combine_fst_snd {A B} (l : list (A * B)) :
  combine (map fst l) (map snd l) = l.
Proof.
  induction l as [|[a b] l IH]; cbn [map combine fst snd]; [reflexivity|].
  rewrite IH. reflexivity.
Qed.

Lemma rouge_score_collect {ar : Arith} (nltk : option NLTK) (preds : Preds) (target : Target)
  (accumulate : string) (use_stemmer : bool) (rouge_keys : RougeKeys)
  (stemmer : option (string -> string))
  (results : list (RougeKey * list (list (string * Tensor)))) :
  let vals := map allowed_value (rouge_keys_tuple rouge_keys) in
  get_stemmer nltk use_stemmer = ret stemmer ->
  first_unknown_key rouge_keys = None ->
  value (_rouge_score_update nltk vals accumulate stemmer
           (map fst (examples preds target)) (map snd (examples preds target)))
    = Ok results ->
  (forall k metrics, dict_get results k = Some metrics ->
     Forall (fun m => well_formed_score m \/ m = []) metrics) ->
  exists out,
    value (rouge_score nltk preds target accumulate use_stemmer rouge_keys)
      = Ok out /\
    forall v t metrics,
      In v vals -> In t FIELDS -> dict_get results v = Some metrics ->
      dict_get out (output_key v t) = Some (tensor_mean (field_values t metrics)).
Proof.
  intros vals Hst Hk Hupd Hwf.
  pose proof (rouge_score_update_keys _ _ _ _ _ _ _ Hupd) as Hkeys.
  assert (Hnd : NoDup (dict_keys results)).
  { rewrite Hkeys. apply dict_fromkeys_NoDup. }
  assert (Hall : forall k metrics, In (k, metrics) results ->
            In k vals /\ Forall (fun m => well_formed_score m \/ m = []) metrics).
  { intros k metrics Hin. split.
    - apply (dict_keys_fromkeys_In vals ([] : list (list (string * Tensor)))).
      rewrite <- Hkeys. apply (in_map fst) in Hin. exact Hin.
    - apply (Hwf k). apply dict_get_In; assumption. }
  destruct (append_items_loop (output_items results) (init_output vals))
    as [d' [Hv [Hk' Hg]]].
  { intros nv Hin. unfold output_items in Hin.
    apply in_flat_map in Hin as [[k metrics] [Hkm Hin]].
    apply in_flat_map in Hin as [m [Hm Hin]].
    apply in_map_iff in Hin as [[ty x] [<- Htv]]. cbn [fst snd] in *.
    destruct (Hall k metrics Hkm) as [Hkv HF].
    rewrite Forall_forall in HF. destruct (HF m Hm) as [Hs | ->]; [|destruct Htv].
    rewrite (init_output_get vals k ty Hkv); [discriminate|].
    rewrite Hs in Htv. unfold mk_score in Htv. cbn.
    destruct Htv as [E|[E|[E|[]]]]; injection E as <- _; tauto. }
  exists (_rouge_score_compute d'). split.
  - rewrite (rouge_score_unfold nltk preds target accumulate use_stemmer
               rouge_keys stemmer Hst Hk).
    cbv zeta. fold vals.
    rewrite (value_bind_ok _ _ _ Hupd), collect_output_items, Hv, bind_ret_l.
    reflexivity.
  - intros v t metrics Hv' Ht Hget.
    apply rouge_score_compute_get.
    + rewrite Hk'. apply init_output_NoDup.
    + rewrite Hg, (init_output_get vals v t Hv' Ht). cbn [option_map app].
      rewrite (output_items_filter results v t Hnd); [rewrite Hget; reflexivity| | |exact Ht].
      * intros k m Hin. destruct (Hall k m Hin) as [Hkv HF]. split; [|exact HF].
        apply (allowed_values_In rouge_keys); assumption.
      * apply (allowed_values_In rouge_keys); assumption.
Qed.

Lemma field_of_mk_score (t : string) (p r f : Q) :
  In t FIELDS -> dict_get (mk_score p r f) t = Some (tensor (field_of t (mk_score p r f))).
Proof. intros [<-|[<-|[<-|[]]]]; reflexivity. Qed.

Lemma field_values_repeated {A} (t : string) (h : A -> list (string * Tensor))
  (c : nat) (l : list A) :
  In t FIELDS ->
  (forall a, In a l -> well_formed_score (h a)) ->
  field_values t (flat_map (fun a => repeat (h a) c) l) =
  map tensor (flat_map (fun a => repeat (field_of t (h a)) c) l).
Proof.
  intros Ht Hwf. unfold field_values.
  induction l as [|a l IH]; [reflexivity|].
  cbn [flat_map]. rewrite flat_map_app, map_app, IH
    by (intros a' Hin; apply Hwf; right; exact Hin).
  f_equal. specialize (Hwf a (or_introl eq_refl)).
  assert (E : dict_get (h a) t = Some (tensor (field_of t (h a)))).
  { unfold well_formed_score in Hwf.
    pose proof (field_of_mk_score t (precision_of (h a)) (recall_of (h a))
                  (fmeasure_of (h a)) Ht) as E0.
    rewrite <- Hwf in E0. exact E0. }
  clear IH. induction c as [|c IHc]; [reflexivity|].
  cbn [repeat flat_map map app]. rewrite IHc, E. reflexivity.
Qed.

Lemma stemmer_available (lib : NLTK) (use_stemmer : bool) :
  get_stemmer (Some lib) use_stemmer =
  ret (if use_stemmer then Some (porter_stem lib) else None).
Proof. destruct use_stemmer; reflexivity. Qed.

(** ** The output of [rouge_score] *)

(** X18.  Whenever [rouge_score] returns, its result has exactly one entry
    for every requested key and each of the three fields, named
    [rouge<key>_<field>], and no name twice. *)
Theorem rouge_score_output_names (nltk : option NLTK) (preds : Preds)
  (target : Target) (accumulate : string) (use_stemmer : bool)
  (rouge_keys : RougeKeys) (out : list (string * Tensor)) :
  value (rouge_score nltk preds target accumulate use_stemmer rouge_keys)
    = Ok out ->
  NoDup (dict_keys out) /\
  forall name,
    In name (dict_keys out) <->
    exists key type,
      In key (rouge_keys_tuple rouge_keys) /\ In type FIELDS /\
      name = output_key (allowed_value key) type.
Proof.
  intros Hv. unfold rouge_score in Hv.
  rewrite value_bind in Hv.
  destruct (value (get_stemmer nltk use_stemmer)) as [stemmer|e]; [|discriminate].
  rewrite value_bind, get_rouge_keys_values_cases in Hv.
  destruct (first_unknown_key rouge_keys); [discriminate|].
  cbn [value ret fst] in Hv.
  destruct (normalize_shape preds target) as [ps gs].
  rewrite value_bind in Hv.
  destruct (value (_rouge_score_update _ _ _ _ ps gs)) as [results|e];
    [|discriminate].
  rewrite value_bind in Hv.
  destruct (value (collect_output results _)) as [d'|e] eqn:Ec; [|discriminate].
  injection Hv as <-.
  rewrite collect_output_items in Ec. apply append_items_keys in Ec.
  assert (Hnd : NoDup (dict_keys d')).
  { rewrite Ec. apply init_output_NoDup. }
  rewrite (rouge_score_compute_keys d' Hnd). split; [exact Hnd|].
  intros name. rewrite Ec, init_output_keys. split.
  - intros [v [t [Hin [Ht ->]]]]. apply in_map_iff in Hin as [key [<- Hin]].
    exists key, t. tauto.
  - intros [key [t [Hin [Ht ->]]]]. exists (allowed_value key), t.
    split; [apply in_map, Hin|tauto].
Qed.

Lemma rouge_score_output_names_witness :
  exists out,
    value (rouge_score (Some plain_nltk) (PredStr "My name is John")
             (TargetStr "Is your name John") "best" false
             (KeysTuple ["rouge1"; "rougeL"])) = Ok out /\
    NoDup (dict_keys out) /\
    forall name,
      In name (dict_keys out) <->
      exists key type,
        In key (rouge_keys_tuple (KeysTuple ["rouge1"; "rougeL"])) /\
        In type FIELDS /\
        name = output_key (allowed_value key) type.
Proof.
  eexists. split; [vm_compute; reflexivity|].
  apply (rouge_score_output_names (Some plain_nltk) (PredStr "My name is John")
           (TargetStr "Is your name John") "best" false
           (KeysTuple ["rouge1"; "rougeL"])).
  vm_compute. reflexivity.
Defined.

Lemma Qmean_ext {A} (f g : A -> Q) (l : list A) :
  (forall a, In a l -> (f a == g a)%Q) ->
  (Qmean (map f l) == Qmean (map g l))%Q.
Proof.
  intros Hfg. unfold Qmean. rewrite !length_map.
  assert (E : (Qsum (map f l) == Qsum (map g l))%Q).
  { induction l as [|a l IH]; [reflexivity|].
    unfold Qsum in *. cbn [map fold_right].
    rewrite (Hfg a (or_introl eq_refl)), IH; [reflexivity|].
    intros a' Hin. apply Hfg. right; exact Hin. }
  rewrite E. reflexivity.
Qed.

Lemma results_key_requested {ar : Arith} (nltk : option NLTK) (keys : list RougeKey)
  (accumulate : string) (stemmer : option (string -> string))
  (preds : list string) (target : list (list string))
  (results : list (RougeKey * list (list (string * Tensor))))
  (k : RougeKey) (metrics : list (list (string * Tensor))) :
  value (_rouge_score_update nltk keys accumulate stemmer preds target)
    = Ok results ->
  dict_get results k = Some metrics -> In k keys.
Proof.
  intros Hupd Hget.
  apply (dict_keys_fromkeys_In keys ([] : list (list (string * Tensor)))).
  rewrite <- (rouge_score_update_keys _ _ _ _ _ _ _ Hupd).
  destruct (In_dec (fun a b : RougeKey =>
                      match keqb_spec a b with
                      | ReflectT _ E => left E
                      | ReflectF _ N => right N
                      end) k (dict_keys results)) as [Hin|Hn]; [exact Hin|].
  apply dict_get_None_keys in Hn. congruence.
Qed.

Lemma flat_repeat_nonempty {A B} (h : A -> B) (c : nat) (l : list A) :
  (1 <= c)%nat -> l <> [] -> flat_map (fun a => repeat (h a) c) l <> [].
Proof.
  intros Hc Hl E. apply (f_equal (@List.length _)) in E.
  rewrite length_repeated in E. destruct l; [congruence|]. simpl in E. lia.
Qed.

(** X19.  [best] mode, end to end: with [nltk] available, valid keys and at
    least one reference for every example of a non-empty batch,
    [rouge_score] returns, and the value under [rouge<key>_<field>] is the
    mean, over the examples, of that field of the score of the reference
    chosen for the example: the first one whose fmeasure for the first
    requested key is maximal.  The fmeasures compared are the values the
    tensors hold; the statement is proved for every arithmetic, so also
    for [ieee_arith], where they are the float32 values of the program. *)
Theorem rouge_score_best_batch_mean {ar : Arith} {arl : ArithLaws ar}
  (lib : NLTK) (preds : Preds) (target : Target) (use_stemmer : bool) (rouge_keys : RougeKeys)
  (first : string) (others : list string) :
  let vals := map allowed_value (rouge_keys_tuple rouge_keys) in
  let stemmer := if use_stemmer then Some (porter_stem lib) else None in
  let batch := examples preds target in
  let sc := fun pred_raw t key =>
              score_of (reference_score lib stemmer vals pred_raw t key) in
  first_unknown_key rouge_keys = None ->
  rouge_keys_tuple rouge_keys = first :: others ->
  batch <> [] ->
  (forall ex, In ex batch -> snd ex <> []) ->
  exists chosen : list string,
    Forall2 (fun ex best_ref =>
               exists i,
                 nth_error (snd ex) i = Some best_ref /\
                 first_maximum
                   (map (fun t => fmeasure_of (sc (fst ex) t (allowed_value first)))
                      (snd ex)) i)
      batch chosen /\
    exists out,
      value (rouge_score (Some lib) preds target "best" use_stemmer rouge_keys)
        = Ok out /\
      forall key type,
        In key (rouge_keys_tuple rouge_keys) -> In type FIELDS ->
        exists q,
          dict_get out (output_key (allowed_value key) type) = Some (tensor q) /\
          (q == Qmean (map (fun ec => field_of type
                                        (sc (fst (fst ec)) (snd ec)
                                           (allowed_value key)))
                         (combine batch chosen)))%Q.
Proof.
  intros vals stemmer batch sc Hk Ht Hne Hrefs.
  assert (Ev : vals = allowed_value first :: map allowed_value others).
  { unfold vals. rewrite Ht. reflexivity. }
  pose proof (best_mode_batch lib stemmer (allowed_value first)
                (map allowed_value others) (map fst batch) (map snd batch))
    as HB.
  cbv zeta in HB. rewrite combine_fst_snd, <- Ev in HB.
  destruct (HB Hrefs) as [chosen [Hch [results [Hupd Hget]]]]. clear HB.
  exists chosen. split; [exact Hch|].
  destruct (rouge_score_collect (Some lib) preds target "best" use_stemmer
              rouge_keys stemmer results (stemmer_available lib use_stemmer)
              Hk Hupd) as [out [Hout Hvals]].
  { intros k metrics Hg.
    pose proof (results_key_requested _ _ _ _ _ _ _ _ _ Hupd Hg) as Hin.
    rewrite (Hget k Hin) in Hg. injection Hg as <-.
    apply Forall_forall. intros m Hm.
    apply in_flat_map in Hm as [ec [_ Hm]]. apply repeat_spec in Hm. subst m.
    left. apply (reference_score_value lib stemmer vals _ _ k Hin). }
  exists out. split; [exact Hout|]. intros key type Hin Hty.
  assert (Hv : In (allowed_value key) vals) by (apply in_map, Hin).
  rewrite (Hvals _ _ _ Hv Hty (Hget _ Hv)).
  rewrite field_values_repeated; [|exact Hty|].
  2:{ intros ec _. apply (reference_score_value lib stemmer vals _ _ _ Hv). }
  assert (Hc : combine batch chosen <> []).
  { destruct Hch; [congruence|discriminate]. }
  pose proof (occurrences_pos _ _ Hv) as Hocc.
  eexists. split.
  - rewrite tensor_mean_map; [reflexivity|].
    apply flat_repeat_nonempty; assumption.
  - apply (Qmean_repeated
             (fun ec => field_of type (sc (fst (fst ec)) (snd ec)
                                         (allowed_value key)))); assumption.
Qed.

Lemma rouge_score_best_batch_mean_witness :
  exists chosen : list string,
    Forall2 (fun ex best_ref =>
               exists i,
                 nth_error (snd ex) i = Some best_ref /\
                 first_maximum
                   (map (fun t =>
                           fmeasure_of
                             (score_of
                                (reference_score (ar := ieee_arith)
                                   plain_nltk None
                                   (map allowed_value ["rouge1"; "rougeL"])
                                   (fst ex) t (allowed_value "rouge1"))))
                      (snd ex)) i)
      (examples (PredList ["a b"; "c"])
         (TargetNested [["a"; "a b"]; ["c d"]])) chosen /\
    exists out,
      value (rouge_score (ar := ieee_arith) (Some plain_nltk) (PredList ["a b"; "c"])
               (TargetNested [["a"; "a b"]; ["c d"]]) "best" false
               (KeysTuple ["rouge1"; "rougeL"])) = Ok out /\
      forall key type,
        In key ["rouge1"; "rougeL"] -> In type FIELDS ->
        exists q,
          dict_get out (output_key (allowed_value key) type) = Some (tensor q) /\
          (q == Qmean (map (fun ec =>
                              field_of type
                                (score_of
                                   (reference_score (ar := ieee_arith)
                                   plain_nltk None
                                      (map allowed_value ["rouge1"; "rougeL"])
                                      (fst (fst ec)) (snd ec)
                                      (allowed_value key))))
                         (combine (examples (PredList ["a b"; "c"])
                                     (TargetNested [["a"; "a b"]; ["c d"]]))
                            chosen)))%Q.
Proof.
  apply (rouge_score_best_batch_mean (ar := ieee_arith) plain_nltk (PredList ["a b"; "c"])
           (TargetNested [["a"; "a b"]; ["c d"]]) false
           (KeysTuple ["rouge1"; "rougeL"]) "rouge1" ["rougeL"]).
  - reflexivity.
  - reflexivity.
  - discriminate.
  - intros ex [<-|[<-|[]]]; discriminate.
Defined.

Lemma field_values_repeat_empty (t : string) (c : nat) :
  field_values t (repeat ([] : list (string * Tensor)) c) = [].
Proof. induction c as [|c IH]; [reflexivity|exact IH]. Qed.

Lemma field_values_app (t : string) (a b : list (list (string * Tensor))) :
  field_values t (a ++ b) = field_values t a ++ field_values t b.
Proof. unfold field_values. apply flat_map_app. Qed.

Lemma field_values_scored {A} (t : string) (keep : A -> bool)
  (h : A -> list (string * Tensor)) (c : nat) (l : list A) :
  In t FIELDS ->
  (forall a, In a l ->
     if keep a then well_formed_score (h a) else h a = []) ->
  field_values t (flat_map (fun a => repeat (h a) c) l) =
  map tensor (flat_map (fun a => repeat (field_of t (h a)) c) (filter keep l)).
Proof.
  intros Ht Hh. induction l as [|a l IH]; [reflexivity|].
  cbn [flat_map filter]. rewrite field_values_app, IH
    by (intros a' Hin; apply Hh; right; exact Hin).
  specialize (Hh a (or_introl eq_refl)). destruct (keep a).
  - cbn [flat_map]. rewrite map_app. f_equal.
    pose proof (field_values_repeated t h c [a] Ht) as E.
    cbn [flat_map] in E. rewrite !app_nil_r in E. apply E.
    intros a' [<-|[]]. exact Hh.
  - rewrite Hh, field_values_repeat_empty. reflexivity.
Qed.

(** X20.  [avg] mode, end to end: with [nltk] available and valid keys
    [rouge_score] always returns.  Examples without a reference are
    skipped; the value under [rouge<key>_<field>] is the mean, over the
    other examples, of the mean of that field over the example's
    references, and [nan] when no example has a reference. *)
Theorem rouge_score_avg_batch_mean (lib : NLTK) (preds : Preds)
  (target : Target) (use_stemmer : bool) (rouge_keys : RougeKeys) :
  let vals := map allowed_value (rouge_keys_tuple rouge_keys) in
  let stemmer := if use_stemmer then Some (porter_stem lib) else None in
  let sc := fun pred_raw t key =>
              score_of (reference_score lib stemmer vals pred_raw t key) in
  let scored := filter has_reference (examples preds target) in
  first_unknown_key rouge_keys = None ->
  exists out,
    value (rouge_score (Some lib) preds target "avg" use_stemmer rouge_keys)
      = Ok out /\
    forall key type,
      In key (rouge_keys_tuple rouge_keys) -> In type FIELDS ->
      match scored with
      | [] => dict_get out (output_key (allowed_value key) type) = Some nan
      | _ :: _ =>
          exists q,
            dict_get out (output_key (allowed_value key) type)
              = Some (tensor q) /\
            (q == Qmean
                    (map (fun ex =>
                            Qmean (map (fun t => field_of type
                                                   (sc (fst ex) t
                                                      (allowed_value key)))
                                     (snd ex)))
                       scored))%Q
      end.
Proof.
  intros vals stemmer sc scored Hk.
  set (batch := examples preds target) in *.
  pose proof (avg_mode_batch lib stemmer vals (map fst batch) (map snd batch))
    as HB.
  cbv zeta in HB. rewrite combine_fst_snd in HB.
  destruct HB as [results [Hupd Hget]].
  set (avg := fun (ex : string * list string) key =>
         mean_scores
           (flat_map (fun t => repeat (sc (fst ex) t key) (occurrences key vals))
              (snd ex))) in *.
  assert (Havg : forall key ex, In key vals ->
            if has_reference ex then
              well_formed_score (avg ex key) /\
              forall type, In type FIELDS ->
                (field_of type (avg ex key) ==
                 Qmean (map (fun t => field_of type (sc (fst ex) t key))
                          (snd ex)))%Q
            else avg ex key = []).
  { intros key ex Hin.
    destruct (averaged_reference_scores (fun t => sc (fst ex) t key) (snd ex)
                (occurrences key vals)) as [Hnil Hcons].
    - intros t. apply (reference_score_value lib stemmer vals _ _ _ Hin).
    - apply occurrences_pos, Hin.
    - unfold has_reference. destruct (snd ex) as [|t0 refs] eqn:Er.
      + unfold avg. rewrite Er. apply Hnil. reflexivity.
      + destruct Hcons as [p [r [f [E [Hp [Hr Hf]]]]]]; [discriminate|].
        unfold avg. rewrite Er. cbv beta in E. rewrite E. split; [reflexivity|].
        intros type [<-|[<-|[<-|[]]]]; assumption. }
  destruct (rouge_score_collect (Some lib) preds target "avg" use_stemmer
              rouge_keys stemmer results (stemmer_available lib use_stemmer)
              Hk Hupd) as [out [Hout Hvals]].
  { intros k metrics Hg.
    pose proof (results_key_requested _ _ _ _ _ _ _ _ _ Hupd Hg) as Hin.
    rewrite (Hget k Hin) in Hg. injection Hg as <-.
    apply Forall_forall. intros m Hm.
    apply in_flat_map in Hm as [ex [_ Hm]]. apply repeat_spec in Hm. subst m.
    specialize (Havg k ex Hin). fold (avg ex k).
    destruct (has_reference ex); [left; apply Havg|right; exact Havg]. }
  exists out. split; [exact Hout|]. intros key type Hin Hty.
  assert (Hv : In (allowed_value key) vals) by (apply in_map, Hin).
  rewrite (Hvals _ _ _ Hv Hty (Hget _ Hv)).
  rewrite (field_values_scored type has_reference
             (fun ex => avg ex (allowed_value key))); [|exact Hty|].
  2:{ intros ex _. specialize (Havg (allowed_value key) ex Hv).
      destruct (has_reference ex); [apply Havg|exact Havg]. }
  fold scored. destruct scored as [|ex0 rest] eqn:Es; [reflexivity|].
  pose proof (occurrences_pos _ _ Hv) as Hocc.
  eexists. split.
  - rewrite tensor_mean_map; [reflexivity|].
    apply flat_repeat_nonempty; [assumption|discriminate].
  - rewrite (Qmean_repeated
               (fun ex => field_of type (avg ex (allowed_value key))))
      by (assumption || discriminate).
    apply Qmean_ext. intros ex Hex.
    assert (Hr : has_reference ex = true).
    { rewrite <- Es in Hex. unfold scored in Hex.
      apply filter_In in Hex. apply Hex. }
    specialize (Havg (allowed_value key) ex Hv). rewrite Hr in Havg.
    apply Havg, Hty.
Qed.

Lemma rouge_score_avg_batch_mean_witness :
  exists out,
    value (rouge_score (Some plain_nltk) (PredList ["a b"; "c"])
             (TargetNested [["a"; "a b c d"]; []]) "avg" false
             (KeysStr "rouge1")) = Ok out /\
    forall key type,
      In key ["rouge1"] -> In type FIELDS ->
      exists q,
        dict_get out (output_key (allowed_value key) type) = Some (tensor q) /\
        (q == Qmean
                (map (fun ex =>
                        Qmean (map (fun t =>
                                      field_of type
                                        (score_of
                                           (reference_score plain_nltk None
                                              (map allowed_value ["rouge1"])
                                              (fst ex) t (allowed_value key))))
                                 (snd ex)))
                   [("a b", ["a"; "a b c d"])]))%Q.
Proof.
  apply (rouge_score_avg_batch_mean plain_nltk (PredList ["a b"; "c"])
           (TargetNested [["a"; "a b c d"]; []]) false (KeysStr "rouge1")).
  reflexivity.
Defined.

(** ** Batches that add no score *)

Lemma update_example_skip (lib : NLTK) (keys : list RougeKey)
  (accumulate : string) (stemmer : option (string -> string))
  (results : list (RougeKey * list (list (string * Tensor))))
  (ex : string * list string) :
  String.eqb accumulate "best" = false ->
  (String.eqb accumulate "avg" = true -> keys = []) ->
  value (update_example (Some lib) keys accumulate stemmer results ex)
    = Ok results.
Proof.
  intros Hb Ha. destruct ex as [pred_raw refs].
  destruct (references_loop lib stemmer keys pred_raw refs
              {| result_inner := dict_fromkeys keys [];
                 result_avg := dict_fromkeys keys [];
                 list_results := [] |})
    as [st [ds [Hv _]]].
  { apply keys_present_fromkeys. }
  unfold update_example. cbn [_add_newline_to_end_of_each_sentence].
  rewrite bind_ret_l, (value_bind_ok _ _ _ Hv), Hb.
  destruct (String.eqb accumulate "avg"); [|reflexivity].
  rewrite (Ha eq_refl). reflexivity.
Qed.

Lemma rouge_score_skip (lib : NLTK) (preds : Preds) (target : Target)
  (accumulate : string) (use_stemmer : bool) (rouge_keys : RougeKeys) :
  first_unknown_key rouge_keys = None ->
  String.eqb accumulate "best" = false ->
  (String.eqb accumulate "avg" = true -> rouge_keys_tuple rouge_keys = []) ->
  value (rouge_score (Some lib) preds target accumulate use_stemmer rouge_keys)
  = Ok (_rouge_score_compute
          (init_output (map allowed_value (rouge_keys_tuple rouge_keys)))).
Proof.
  intros Hk Hb Ha.
  rewrite (rouge_score_unfold (Some lib) preds target accumulate use_stemmer
             rouge_keys _ (stemmer_available lib use_stemmer) Hk).
  cbv zeta. unfold _rouge_score_update. rewrite combine_fst_snd.
  set (vals := map allowed_value (rouge_keys_tuple rouge_keys)).
  set (stemmer := if use_stemmer then Some (porter_stem lib) else None).
  assert (Hupd : forall results,
            value (foldM (update_example (Some lib) vals accumulate stemmer)
                     (examples preds target) results) = Ok results).
  { induction (examples preds target) as [|ex batch IH]; intros results;
      [reflexivity|].
    cbn [foldM]. rewrite (value_bind_ok _ _ results); [apply IH|].
    apply update_example_skip; [exact Hb|].
    intros E. unfold vals. rewrite (Ha E). reflexivity. }
  rewrite (value_bind_ok _ _ _ (Hupd _)).
  rewrite collect_output_no_metric, bind_ret_l; [reflexivity|].
  intros k v. apply dict_fromkeys_In.
Qed.

(** X21.  [accumulate] is never validated: with a value other than the
    two of [ALLOWED_ACCUMULATE_VALUES], [rouge_score] reports no error and
    returns [nan] under every requested key and field, whatever the
    batch. *)
Theorem rouge_score_unknown_accumulate (lib : NLTK) (preds : Preds)
  (target : Target) (accumulate : string) (use_stemmer : bool)
  (rouge_keys : RougeKeys) :
  first_unknown_key rouge_keys = None ->
  ~ In accumulate ALLOWED_ACCUMULATE_VALUES ->
  exists out,
    value (rouge_score (Some lib) preds target accumulate use_stemmer rouge_keys)
      = Ok out /\
    forall key type,
      In key (rouge_keys_tuple rouge_keys) -> In type FIELDS ->
      dict_get out (output_key (allowed_value key) type) = Some nan.
Proof.
  intros Hk Hacc. eexists. split.
  - apply rouge_score_skip; [exact Hk| |].
    + apply String.eqb_neq. intros ->. apply Hacc. right; left; reflexivity.
    + intros E. apply String.eqb_eq in E. subst accumulate.
      exfalso. apply Hacc. left; reflexivity.
  - intros key type Hin Hty.
    rewrite (rouge_score_compute_get _ _ []); [reflexivity| |].
    + apply init_output_NoDup.
    + apply init_output_get; [apply in_map, Hin|exact Hty].
Qed.

Lemma rouge_score_unknown_accumulate_witness :
  exists out,
    value (rouge_score (Some plain_nltk) (PredStr "My name is John")
             (TargetStr "Is your name John") "max" false (KeysStr "rouge1"))
      = Ok out /\
    forall key type,
      In key (rouge_keys_tuple (KeysStr "rouge1")) -> In type FIELDS ->
      dict_get out (output_key (allowed_value key) type) = Some nan.
Proof.
  apply (rouge_score_unknown_accumulate plain_nltk (PredStr "My name is John")
           (TargetStr "Is your name John") "max" false (KeysStr "rouge1")).
  - reflexivity.
  - intros [E|[E|[]]]; discriminate.
Defined.

Lemma update_best_no_keys (lib : NLTK) (stemmer : option (string -> string))
  (results : list (RougeKey * list (list (string * Tensor))))
  (ex : string * list string) :
  value (update_example (Some lib) [] "best" stemmer results ex)
    = Raise IndexError.
Proof.
  destruct ex as [pred_raw refs].
  destruct (references_loop lib stemmer [] pred_raw refs
              {| result_inner := dict_fromkeys [] [];
                 result_avg := dict_fromkeys [] [];
                 list_results := [] |})
    as [st [ds [Hv _]]].
  { intros k []. }
  unfold update_example. cbn [_add_newline_to_end_of_each_sentence].
  rewrite bind_ret_l, (value_bind_ok _ _ _ Hv). reflexivity.
Qed.

(** X22.  With an empty tuple of keys (and [nltk] available), [rouge_score]
    returns the empty dictionary, except in [best] mode on a non-empty
    batch, where reading the first key fails with [IndexError]. *)
Theorem rouge_score_no_keys (lib : NLTK) (preds : Preds) (target : Target)
  (accumulate : string) (use_stemmer : bool) :
  value (rouge_score (Some lib) preds target accumulate use_stemmer
           (KeysTuple [])) =
  match String.eqb accumulate "best", examples preds target with
  | true, _ :: _ => Raise IndexError
  | _, _ => Ok []
  end.
Proof.
  destruct (String.eqb accumulate "best") eqn:Eb.
  - apply String.eqb_eq in Eb. subst accumulate.
    destruct (examples preds target) as [|ex batch] eqn:Ex.
    + rewrite (rouge_score_no_example _ _ _ _ _ _ Ex); [reflexivity..|].
      right. discriminate.
    + rewrite (rouge_score_unfold (Some lib) preds target "best" use_stemmer
                 (KeysTuple []) _ (stemmer_available lib use_stemmer) eq_refl).
      cbv zeta. rewrite value_bind. unfold _rouge_score_update.
      rewrite combine_fst_snd, Ex. cbn [foldM]. rewrite value_bind.
      cbn [rouge_keys_tuple map].
      rewrite update_best_no_keys. reflexivity.
  - rewrite rouge_score_skip; [|reflexivity|exact Eb|reflexivity].
    destruct (examples preds target); reflexivity.
Qed.

Lemma best_prefix_returns (lib : NLTK) (stemmer : option (string -> string))
  (key_curr : RougeKey) (other_keys : list RougeKey)
  (batch : list (string * list string)) :
  (forall ex, In ex batch -> snd ex <> []) ->
  forall results, keys_present (key_curr :: other_keys) results ->
    exists results',
      value (foldM (update_example (Some lib) (key_curr :: other_keys) "best"
                      stemmer) batch results) = Ok results'.
Proof.
  induction batch as [|[pred_raw refs] batch IH]; intros Hrefs results Hres.
  - exists results. reflexivity.
  - destruct (update_example_best lib stemmer key_curr other_keys pred_raw refs
                (Hrefs _ (or_introl eq_refl))) as [i [best_ref [_ [_ Hupd]]]].
    destruct (Hupd results Hres) as [results1 [Hv1 Happ]].
    destruct (IH (fun ex Hin => Hrefs ex (or_intror Hin)) results1
                (appended_present _ _ _ _ Hres Happ)) as [results' Hv].
    exists results'. cbn [foldM]. rewrite (value_bind_ok _ _ _ Hv1). exact Hv.
Qed.

Lemma first_without_reference (batch : list (string * list string)) :
  (exists ex, In ex batch /\ snd ex = []) ->
  exists l1 pred_raw l2,
    batch = l1 ++ (pred_raw, []) :: l2 /\
    forall ex, In ex l1 -> snd ex <> [].
Proof.
  induction batch as [|[p refs] batch IH]; intros [ex [Hin Hex]]; [destruct Hin|].
  destruct refs as [|t refs].
  - exists [], p, batch. split; [reflexivity|intros ? []].
  - destruct IH as [l1 [p' [l2 [E Hl1]]]].
    { destruct Hin as [<-|Hin]; [discriminate|]. exists ex. tauto. }
    exists ((p, t :: refs) :: l1), p', l2. split; [rewrite E; reflexivity|].
    intros ex' [<-|Hin']; [discriminate|apply Hl1, Hin'].
Qed.

(** X23.  In [best] mode an example without a reference makes
    [rouge_score] fail (with [nltk] available and valid keys): no result is
    returned, where [avg] mode skips such an example. *)
Theorem rouge_score_best_no_reference (lib : NLTK) (preds : Preds)
  (target : Target) (use_stemmer : bool) (rouge_keys : RougeKeys) :
  first_unknown_key rouge_keys = None ->
  (exists ex, In ex (examples preds target) /\ snd ex = []) ->
  exists e,
    value (rouge_score (Some lib) preds target "best" use_stemmer rouge_keys)
      = Raise e.
Proof.
  intros Hk Hex.
  rewrite (rouge_score_unfold (Some lib) preds target "best" use_stemmer
             rouge_keys _ (stemmer_available lib use_stemmer) Hk).
  cbv zeta. rewrite value_bind. unfold _rouge_score_update.
  rewrite combine_fst_snd.
  set (stemmer := if use_stemmer then Some (porter_stem lib) else None).
  destruct (map allowed_value (rouge_keys_tuple rouge_keys))
    as [|key_curr other_keys].
  - destruct (examples preds target) as [|ex batch];
      [destruct Hex as [? [[] _]]|].
    exists IndexError. cbn [foldM]. rewrite value_bind, update_best_no_keys.
    reflexivity.
  - destruct (first_without_reference _ Hex) as [l1 [p [l2 [-> Hl1]]]].
    destruct (best_prefix_returns lib stemmer key_curr other_keys l1 Hl1
                (dict_fromkeys (key_curr :: other_keys) [])
                (keys_present_fromkeys _)) as [results1 Hv1].
    exists RuntimeError.
    rewrite foldM_app, (value_bind_ok _ _ _ Hv1). cbn [foldM].
    rewrite value_bind.
    replace (value (update_example (Some lib) (key_curr :: other_keys) "best"
                      stemmer results1 (p, [])))
      with (Raise RuntimeError : res (list (RougeKey * list (list (string * Tensor)))));
      reflexivity.
Qed.

Lemma rouge_score_best_no_reference_witness :
  exists e,
    value (rouge_score (Some plain_nltk) (PredList ["a b"; "c"])
             (TargetNested [["a"]; []]) "best" false (KeysStr "rouge1"))
      = Raise e.
Proof.
  apply (rouge_score_best_no_reference plain_nltk (PredList ["a b"; "c"])
           (TargetNested [["a"]; []]) false (KeysStr "rouge1")).
  - reflexivity.
  - exists ("c", []). split; [right; left; reflexivity|reflexivity].
Defined.

(** ** Sentences joined with newlines *)

Lemma alnum_runs_sep (a : string) (c : ascii) (b : string) :
  is_alnum c = false ->
  forall cur,
    alnum_runs cur (a ++ String c b)%string =
    alnum_runs cur a ++ alnum_runs EmptyString b.
Proof.
  intros Hc. induction a as [|x a IH]; intros cur.
  - cbn [append alnum_runs]. rewrite Hc. destruct cur; reflexivity.
  - cbn [append alnum_runs]. destruct (is_alnum x); [apply IH|].
    destruct cur; rewrite IH; reflexivity.
Qed.

Lemma normalize_sep (a b : string) (stemmer : option (string -> string)) :
  _normalize_and_tokenize_text (a ++ String newline b)%string stemmer =
  _normalize_and_tokenize_text a stemmer ++
  _normalize_and_tokenize_text b stemmer.
Proof.
  rewrite !normalize_runs, lower_app. cbn [lower].
  rewrite alnum_runs_sep by reflexivity.
  rewrite map_app, filter_app. reflexivity.
Qed.

Lemma normalize_nothing (stemmer : option (string -> string)) :
  _normalize_and_tokenize_text EmptyString stemmer = [].
Proof. destruct stemmer; reflexivity. Qed.

(** X24.  Joining sentences with newlines and tokenizing the result gives
    the tokens of the sentences, one sentence after the other: the text
    [_add_newline_to_end_of_each_sentence] prepares for [rougeLsum] is
    scored as the plain sequence of the tokens of its sentences. *)
Theorem lsum_tokens_by_sentence (lib : NLTK) (x : string)
  (stemmer : option (string -> string)) :
  (y <- _add_newline_to_end_of_each_sentence (Some lib) x ;;
   ret (_normalize_and_tokenize_text y stemmer)) =
  ret (flat_map (fun sentence => _normalize_and_tokenize_text sentence stemmer)
         (sent_tokenize lib x)).
Proof.
  cbn [_add_newline_to_end_of_each_sentence]. rewrite bind_ret_l. f_equal.
  induction (sent_tokenize lib x) as [|s l IH]; [apply normalize_nothing|].
  destruct l as [|s' l].
  - cbn [String.concat flat_map]. rewrite app_nil_r. reflexivity.
  - change (String.concat (String newline EmptyString) (s :: s' :: l))
      with (s ++ String newline
                   (String.concat (String newline EmptyString) (s' :: l)))%string.
    rewrite normalize_sep, IH. reflexivity.
Qed.
